(** * simpy: expression algebra and integration search, embedded in Rocq

    The development follows the Python sources:
    - [src/simpy/expr.py]        expressions, [simplify], [repr], [diff];
    - [src/simpy/transforms.py]  search-tree nodes, the elementary table,
                                 [ByParts];
    - [transforms.py] (the earlier engine) [Integration.integrate] and its
                                 scheduler.

    Python methods become functions on an inductive [Expr].  Calls that are
    not structurally recursive ([simplify], [__repr__], [diff]) go through a
    record of callbacks which is closed by recursion on a fuel counter. *)

From Stdlib Require Import Reals Qreals Lra.
From Stdlib Require Import ZArith QArith Qabs Qround String Ascii List Bool Lia.
From Stdlib Require Import DecimalString Decimal.
From Stdlib Require Import Permutation.
Import ListNotations.
Set Warnings "-notation-for-abbreviation,-register-all".
Open Scope string_scope.

(** ** Outcomes of a Python call *)

Inductive PyExc : Type :=
| NotImplementedError
| AttributeError
| AssertionError
| IndexError
| ZeroDivisionError
| KeyError
| ValueError.

(** [Leak q]: the call handed back a bare [fractions.Fraction] where an
    [Expr] was expected (four entries of [Cos._special_values]); what the
    callers do with such an object is outside this model.
    [OutOfFuel]: the recursion is deeper than the fuel given. *)
Inductive Res (A : Type) : Type :=
| Ok (a : A)
| Raise (x : PyExc)
| Leak (q : Q)
| OutOfFuel.

Arguments Ok {A} a.
Arguments Raise {A} x.
Arguments Leak {A} q.
Arguments OutOfFuel {A}.

Definition bind {A B : Type} (c : Res A) (k : A -> Res B) : Res B :=
  match c with
  | Ok a => k a
  | Raise x => Raise x
  | Leak q => Leak q
  | OutOfFuel => OutOfFuel
  end.

Notation "x <- c ;; k" := (bind c (fun x => k))
  (at level 61, c at next level, right associativity).
Notation "' p <- c ;; k" := (bind c (fun x => let p := x in k))
  (at level 61, p pattern, c at next level, right associativity).

Fixpoint mapM {A B : Type} (f : A -> Res B) (l : list A) : Res (list B) :=
  match l with
  | [] => Ok []
  | a :: r => b <- f a ;; bs <- mapM f r ;; Ok (b :: bs)
  end.

Fixpoint filterM {A : Type} (f : A -> Res bool) (l : list A) : Res (list A) :=
  match l with
  | [] => Ok []
  | a :: r => keep <- f a ;; rs <- filterM f r ;;
              Ok (if keep then a :: rs else rs)
  end.

(** ** Exact rationals ([fractions.Fraction]) *)

Definition Qeqb (a b : Q) : bool := Qeq_bool a b.
Definition Qltb (a b : Q) : bool := negb (Qle_bool b a).
Definition Qis_int (q : Q) : bool := Pos.eqb (Qden (Qred q)) 1.

Definition str_of_Z (z : Z) : string := NilZero.string_of_int (Z.to_int z).

(** [str(Fraction)]: [n] when the denominator is one, [n/d] otherwise. *)
Definition str_of_Q (q : Q) : string :=
  let r := Qred q in
  if Pos.eqb (Qden r) 1 then str_of_Z (Qnum r)
  else str_of_Z (Qnum r) ++ "/" ++ str_of_Z (Zpos (Qden r)).

(** [Fraction.__mod__]: floor modulus, the sign follows the divisor. *)
Definition Qmod (a b : Q) : Q :=
  Qred (((Qnum a * Zpos (Qden b)) mod (Qnum b * Zpos (Qden a)))
        # (Qden a * Qden b)).

Definition Qabs_red (q : Q) : Q := Qred (Qabs q).

(** ** Expressions *)

(** The nine subclasses of [TrigFunction]; [function] and [is_inverse] are
    determined by the class. *)
Inductive TrigClass : Type :=
| SinC | CosC | TanC | CscC | SecC | CotC | ArcSinC | ArcCosC | ArcTanC.

Inductive Expr : Type :=
| Const (value : Q)
| Pi
| E
| Symbol (name : string)
| Sum (terms : list Expr)
| Prod (terms : list Expr)
| Power (base exponent : Expr)
| Log (inner : Expr)
| Trig (cls : TrigClass) (inner : Expr).

Notation Sin := (Trig SinC).
Notation Cos := (Trig CosC).
Notation Tan := (Trig TanC).
Notation Csc := (Trig CscC).
Notation Sec := (Trig SecC).
Notation Cot := (Trig CotC).
Notation ArcSin := (Trig ArcSinC).
Notation ArcCos := (Trig ArcCosC).
Notation ArcTan := (Trig ArcTanC).

Definition TrigClass_eqb (a b : TrigClass) : bool :=
  match a, b with
  | SinC, SinC | CosC, CosC | TanC, TanC | CscC, CscC | SecC, SecC
  | CotC, CotC | ArcSinC, ArcSinC | ArcCosC, ArcCosC | ArcTanC, ArcTanC => true
  | _, _ => false
  end.

(** [TrigFunction.function] *)
Definition function (c : TrigClass) : string :=
  match c with
  | SinC | ArcSinC => "sin"
  | CosC | ArcCosC => "cos"
  | TanC | ArcTanC => "tan"
  | CscC => "csc"
  | SecC => "sec"
  | CotC => "cot"
  end.

Definition is_inverse (c : TrigClass) : bool :=
  match c with
  | ArcSinC | ArcCosC | ArcTanC => true
  | _ => false
  end.

(** [TrigFunction._label] *)
Definition _label (c : TrigClass) : string :=
  (if is_inverse c then "a" else "") ++ function c.

(** [reciprocal_chart], on the class of the function named. *)
Definition reciprocal_chart (c : TrigClass) : string :=
  match function c with
  | "sin" => "csc"
  | "cos" => "sec"
  | "tan" => "cot"
  | "csc" => "sin"
  | "sec" => "cos"
  | _ => "tan"
  end.

(** [reciprocal_class], set on [Csc], [Sec] and [Cot] only. *)
Definition reciprocal_class (c : TrigClass) : option TrigClass :=
  match c with
  | CscC => Some SinC
  | SecC => Some CosC
  | CotC => Some TanC
  | _ => None
  end.

(** *** Structural equality: Python's [==]

    [Const.__eq__] compares values, [Symbol.__eq__] names, [E.__eq__] the
    class; every other class has the equality [@dataclass] generates: same
    class and equal fields, [NotImplemented] otherwise, which Python turns
    into [False] for two distinct objects. *)
Fixpoint expr_eqb (a b : Expr) {struct a} : bool :=
  let fix list_eqb (l : list Expr) (m : list Expr) {struct l} : bool :=
    match l, m with
    | [], [] => true
    | x :: l', y :: m' => expr_eqb x y && list_eqb l' m'
    | _, _ => false
    end in
  match a, b with
  | Const v, Const w => Qeqb v w
  | Pi, Pi => true
  | E, E => true
  | Symbol n, Symbol m => String.eqb n m
  | Sum l, Sum m => list_eqb l m
  | Prod l, Prod m => list_eqb l m
  | Power b1 x1, Power b2 x2 => expr_eqb b1 b2 && expr_eqb x1 x2
  | Log i, Log j => expr_eqb i j
  | Trig c i, Trig d j => TrigClass_eqb c d && expr_eqb i j
  | _, _ => false
  end.

Fixpoint list_expr_eqb (l m : list Expr) : bool :=
  match l, m with
  | [], [] => true
  | x :: l', y :: m' => expr_eqb x y && list_expr_eqb l' m'
  | _, _ => false
  end.

Definition isConst (e : Expr) : bool :=
  match e with Const _ => true | _ => false end.
Definition isSum (e : Expr) : bool :=
  match e with Sum _ => true | _ => false end.
Definition isProd (e : Expr) : bool :=
  match e with Prod _ => true | _ => false end.
Definition isTrig (e : Expr) : bool :=
  match e with Trig _ _ => true | _ => false end.

(** [Expr.children] *)
Definition children (e : Expr) : list Expr :=
  match e with
  | Const _ | Pi | E | Symbol _ => []
  | Sum ts | Prod ts => ts
  | Power b x => [b; x]
  | Log i | Trig _ i => [i]
  end.

(** [Expr.contains]: [var] is the name of the symbol looked for. *)
Fixpoint contains (e : Expr) (var : string) {struct e} : bool :=
  let fix any (l : list Expr) : bool :=
    match l with
    | [] => false
    | x :: r => contains x var || any r
    end in
  match e with
  | Symbol n => String.eqb n var
  | Const _ | Pi | E => false
  | Sum ts | Prod ts => any ts
  | Power b x => contains b var || contains x var
  | Log i | Trig _ i => contains i var
  end.

(** [contains_cls(expr, TrigFunction)] *)
Fixpoint contains_trig (e : Expr) {struct e} : bool :=
  let fix any (l : list Expr) : bool :=
    match l with
    | [] => false
    | x :: r => contains_trig x || any r
    end in
  match e with
  | Trig _ _ => true
  | Const _ | Pi | E | Symbol _ => false
  | Sum ts | Prod ts => any ts
  | Power b x => contains_trig b || contains_trig x
  | Log i => contains_trig i
  end.

(** [symbols()] is used for membership and emptiness only; the order of
    the Python result (built from a [set]) is not fixed, here it is the
    order of first occurrence. *)
Fixpoint symbols (e : Expr) {struct e} : list string :=
  let fix go (l : list Expr) : list string :=
    match l with
    | [] => []
    | x :: r => (symbols x ++ go r)%list
    end in
  nodup string_dec
    match e with
    | Symbol n => [n]
    | Const _ | Pi | E => []
    | Sum ts | Prod ts => go ts
    | Power b x => (symbols b ++ symbols x)%list
    | Log i | Trig _ i => symbols i
    end.

(** [nesting(expr, var)]; [var = None] is the case used by the sort. *)
Fixpoint nesting (var : option string) (expr : Expr) {struct expr} : Res nat :=
  let fix maxi (l : list Expr) : Res nat :=
    match l with
    | [] => Ok 0%nat
    | x :: r => n <- nesting var x ;; m <- maxi r ;; Ok (Nat.max n m)
    end in
  let inside := match var with
                | Some v => contains expr v
                | None => true
                end in
  if negb inside then Ok 0%nat else
  match expr with
  | Prod [] => Raise IndexError
  | Prod [Const c; t] =>
      if Qeqb c (-1) then nesting var t
      else m <- nesting var t ;; Ok (S m)
  | Symbol n =>
      match var with
      | None => Ok 1%nat
      | Some v => if String.eqb n v then Ok 1%nat else Ok 0%nat
      end
  | Const _ | Pi | E => Ok 0%nat
  | Sum [] => Ok 0%nat
  | Sum ts | Prod ts => n <- maxi ts ;; Ok (S n)
  | Power b x => n <- nesting var b ;; m <- nesting var x ;; Ok (S (Nat.max n m))
  | Log i | Trig _ i => n <- nesting var i ;; Ok (S n)
  end.

(** ** Callbacks for the calls that are not structural *)

Record Calls : Type := {
  c_simplify : Expr -> Res Expr;          (* [e.simplify()] *)
  c_repr : Expr -> Res string;            (* [e.__repr__()] *)
  c_diff : Expr -> string -> Res Expr     (* [e.diff(var)] *)
}.

(** ** [Associative]: construction of sums and products *)

Definition _deconstruct_const_power (expr : Expr) : Q :=
  match expr with
  | Power _ (Const v) => v
  | _ => 1
  end.

Definition str_gt (a b : string) : bool :=
  match String.compare a b with Gt => true | _ => false end.

(** [_compare(a, b) < 0], the test [sorted] makes through [cmp_to_key]:
    nesting first, then the constant exponent, then the text. *)
Definition _compare_lt (C : Calls) (a b : Expr) : Res bool :=
  na <- nesting None a ;;
  nb <- nesting None b ;;
  if negb (Nat.eqb na nb) then Ok (Nat.ltb na nb) else
  let pa := _deconstruct_const_power a in
  let pb := _deconstruct_const_power b in
  if negb (Qeqb pa pb) then Ok (Qltb pa pb) else
  ra <- c_repr C a ;;
  rb <- c_repr C b ;;
  Ok (negb (str_gt ra rb)).

(** [sorted(terms, key)], as an insertion sort from the left.  [_compare]
    orders by a triple of keys, so every comparison sort returns the same
    list unless two terms agree on all three keys. *)
Fixpoint insert_sorted (lt : Expr -> Expr -> Res bool) (x : Expr)
    (l : list Expr) : Res (list Expr) :=
  match l with
  | [] => Ok [x]
  | y :: r =>
      b <- lt x y ;;
      if b then Ok (x :: y :: r)
      else r' <- insert_sorted lt x r ;; Ok (y :: r')
  end.

Fixpoint sorted_from (lt : Expr -> Expr -> Res bool) (acc : list Expr)
    (l : list Expr) : Res (list Expr) :=
  match l with
  | [] => Ok acc
  | x :: r => acc' <- insert_sorted lt x acc ;; sorted_from lt acc' r
  end.

Definition _sort (C : Calls) (terms : list Expr) : Res (list Expr) :=
  sorted_from (_compare_lt C) [] terms.

(** [t._flatten().terms if isinstance(t, cls) else [t]].  [t._flatten()]
    builds a new object of the class, whose [__post_init__] sorts the
    flattened terms (its own flattening pass finds nothing nested). *)
Fixpoint _flatten_terms (C : Calls) (sum : bool) (t : Expr) {struct t}
    : Res (list Expr) :=
  let fix go (l : list Expr) : Res (list Expr) :=
    match l with
    | [] => Ok []
    | x :: r => xs <- _flatten_terms C sum x ;; rs <- go r ;; Ok (xs ++ rs)%list
    end in
  match t, sum with
  | Sum ts, true => new_terms <- go ts ;; _sort C new_terms
  | Prod ts, false => new_terms <- go ts ;; _sort C new_terms
  | _, _ => Ok [t]
  end.

Fixpoint _flatten_inplace (C : Calls) (sum : bool) (terms : list Expr)
    : Res (list Expr) :=
  match terms with
  | [] => Ok []
  | t :: r =>
      xs <- _flatten_terms C sum t ;;
      rs <- _flatten_inplace C sum r ;;
      Ok (xs ++ rs)%list
  end.

(** [Sum(terms)] and [Prod(terms)]: [Associative.__post_init__]. *)
Definition mkSum (C : Calls) (terms : list Expr) : Res Expr :=
  flat <- _flatten_inplace C true terms ;;
  srt <- _sort C flat ;;
  Ok (Sum srt).

Definition mkProd (C : Calls) (terms : list Expr) : Res Expr :=
  flat <- _flatten_inplace C false terms ;;
  srt <- _sort C flat ;;
  Ok (Prod srt).

(** *** The arithmetic operators of [Expr] *)

Definition add (C : Calls) (a b : Expr) : Res Expr := mkSum C [a; b].
Definition mul (C : Calls) (a b : Expr) : Res Expr := mkProd C [a; b].
Definition pow (a b : Expr) : Expr := Power a b.
Definition div (C : Calls) (a b : Expr) : Res Expr :=
  mkProd C [a; Power b (Const (-1))].
Definition neg (C : Calls) (a : Expr) : Res Expr := mkProd C [Const (-1); a].
Definition sub (C : Calls) (a b : Expr) : Res Expr :=
  nb <- mkProd C [Const (-1); b] ;; mkSum C [a; nb].
Definition sqrt (x : Expr) : Expr := Power x (Const (1 # 2)).

(** ** [__repr__] *)

Definition Const_repr (v : Q) : string :=
  if Qis_int v then str_of_Q v else "(" ++ str_of_Q v ++ ")".

Fixpoint last_ascii (s : string) (d : ascii) : ascii :=
  match s with
  | EmptyString => d
  | String c r => last_ascii r c
  end.

(** [_repr(inner, label)] *)
Definition _repr (C : Calls) (inner : Expr) (label : string) : Res string :=
  inner_repr <- c_repr C inner ;;
  match inner_repr with
  | EmptyString => Raise IndexError
  | String c r =>
      if Ascii.eqb c "(" && Ascii.eqb (last_ascii r c) ")"
      then Ok (label ++ inner_repr)
      else Ok (label ++ "(" ++ inner_repr ++ ")")
  end.

(** [Prod.is_subtraction] *)
Definition is_subtraction (terms : list Expr) : Res bool :=
  match terms with
  | [] => Raise IndexError
  | Const v :: _ => Ok (Qltb v 0)
  | _ :: _ => Ok false
  end.

Definition deconstruct_power (expr : Expr) : Expr * Expr :=
  match expr with
  | Power b x => (b, x)
  | _ => (expr, Const 1)
  end.

(** [Prod.numerator_denominator] *)
Fixpoint numerator_denominator_loop (C : Calls) (terms numerator denominator
    : list Expr) : Res (list Expr * list Expr) :=
  match terms with
  | [] => Ok (numerator, denominator)
  | Const v :: r =>
      let v := Qred v in
      let numerator :=
        if negb (Z.eqb (Qnum v) 1) then (numerator ++ [Const (Qnum v # 1)])%list
        else numerator in
      let denominator :=
        if negb (Pos.eqb (Qden v) 1)
        then (denominator ++ [Const (Zpos (Qden v) # 1)])%list else denominator in
      numerator_denominator_loop C r numerator denominator
  | term :: r =>
      let '(b, x) := deconstruct_power term in
      match x with
      | Const xv =>
          if Qltb xv 0 then
            d <- (if Qeqb xv (-1) then Ok b
                  else nx <- neg C x ;; sx <- c_simplify C nx ;;
                       Ok (Power b sx)) ;;
            numerator_denominator_loop C r numerator (denominator ++ [d])%list
          else numerator_denominator_loop C r (numerator ++ [term])%list denominator
      | _ => numerator_denominator_loop C r (numerator ++ [term])%list denominator
      end
  end.

Definition numerator_denominator (C : Calls) (terms : list Expr)
    : Res (Expr * Expr) :=
  '(numerator, denominator) <- numerator_denominator_loop C terms [] [] ;;
  num_expr <- match numerator with
              | [] => Ok (Const 1)
              | [n] => Ok n
              | _ => mkProd C numerator
              end ;;
  denom_expr <- match denominator with
                | [] => Ok (Const 1)
                | [d] => Ok d
                | _ => mkProd C denominator
                end ;;
  Ok (num_expr, denom_expr).

Fixpoint join (sep : string) (l : list string) : string :=
  match l with
  | [] => ""
  | [s] => s
  | s :: r => s ++ sep ++ join sep r
  end.

(** [Prod.__repr__] *)
Definition Prod_repr (C : Calls) (terms : list Expr) : Res string :=
  let _term_repr (term : Expr) : Res string :=
    s <- c_repr C term ;;
    Ok (if isSum term then "(" ++ s ++ ")" else s) in
  subtraction <- is_subtraction terms ;;
  if subtraction then
    p <- mul C (Prod terms) (Const (-1)) ;;
    new_prod <- c_simplify C p ;;
    if negb (isProd new_prod)
    then s <- _term_repr new_prod ;; Ok ("-" ++ s)
    else s <- c_repr C new_prod ;; Ok ("-" ++ s)
  else
    '(numerator, denominator) <- numerator_denominator C terms ;;
    if negb (expr_eqb denominator (Const 1)) then
      let _x (prod : Expr) : Res string :=
        match prod with
        | Prod [t] => _term_repr t
        | Prod _ => s <- c_repr C prod ;; Ok ("(" ++ s ++ ")")
        | _ => _term_repr prod
        end in
      n <- _x numerator ;;
      d <- _x denominator ;;
      Ok (n ++ "/" ++ d)
    else
      ss <- mapM _term_repr terms ;;
      Ok (join "*" ss).

(** [Sum.__repr__] *)
Fixpoint Sum_repr_loop (C : Calls) (first : bool) (terms : list Expr)
    : Res string :=
  match terms with
  | [] => Ok ""
  | term :: r =>
      piece <-
        (if first then c_repr C term
         else
           subtraction <- match term with
                          | Prod ts => is_subtraction ts
                          | _ => Ok false
                          end ;;
           if subtraction then
             p <- mul C term (Const (-1)) ;;
             q <- c_simplify C p ;;
             s <- c_repr C q ;;
             Ok (" - " ++ s)
           else s <- c_repr C term ;; Ok (" + " ++ s)) ;;
      rest <- Sum_repr_loop C false r ;;
      Ok (piece ++ rest)
  end.

Definition Sum_repr (C : Calls) (terms : list Expr) : Res string :=
  Sum_repr_loop C true terms.

(** [Power.__repr__] *)
Definition Power_repr (C : Calls) (base exponent : Expr) : Res string :=
  let _term_repr (term : Expr) : Res string :=
    s <- c_repr C term ;;
    Ok (if isSum term || isProd term then "(" ++ s ++ ")" else s) in
  if expr_eqb exponent (Const (-1)) then
    s <- _term_repr base ;; Ok ("1/" ++ s)
  else if expr_eqb exponent (Const (1 # 2)) then _repr C base "sqrt"
  else if expr_eqb exponent (Const (-1 # 2)) then
    s <- _repr C base "sqrt" ;; Ok ("1/" ++ s)
  else
    b <- _term_repr base ;;
    x <- _term_repr exponent ;;
    Ok (b ++ "^" ++ x).

(** [__repr__], by class. *)
Definition repr_body (C : Calls) (e : Expr) : Res string :=
  match e with
  | Const v => Ok (Const_repr v)
  | Pi => Ok "pi"
  | E => Ok "e"
  | Symbol name => Ok name
  | Sum terms => Sum_repr C terms
  | Prod terms => Prod_repr C terms
  | Power base exponent => Power_repr C base exponent
  | Log inner => _repr C inner "ln"
  | Trig cls inner => _repr C inner (_label cls)
  end.

(** ** The two shapes of regular expression [Sum.simplify] uses *)

(** [sub in s] *)
Definition str_in (sub s : string) : bool :=
  match index 0 sub s with Some _ => true | None => false end.

Fixpoint strip_prefix (p s : string) : option string :=
  match p, s with
  | EmptyString, _ => Some s
  | String a p', String b s' =>
      if Ascii.eqb a b then strip_prefix p' s' else None
  | String _ _, EmptyString => None
  end.

Definition strip_suffix (p s : string) : option string :=
  let n := String.length s in
  let m := String.length p in
  if (m <=? n)%nat && String.eqb (substring (n - m) m s) p
  then Some (substring 0 (n - m) s) else None.

(** [\w], on ASCII text: letters, digits and the underscore. *)
Definition is_word (c : ascii) : bool :=
  let n := nat_of_ascii c in
  ((48 <=? n) && (n <=? 57) || (65 <=? n) && (n <=? 90)
   || (97 <=? n) && (n <=? 122) || (n =? 95))%nat.

Fixpoint take_word (s : string) : string * string :=
  match s with
  | EmptyString => ("", "")
  | String c r =>
      if is_word c then let '(w, rest) := take_word r in (String c w, rest)
      else ("", s)
  end.

(** [re.search(pre (\w+) post, s).group(1)] for literal [pre] and [post],
    [post] starting with a character that is not a word character: the
    leftmost place where [pre] is followed by a run of word characters and
    then [post]. *)
Fixpoint search_word (pre post s : string) : option string :=
  let here :=
    match strip_prefix pre s with
    | Some r =>
        let '(w, rest) := take_word r in
        match w, strip_prefix post rest with
        | String _ _, Some _ => Some w
        | _, _ => None
        end
    | None => None
    end in
  match here, s with
  | Some w, _ => Some w
  | None, EmptyString => None
  | None, String _ r => search_word pre post r
  end.

Definition newline : string := String (ascii_of_nat 10) "".

(** [re.search(^ pre (.+) post $, s).group(1)] for literal [pre] and
    [post]: [.] is any character but a newline, [$] is the end of the text
    or the place before a newline that ends it. *)
Definition match_anchored (pre post s : string) : option string :=
  match strip_prefix pre s with
  | None => None
  | Some r =>
      let ok (g : string) :=
        negb (String.eqb g "") && negb (str_in newline g) in
      match strip_suffix post r with
      | Some g => if ok g then Some g else None
      | None =>
          match strip_suffix (post ++ newline) r with
          | Some g => if ok g then Some g else None
          | None => None
          end
      end
  end.

Fixpoint str_mem (s : string) (l : list string) : bool :=
  match l with
  | [] => false
  | x :: r => String.eqb s x || str_mem s r
  end.

(** ** [simplify] *)

Section Simplify.

(** [float_pow b x]: Python computes [b ** x] for a fraction [x] that is
    not an integer in floating point.  [Some v] when [Const(...)] accepts
    the result (a float equal to its integer part), with [v] the value of
    that float; [None] when the construction raises, which
    [Power.simplify] catches. *)
Variable float_pow : Q -> Q -> option Q.

(** [Const(b ** x)] under [try]: [None] stands for any exception. *)
Definition pow_value (b x : Q) : option Q :=
  let x := Qred x in
  if Pos.eqb (Qden x) 1 then
    if (0 <=? Qnum x)%Z then Some (Qred (Qpower b (Qnum x)))
    else if Qeqb b 0 then None
    else Some (Qred (Qpower b (Qnum x)))
  else float_pow b x.

Variable C : Calls.

Let simplify := c_simplify C.

(** [Power.simplify] *)
Definition Power_simplify (base exponent : Expr) : Res Expr :=
  x <- simplify exponent ;;
  b <- simplify base ;;
  if expr_eqb x (Const 0) && negb (expr_eqb b (Const 0)) then Ok (Const 1)
  else if expr_eqb x (Const 1) then Ok b
  else
    match b, x with
    | Const bv, Const xv =>
        match pow_value bv xv with
        | Some v => Ok (Const v)
        | None =>
            if Qis_int bv then Ok (Power b x)
            else
              let bn := Const (Qnum (Qred bv) # 1) in
              let bd := Const (Zpos (Qden (Qred bv)) # 1) in
              let num := pow_value (Qnum (Qred bv) # 1) xv in
              let denom := pow_value (Zpos (Qden (Qred bv)) # 1) xv in
              match num, denom with
              | None, None => Ok (Power b x)
              | _, _ =>
                  div C
                    (match num with Some n => Const n | None => Power bn x end)
                    (match denom with Some d => Const d | None => Power bd x end)
              end
        end
    | Power bb be, _ =>
        xe <- mul C x be ;; simplify (Power bb xe)
    | Prod terms, _ =>
        ts <- mapM (fun term => simplify (Power term x)) terms ;;
        mkProd C ts
    | _, Log inner =>
        if expr_eqb b E then simplify inner else Ok (Power b x)
    | _, Prod xterms =>
        let fix find (before after : list Expr) : Res Expr :=
          match after with
          | [] => Ok (Power b x)
          | Log i :: r =>
              if expr_eqb E b then
                rest <- mkProd C (before ++ r)%list ;;
                bt <- simplify (Power b (Log i)) ;;
                simplify (Power bt rest)
              else find (before ++ [Log i])%list r
          | t :: r => find (before ++ [t])%list r
          end in
        find [] xterms
    | _, _ => Ok (Power b x)
    end.

(** [_deconstruct_prod] *)
Definition _deconstruct_prod (expr : Expr) : Res (Expr * list Expr) :=
  match expr with
  | Prod terms =>
      let non_const_factors := filter (fun t => negb (isConst t)) terms in
      let const_factors := filter isConst terms in
      coeff <- match const_factors with
               | [] => Ok (Const 1)
               | _ => p <- mkProd C const_factors ;; simplify p
               end ;;
      Ok (coeff, non_const_factors)
  | _ => Ok (Const 1, [expr])
  end.

(** [Prod.simplify]: the inner loop over the later terms, which marks the
    merged ones [None]. *)
Fixpoint Prod_merge (base expo : Expr) (later : list (option Expr))
    : Res (Expr * list (option Expr)) :=
  match later with
  | [] => Ok (expo, [])
  | None :: r =>
      '(expo', r') <- Prod_merge base expo r ;; Ok (expo', None :: r')
  | Some other :: r =>
      let '(base2, expo2) := deconstruct_power other in
      if expr_eqb base2 base then
        expo1 <- add C expo expo2 ;;
        '(expo', r') <- Prod_merge base expo1 r ;; Ok (expo', None :: r')
      else
        '(expo', r') <- Prod_merge base expo r ;; Ok (expo', Some other :: r')
  end.

(** The outer loop; [n] bounds the number of terms still to visit. *)
Fixpoint Prod_accumulate (n : nat) (simplified_terms : list (option Expr))
    : Res (list Expr) :=
  match n, simplified_terms with
  | S n', None :: r => Prod_accumulate n' r
  | S n', Some term :: r =>
      let '(base, expo) := deconstruct_power term in
      '(expo', r') <- Prod_merge base expo r ;;
      t <- simplify (Power base expo') ;;
      ts <- Prod_accumulate n' r' ;;
      Ok (t :: ts)
  | _, _ => Ok []
  end.

Definition const_values (l : list Expr) : list Q :=
  flat_map (fun t => match t with Const v => [v] | _ => [] end) l.

Definition Prod_simplify (terms0 : list Expr) : Res Expr :=
  ts <- mapM simplify terms0 ;;
  simplified_and_flattened <- mkProd C ts ;;
  let simplified_terms := children simplified_and_flattened in
  terms <- Prod_accumulate (length simplified_terms)
             (map Some simplified_terms) ;;
  if existsb (fun t => expr_eqb t (Const 0)) terms then Ok (Const 0)
  else
    let const := Qred (fold_left Qmult (const_values terms) 1) in
    let non_constant_terms := filter (fun t => negb (isConst t)) terms in
    match non_constant_terms with
    | [] => Ok (Const const)
    | _ =>
        let terms := ((if Qeqb const 1 then [] else [Const const])
                      ++ non_constant_terms)%list in
        match terms with
        | [t] => Ok t
        | _ => mkProd C terms
        end
    end.

(** [Sum.simplify]: merging of like terms. *)
Fixpoint Sum_merge (non_const_factors1 : list Expr) (new_coeff : Expr)
    (later : list (option Expr)) : Res (Expr * list (option Expr)) :=
  match later with
  | [] => Ok (new_coeff, [])
  | None :: r =>
      '(c, r') <- Sum_merge non_const_factors1 new_coeff r ;;
      Ok (c, None :: r')
  | Some term2 :: r =>
      '(coeff2, non_const_factors2) <- _deconstruct_prod term2 ;;
      if list_expr_eqb non_const_factors1 non_const_factors2 then
        new_coeff' <- add C new_coeff coeff2 ;;
        '(c, r') <- Sum_merge non_const_factors1 new_coeff' r ;;
        Ok (c, None :: r')
      else
        '(c, r') <- Sum_merge non_const_factors1 new_coeff r ;;
        Ok (c, Some term2 :: r')
  end.

Fixpoint Sum_accumulate (n : nat) (terms : list (option Expr))
    : Res (list Expr) :=
  match n, terms with
  | S n', None :: r => Sum_accumulate n' r
  | S n', Some term :: r =>
      if isConst term then
        ts <- Sum_accumulate n' r ;; Ok (term :: ts)
      else
        '(coeff, non_const_factors1) <- _deconstruct_prod term ;;
        '(new_coeff, r') <- Sum_merge non_const_factors1 coeff r ;;
        p <- mkProd C (new_coeff :: non_const_factors1) ;;
        t <- simplify p ;;
        ts <- Sum_accumulate n' r' ;;
        Ok (t :: ts)
  | _, _ => Ok []
  end.

(** [pythagorean_trig_identities], in the order of the dictionary: the
    text before and after the group, and the replacement. *)
Definition pythagorean_trig_identities
    : list (string * string * (Expr -> Res Expr)) :=
  [ ("1 + tan(", ")^2", fun x => Ok (Power (Sec x) (Const 2)));
    ("1 + cot(", ")^2", fun x => Ok (Power (Csc x) (Const 2)));
    ("1 - sin(", ")^2", fun x => Ok (Power (Cos x) (Const 2)));
    ("1 - cos(", ")^2", fun x => Ok (Power (Sin x) (Const 2)));
    ("1 - tan(", ")^2", fun x => div C (Const 1) (Power (Tan x) (Const 2)));
    ("1 - cot(", ")^2", fun x => div C (Const 1) (Power (Cot x) (Const 2))) ].

(** [other_table]: the two anchored patterns of a row and its value. *)
Definition other_table : list (string * string * Expr) :=
  [ ("sin(", "cos(", Const 1);
    ("sec(", "-tan(", Const 1) ].

Fixpoint first_common (r1 r2 : list string) : option string :=
  match r1 with
  | [] => None
  | m :: r => if str_mem m r2 then Some m else first_common r r2
  end.

(** The loop over [pythagorean_trig_identities] for a sum of two terms:
    the replacement of the first pattern found in the text of the sum. *)
Fixpoint first_identity (text : string)
    (l : list (string * string * (Expr -> Res Expr))) : option (Res Expr) :=
  match l with
  | [] => None
  | (pre, post, replacement_callable) :: rest =>
      match search_word pre post text with
      | Some result => Some (replacement_callable (Symbol result))
      | None => first_identity text rest
      end
  end.

(** The groups of the texts that match [^ pre (.+) \)\^2 $]. *)
Definition anchored_groups (pre : string) (reprs : list string)
    : list string :=
  flat_map (fun t => match match_anchored pre ")^2" t with
                     | Some g => [g]
                     | None => []
                     end) reprs.

(** The loop over [other_table]: the value of the first row with a common
    group, and that group. *)
Fixpoint first_other (reprs : list string)
    (l : list (string * string * Expr)) : option (Expr * string) :=
  match l with
  | [] => None
  | (pattern1, pattern2, value) :: rest =>
      match first_common (anchored_groups pattern1 reprs)
              (anchored_groups pattern2 reprs) with
      | Some m => Some (value, m)
      | None => first_other reprs rest
      end
  end.

(** [[t for t in new_sum.terms if t.__repr__() != f"sin({m})^2" and
    t.__repr__() != f"cos({m})^2"]] *)
Definition without_sin_cos (m : string) (terms : list Expr)
    (reprs : list string) : list Expr :=
  flat_map (fun tr : Expr * string =>
              if negb (String.eqb (snd tr) ("sin(" ++ m ++ ")^2"))
                 && negb (String.eqb (snd tr) ("cos(" ++ m ++ ")^2"))
              then [fst tr] else []) (combine terms reprs).

(** The part of [Sum.simplify] under [contains_cls(new_sum, TrigFunction)].
    A row of the first table applies only to a sum of two terms. *)
Definition Sum_pythagorean (new_sum : Expr) (terms : list Expr)
    : Res Expr :=
  text <- c_repr C new_sum ;;
  match (if (length terms =? 2)%nat
         then first_identity text pythagorean_trig_identities
         else None) with
  | Some replacement => r <- replacement ;; simplify r
  | None =>
      reprs <- mapM (c_repr C) terms ;;
      match first_other reprs other_table with
      | Some (value, m) =>
          s <- mkSum C (value :: without_sin_cos m terms reprs) ;;
          simplify s
      | None => Ok new_sum
      end
  end.

Definition Sum_simplify (terms0 : list Expr) : Res Expr :=
  terms <- mapM simplify terms0 ;;
  new_terms <- Sum_accumulate (length terms) (map Some terms) ;;
  let const := Qred (fold_left Qplus (const_values new_terms) 0) in
  let non_constant_terms := filter (fun t => negb (isConst t)) new_terms in
  if Qeqb const 0 && (length non_constant_terms =? 0)%nat then Ok (Const 0)
  else
    let final_terms := ((if negb (Qeqb const 0) then [Const const] else [])
                        ++ non_constant_terms)%list in
    match final_terms with
    | [t] => Ok t
    | _ =>
        new_sum <- mkSum C final_terms ;;
        if contains_trig new_sum
        then Sum_pythagorean new_sum (children new_sum)
        else Ok new_sum
    end.

(** [Sum.factor]: a factor of a term is (base, |exponent|, exponent > 0).
    In [_df] the loop [firsts] runs over the factors of a product that are
    not [Const], the list [_deconstruct_prod] returns. *)
Definition Factor : Type := (Expr * Q * bool)%type.

Fixpoint _df (term : Expr) {struct term} : Res (Expr * list Factor) :=
  let fix firsts (l : list Expr) : Res (list Factor) :=
    match l with
    | [] => Ok []
    | f :: r =>
        if isConst f then firsts r
        else
          '(_, fs) <- _df f ;;
          match fs with
          | [] => Raise IndexError
          | f0 :: _ => rs <- firsts r ;; Ok (f0 :: rs)
          end
    end in
  match term with
  | Prod ts =>
      '(num, _) <- _deconstruct_prod term ;;
      fs <- firsts ts ;;
      Ok (num, fs)
  | Power b (Const x) => Ok (Const 1, [(b, Qabs_red x, Qltb 0 x)])
  | Const _ => Ok (term, [(term, 1, true)])
  | _ => Ok (Const 1, [(term, 1, true)])
  end.

(** One common factor against the factors of one further term. *)
Fixpoint factor_search (cfactor : Factor) (this_terms_factors : list Factor)
    : Res (option Factor) :=
  match this_terms_factors with
  | [] => Ok None
  | tfactor :: r =>
      let '(cb, ce, cs) := cfactor in
      let '(tb, te, ts) := tfactor in
      rc <- c_repr C cb ;;
      rt <- c_repr C tb ;;
      if String.eqb rc rt && Bool.eqb cs ts
      then Ok (Some (cb, if Qltb te ce then te else ce, cs))
      else factor_search cfactor r
  end.

Definition factor_common (common_factors : list (option Factor))
    (this_terms_factors : list Factor) : Res (list (option Factor)) :=
  mapM (fun c => match c with
                 | None => Ok None
                 | Some cfactor => factor_search cfactor this_terms_factors
                 end) common_factors.

Fixpoint factor_common_all (common_factors : list (option Factor))
    (factors_per_term : list (list Factor)) : Res (list (option Factor)) :=
  match factors_per_term with
  | [] => Ok common_factors
  | fs :: r =>
      common_factors' <- factor_common common_factors fs ;;
      factor_common_all common_factors' r
  end.

Definition const_value (e : Expr) : Res Q :=
  match e with
  | Const v => Ok v
  | _ => Raise AttributeError
  end.

(** The loop over [coeffs[1:]]; [None] after the [break]. *)
Fixpoint factor_coeffs (common_coeff : Q) (coeffs : list Expr)
    : Res (option Q) :=
  match coeffs with
  | [] => Ok (Some common_coeff)
  | c :: r =>
      cx <- div C c (Const common_coeff) ;;
      x <- simplify cx ;;
      cy <- div C (Const common_coeff) c ;;
      y <- simplify cy ;;
      xv <- const_value x ;;
      yv <- const_value y ;;
      cv <- const_value c ;;
      if Qis_int xv || Qis_int yv then
        let a := Qabs_red cv in
        let b := Qabs_red common_coeff in
        factor_coeffs (if Qltb b a then b else a) r
      else Ok None
  end.

Definition _makeprod (terms : list Factor) : Res Expr :=
  match terms with
  | [] => Ok (Const 1)
  | _ =>
      ps <- mapM (fun t : Factor =>
                    let '(b, x, s) := t in
                    xe <- mul C (Const x) (Const (if s then 1 else -1)) ;;
                    Ok (Power b xe)) terms ;;
      mkProd C ps
  end.

Definition Sum_factor (terms : list Expr) : Res Expr :=
  dfs <- mapM _df terms ;;
  let factors_per_term := map snd dfs in
  let coeffs := map fst dfs in
  match factors_per_term, coeffs with
  | common_factors :: later, c0 :: cs =>
      common_factors <- factor_common_all (map Some common_factors) later ;;
      c0v <- const_value c0 ;;
      common_coeff <- factor_coeffs (Qabs_red c0v) cs ;;
      vs <- mapM const_value coeffs ;;
      let is_negative := forallb (fun v => Qltb v 0) vs in
      common_coeff <-
        match common_coeff with
        | Some q =>
            if is_negative
            then p <- mul C (Const q) (Const (-1)) ;; Ok (Some p)
            else Ok (Some (Const q))
        | None => Ok None
        end ;;
      let common_factors :=
        flat_map (fun f => match f with Some f => [f] | None => [] end)
          common_factors in
      common_expr <- _makeprod common_factors ;;
      common_expr <- match common_coeff with
                     | Some cc => mul C common_expr cc
                     | None => Ok common_expr
                     end ;;
      new_terms <- mapM (fun term => div C term common_expr) terms ;;
      s <- mkSum C new_terms ;;
      p <- mul C common_expr s ;;
      simplify p
  | _, _ => Raise IndexError
  end.

(** [Log.simplify]; the base of a [Log] is always [e]. *)
Definition Log_simplify (inner0 : Expr) : Res Expr :=
  inner <- simplify inner0 ;;
  if expr_eqb inner (Const 1) then Ok (Const 0)
  else if expr_eqb inner E then Ok (Const 1)
  else
    match inner with
    | Power b x => p <- mul C (Log b) x ;; simplify p
    | Prod terms => s <- mkSum C (map Log terms) ;; simplify s
    | Sum terms =>
        f <- Sum_factor terms ;;
        match f with
        | Prod fterms =>
            f' <- Sum_factor terms ;;
            s <- mkSum C (map Log (children f')) ;; simplify s
        | _ => Ok (Log inner)
        end
    | Trig cls i =>
        match reciprocal_class cls with
        | Some rc =>
            l <- simplify (Log (Trig rc i)) ;; mul C (Const (-1)) l
        | None => Ok (Log inner)
        end
    | _ => Ok (Log inner)
    end.

(** [double_trigfunction_simplification_dict] *)
Definition double_trigfunction_simplification_dict (key : string) (x : Expr)
    : Res Expr :=
  let x2 := Power x (Const 2) in
  match key with
  | "sin acos" => a <- sub C (Const 1) x2 ;; Ok (sqrt a)
  | "sin atan" => a <- add C (Const 1) x2 ;; div C x (sqrt a)
  | "cos asin" => a <- sub C (Const 1) x2 ;; Ok (sqrt a)
  | "cos atan" => a <- add C (Const 1) x2 ;; div C (Const 1) (sqrt a)
  | "tan asin" => a <- sub C (Const 1) x2 ;; div C x (sqrt a)
  | "tan acos" => a <- sub C (Const 1) x2 ;; div C (sqrt a) x
  | "sin asec" => a <- sub C x2 (Const 1) ;; div C (sqrt a) x
  | "tan asec" => a <- sub C x2 (Const 1) ;; Ok (sqrt a)
  | "cos acsc" =>
      i <- div C (Const 1) x2 ;; a <- sub C (Const 1) i ;; Ok (sqrt a)
  | "tan acsc" => a <- sub C x2 (Const 1) ;; div C (Const 1) (sqrt a)
  | "sin acot" => a <- add C (Const 1) x2 ;; div C (Const 1) (sqrt a)
  | "cos acot" => a <- add C (Const 1) x2 ;; div C x (sqrt a)
  | _ => Raise KeyError
  end.

(** [TrigFunction.simplify] *)
Definition TrigFunction_simplify (cls : TrigClass) (inner0 : Expr)
    : Res Expr :=
  inner <- simplify inner0 ;;
  match inner with
  | Trig icls iinner =>
      if negb (Bool.eqb (is_inverse icls) (is_inverse cls)) then
        if String.eqb (function icls) (function cls) then Ok iinner
        else if negb (is_inverse cls) then
          if String.eqb (function icls) (reciprocal_chart cls) then
            p <- div C (Const 1) iinner ;; simplify p
          else if str_mem (function cls) ["sin"; "cos"; "tan"] then
            r <- double_trigfunction_simplification_dict
                   (function cls ++ " " ++ _label icls) iinner ;;
            simplify r
          else
            r <- double_trigfunction_simplification_dict
                   (reciprocal_chart cls ++ " " ++ _label icls) iinner ;;
            p <- div C (Const 1) r ;;
            simplify p
        else Ok (Trig cls inner)
      else Ok (Trig cls inner)
  | _ => Ok (Trig cls inner)
  end.

Definition _SPECIAL_KEYS : list string :=
  ["0"; "1/4"; "1/3"; "1/2"; "2/3"; "3/4"; "1"; "5/4"; "4/3"; "3/2"; "5/3";
   "7/4"].

(** [Sin._special_values], the expressions as the class body builds them. *)
Definition Sin_special_values (key : string) : Res Expr :=
  let one_over_sqrt2 := div C (Const 1) (sqrt (Const 2)) in
  let sqrt3_over_2 := div C (sqrt (Const 3)) (Const 2) in
  let minus_one_over_sqrt2 := div C (Const (-1)) (sqrt (Const 2)) in
  let minus_sqrt3_over_2 :=
    n <- neg C (sqrt (Const 3)) ;; div C n (Const 2) in
  match key with
  | "0" => Ok (Const 0)
  | "1/4" => one_over_sqrt2
  | "1/3" => sqrt3_over_2
  | "1/2" => Ok (Const 1)
  | "2/3" => one_over_sqrt2
  | "3/4" => sqrt3_over_2
  | "1" => Ok (Const 0)
  | "5/4" => minus_one_over_sqrt2
  | "4/3" => minus_sqrt3_over_2
  | "3/2" => neg C (Const 1)
  | "5/3" => minus_one_over_sqrt2
  | "7/4" => minus_sqrt3_over_2
  | _ => Raise KeyError
  end.

(** [Cos._special_values]; four entries are bare [Fraction]s. *)
Definition Cos_special_values (key : string) : Res Expr :=
  let one_over_sqrt2 := div C (Const 1) (sqrt (Const 2)) in
  let minus_one_over_sqrt2 := div C (Const (-1)) (sqrt (Const 2)) in
  match key with
  | "0" => Ok (Const 1)
  | "1/4" => one_over_sqrt2
  | "1/3" => Leak (1 # 2)
  | "1/2" => Ok (Const 0)
  | "2/3" => Leak (-1 # 2)
  | "3/4" => minus_one_over_sqrt2
  | "1" => Ok (Const (-1))
  | "5/4" => minus_one_over_sqrt2
  | "4/3" => Leak (-1 # 2)
  | "3/2" => neg C (Const 0)
  | "5/3" => Leak (1 # 2)
  | "7/4" => one_over_sqrt2
  | _ => Raise KeyError
  end.

(** [(inner / pi).simplify()], then [% 2] when it is a [Const]. *)
Definition pi_coeff_key (inner : Expr) : Res (option string) :=
  q <- div C inner Pi ;;
  pi_coeff <- simplify q ;;
  match pi_coeff with
  | Const v =>
      let key := str_of_Q (Qmod v 2) in
      Ok (if str_mem key _SPECIAL_KEYS then Some key else None)
  | _ => Ok None
  end.

(** [Sin.simplify] *)
Definition Sin_simplify (inner0 : Expr) : Res Expr :=
  new <- TrigFunction_simplify SinC inner0 ;;
  match new with
  | Sin inner =>
      if expr_eqb inner (Const 0) then Ok (Const 0)
      else
        key <- pi_coeff_key inner ;;
        match key with
        | Some k => Sin_special_values k
        | None => Ok new
        end
  | _ => Ok new
  end.

(** [Cos.simplify] *)
Definition Cos_simplify (inner0 : Expr) : Res Expr :=
  new <- TrigFunction_simplify CosC inner0 ;;
  match new with
  | Cos inner =>
      subtraction <- match inner with
                     | Prod ts => is_subtraction ts
                     | _ => Ok false
                     end ;;
      if subtraction then
        p <- mul C inner (Const (-1)) ;; q <- simplify p ;; Ok (Cos q)
      else if negb (length (symbols inner) =? 0)%nat then Ok new
      else if expr_eqb inner (Const 0) then Ok (Const 1)
      else
        text <- c_repr C inner ;;
        if str_in "pi" text then
          key <- pi_coeff_key inner ;;
          match key with
          | Some k => Cos_special_values k
          | None => Ok new
          end
        else Ok new
  | _ => Ok new
  end.

(** [Tan.simplify] *)
Definition Tan_simplify (inner0 : Expr) : Res Expr :=
  new <- TrigFunction_simplify TanC inner0 ;;
  match new with
  | Tan inner =>
      if expr_eqb inner (Const 0) then Ok (Const 0)
      else
        text <- c_repr C inner ;;
        if str_in "pi" text then
          key <- pi_coeff_key inner ;;
          match key with
          | Some _ => p <- div C (Sin inner) (Cos inner) ;; simplify p
          | None => Ok new
          end
        else Ok new
  | _ => Ok new
  end.

(** [Sec.simplify] *)
Definition Sec_simplify (inner0 : Expr) : Res Expr :=
  new <- TrigFunction_simplify SecC inner0 ;;
  match new with
  | Sec inner =>
      key <- pi_coeff_key inner ;;
      match key with
      | Some _ => p <- div C (Const 1) (Cos inner) ;; simplify p
      | None => Ok new
      end
  | _ => Ok new
  end.

(** [simplify], by class; the numbers and symbols keep [Expr.simplify]. *)
Definition simplify_body (e : Expr) : Res Expr :=
  match e with
  | Const _ | Pi | E | Symbol _ => Ok e
  | Sum terms => Sum_simplify terms
  | Prod terms => Prod_simplify terms
  | Power base exponent => Power_simplify base exponent
  | Log inner => Log_simplify inner
  | Sin inner => Sin_simplify inner
  | Cos inner => Cos_simplify inner
  | Tan inner => Tan_simplify inner
  | Sec inner => Sec_simplify inner
  | Trig cls inner => TrigFunction_simplify cls inner
  end.

(** ** [diff] *)

Definition diff (e : Expr) (var : string) : Res Expr := c_diff C e var.

(** [[t for t in self.terms if t is not e]] for the term at each place:
    the terms of a product are distinct objects. *)
Fixpoint Prod_diff_terms (var : string) (before after : list Expr)
    : Res (list Expr) :=
  match after with
  | [] => Ok []
  | e :: r =>
      d <- diff e var ;;
      p <- mkProd C (d :: before ++ r)%list ;;
      ps <- Prod_diff_terms var (before ++ [e])%list r ;;
      Ok (p :: ps)
  end.

(** [Power.diff] *)
Definition Power_diff (base exponent : Expr) (var : string) : Res Expr :=
  if negb (contains exponent var) then
    x1 <- sub C exponent (Const 1) ;;
    p <- mul C exponent (Power base x1) ;;
    d <- diff base var ;;
    mul C p d
  else if negb (contains base var) then
    p <- mul C (Log base) (Power base exponent) ;;
    d <- diff exponent var ;;
    mul C p d
  else Raise NotImplementedError.

Definition Trig_diff (cls : TrigClass) (inner : Expr) (var : string)
    : Res Expr :=
  match cls with
  | SinC => d <- diff inner var ;; mul C (Cos inner) d
  | CosC => n <- neg C (Sin inner) ;; d <- diff inner var ;; mul C n d
  | TanC => d <- diff inner var ;; mul C (Power (Sec inner) (Const 2)) d
  | CscC => p <- div C (Const 1) (Sin inner) ;; diff p var
  | SecC =>
      p <- mul C (Sec inner) (Tan inner) ;; d <- diff inner var ;; mul C p d
  | CotC => p <- div C (Const 1) (Tan inner) ;; diff p var
  | ArcSinC =>
      a <- sub C (Const 1) (Power inner (Const 2)) ;;
      q <- div C (Const 1) (sqrt a) ;;
      d <- diff inner var ;; mul C q d
  | ArcCosC =>
      a <- sub C (Const 1) (Power inner (Const 2)) ;;
      q <- div C (Const (-1)) (sqrt a) ;;
      d <- diff inner var ;; mul C q d
  | ArcTanC =>
      a <- add C (Const 1) (Power inner (Const 2)) ;;
      q <- div C (Const 1) a ;;
      d <- diff inner var ;; mul C q d
  end.

Definition diff_body (e : Expr) (var : string) : Res Expr :=
  match e with
  | Const _ | Pi | E => Ok (Const 0)
  | Symbol name => Ok (if String.eqb name var then Const 1 else Const 0)
  | Sum terms => ds <- mapM (fun t => diff t var) terms ;; mkSum C ds
  | Prod terms => ps <- Prod_diff_terms var [] terms ;; mkSum C ps
  | Power base exponent => Power_diff base exponent var
  | Log inner => d <- diff inner var ;; div C d inner
  | Trig cls inner => Trig_diff cls inner var
  end.

End Simplify.

(** ** Closing the recursion *)

Definition no_calls : Calls :=
  {| c_simplify := fun _ => OutOfFuel;
     c_repr := fun _ => OutOfFuel;
     c_diff := fun _ _ => OutOfFuel |}.

(** [calls fp n]: the three methods with recursion depth at most [n]. *)
Fixpoint calls (float_pow : Q -> Q -> option Q) (fuel : nat) : Calls :=
  match fuel with
  | O => no_calls
  | S n =>
      let below := calls float_pow n in
      {| c_simplify := simplify_body float_pow below;
         c_repr := repr_body below;
         c_diff := diff_body below |}
  end.

(** The methods at a given recursion depth. *)
Definition simplify (float_pow : Q -> Q -> option Q) (fuel : nat) (e : Expr)
    : Res Expr :=
  c_simplify (calls float_pow fuel) e.

Definition repr (float_pow : Q -> Q -> option Q) (fuel : nat) (e : Expr)
    : Res string :=
  c_repr (calls float_pow fuel) e.

Definition expr_diff (float_pow : Q -> Q -> option Q) (fuel : nat) (e : Expr)
    (var : string) : Res Expr :=
  c_diff (calls float_pow fuel) e var.

(** * The integration engine: [src/simpy/transforms.py] *)

Inductive NodeType : Type := AND | OR | UNSET | SOLUTION | FAILURE.

(** [(u, du, v, dv)], what [ByParts.check] stashes in [_stuff]. *)
Definition Stuff : Type := (Expr * Expr * Expr * Expr)%type.

(** The transform that led to a node, by class; a [ByParts] object carries
    its [_stuff]. *)
Inductive Transform : Type :=
| PullConstant | PolynomialDivision | Expand | Additivity | TrigUSub2
| RewriteTrig | InverseTrigUSub | PolynomialUSub | LinearUSub
| CompoundAngle | SinUSub | ProductToSum
| ByParts (_stuff : list Stuff)
| PartialFractions | GenericUSub.

(** A node owns its children; [parent] is the back-reference to the place
    of the node in the tree and is not stored. *)
Inductive Node : Type :=
| mkNode (expr : Expr) (var : string) (transform : option Transform)
         (children : list Node) (type : NodeType) (solution : option Expr).

Module node.
Definition expr (n : Node) : Expr :=
  let '(mkNode e _ _ _ _ _) := n in e.
Definition var (n : Node) : string :=
  let '(mkNode _ v _ _ _ _) := n in v.
Definition transform (n : Node) : option Transform :=
  let '(mkNode _ _ t _ _ _) := n in t.
Definition children (n : Node) : list Node :=
  let '(mkNode _ _ _ c _ _) := n in c.
Definition type (n : Node) : NodeType :=
  let '(mkNode _ _ _ _ t _) := n in t.
Definition solution (n : Node) : option Expr :=
  let '(mkNode _ _ _ _ _ s) := n in s.
Definition append_child (n c : Node) : Node :=
  let '(mkNode e v t cs ty s) := n in mkNode e v t (cs ++ [c])%list ty s.
End node.

Definition NodeType_eqb (a b : NodeType) : bool :=
  match a, b with
  | AND, AND | OR, OR | UNSET, UNSET | SOLUTION, SOLUTION
  | FAILURE, FAILURE => true
  | _, _ => false
  end.

(** [Node.is_solved]; the Python property falls off its end (returns
    [None], which is false) for a [FAILURE] node with children. *)
Fixpoint is_solved (n : Node) : bool :=
  let '(mkNode _ _ _ children type _) := n in
  match type with
  | SOLUTION => true
  | _ =>
      match children with
      | [] => false
      | _ =>
          match type with
          | AND | UNSET => forallb is_solved children
          | OR => existsb is_solved children
          | _ => false
          end
      end
  end.

(** [Node.is_failed] *)
Fixpoint is_failed (n : Node) : bool :=
  let '(mkNode _ _ _ children type _) := n in
  match type with
  | FAILURE => true
  | _ =>
      match children with
      | [] => false
      | _ =>
          match type with
          | OR => forallb is_failed children
          | _ => existsb is_failed children
          end
      end
  end.

Definition is_finished (n : Node) : bool := is_solved n || is_failed n.

Section Transforms.

Variable float_pow : Q -> Q -> option Q.
Variable fuel : nat.

Let C : Calls := calls float_pow fuel.

(** [Node(expr, var, transform, parent, type=..., solution=...)]:
    [__post_init__] stores [expr.simplify()] and an empty child list. *)
Definition Node_new (expr : Expr) (var : string)
    (transform : option Transform) (type : NodeType)
    (solution : option Expr) : Res Node :=
  e <- c_simplify C expr ;;
  Ok (mkNode e var transform [] type solution).

(** [replace(expr, old, new)] *)
Fixpoint replace (expr old new : Expr) {struct expr} : Res Expr :=
  let fix go (l : list Expr) : Res (list Expr) :=
    match l with
    | [] => Ok []
    | e :: r => e' <- replace e old new ;; r' <- go r ;; Ok (e' :: r')
    end in
  if expr_eqb expr old then Ok new
  else
    match expr with
    | Sum terms => ts <- go terms ;; mkSum C ts
    | Prod terms => ts <- go terms ;; mkProd C ts
    | Power base exponent =>
        b <- replace base old new ;;
        x <- replace exponent old new ;;
        Ok (Power b x)
    | Log inner => i <- replace inner old new ;; Ok (Log i)
    | Trig cls inner => i <- replace inner old new ;; Ok (Trig cls i)
    | Const _ | Pi | E | Symbol _ => Ok expr
    end.

(** [STANDARD_TRIG_INTEGRALS] *)
Definition STANDARD_TRIG_INTEGRALS (key : string)
    : option (Expr -> Res Expr) :=
  match key with
  | "sin(x)" => Some (fun x => neg C (Cos x))
  | "cos(x)" => Some (fun x => Ok (Sin x))
  | "sec(x)^2" => Some (fun x => Ok (Tan x))
  | "sec(x)" => Some (fun x => s <- add C (Tan x) (Sec x) ;; Ok (Log s))
  | _ => None
  end.

(** [_check_if_solveable(integrand, var)] *)
Definition _check_if_solveable (integrand : Expr) (var : string)
    : Res (option Expr) :=
  let v := Symbol var in
  let some (r : Res Expr) : Res (option Expr) := e <- r ;; Ok (Some e) in
  let table : Res (option Expr) :=
    renamed <- replace integrand v (Symbol "x") ;;
    silly_key <- c_repr C renamed ;;
    match STANDARD_TRIG_INTEGRALS silly_key with
    | Some f => some (r <- f v ;; c_simplify C r)
    | None => Ok None
    end in
  if negb (contains integrand var) then
    some (p <- mul C integrand v ;; c_simplify C p)
  else
    match integrand with
    | Power base n =>
        if expr_eqb base v && negb (contains n var) then
          if negb (expr_eqb n (Const (-1))) then
            some (n1 <- add C n (Const 1) ;;
                  r <- div C (Const 1) n1 ;;
                  n1' <- add C n (Const 1) ;;
                  p <- mul C r (Power v n1') ;;
                  c_simplify C p)
          else some (c_simplify C (Log base))
        else if expr_eqb n v && negb (contains base var) then
          some (r <- div C (Const 1) (Log base) ;;
                p <- mul C r integrand ;;
                c_simplify C p)
        else table
    | Symbol _ =>
        (* [integrand.contains(var)] holds, so the symbol is [var] *)
        some (p <- mul C (Const (1 # 2)) (Power v (Const 2)) ;;
              c_simplify C p)
    | _ => table
    end.

(** The inner [_check(u, dv)] of [ByParts.check]: the tuple it appends to
    [_stuff], [None] when it returns [False]. *)
Definition ByParts_check_choice (n : Node) (u dv : Expr)
    : Res (option Stuff) :=
  let expr := node.expr n in
  let var := node.var n in
  du <- c_diff C u var ;;
  v <- _check_if_solveable dv var ;;
  match v with
  | None => Ok None
  | Some v =>
      duv <- mul C du v ;;
      integrand2 <- mul C duv (Const (-1)) ;;
      q <- div C integrand2 expr ;;
      factor <- c_simplify C q ;;
      if expr_eqb factor (Const 1) then Ok None
      else Ok (Some (u, du, v, dv))
  end.

(** [ByParts.check]: returns the verdict and the [_stuff] of the object.
    In the case of a bare logarithm or inverse trigonometric function
    [dv] is the integer 1. *)
Definition ByParts_check (_stuff : list Stuff) (n : Node)
    : Res (bool * list Stuff) :=
  let expr := node.expr n in
  let var := node.var n in
  match expr with
  | Prod terms =>
      match terms with
      | [a; b] =>
          first <- ByParts_check_choice n a b ;;
          match first with
          | Some st => Ok (true, (_stuff ++ [st])%list)
          | None =>
              second <- ByParts_check_choice n b a ;;
              match second with
              | Some st => Ok (true, (_stuff ++ [st])%list)
              | None => Ok (false, _stuff)
              end
          end
      | _ => Ok (false, _stuff)
      end
  | _ =>
      let special :=
        match expr with
        | Log inner => expr_eqb inner (Symbol var)
        | Trig cls inner => is_inverse cls && expr_eqb inner (Symbol var)
        | _ => false
        end in
      if special then
        du <- c_diff C expr var ;;
        Ok (true, (_stuff ++ [(expr, du, Symbol var, Const 1)])%list)
      else Ok (false, _stuff)
  end.

(** [ByParts.forward]: the node with the new children appended. *)
Fixpoint ByParts_forward (_stuff : list Stuff) (n : Node) : Res Node :=
  match _stuff with
  | [] => Ok n
  | (u, du, v, dv) :: rest =>
      let expr := node.expr n in
      let var := node.var n in
      uv <- mul C u v ;;
      child1 <- c_simplify C uv ;;
      duv <- mul C du v ;;
      i2 <- mul C duv (Const (-1)) ;;
      integrand2 <- c_simplify C i2 ;;
      let tr := ByParts [(u, du, v, dv)] in
      q <- div C integrand2 expr ;;
      factor <- c_simplify C q ;;
      if negb (contains factor var) then
        d <- sub C (Const 1) factor ;;
        solution <- div C child1 d ;;
        c <- Node_new expr var (Some tr) SOLUTION (Some solution) ;;
        Ok (node.append_child n c)
      else
        funky_node <- Node_new expr var (Some tr) AND None ;;
        c1 <- Node_new expr var (Some Additivity) SOLUTION (Some child1) ;;
        c2 <- Node_new integrand2 var (Some Additivity) UNSET None ;;
        let funky_node :=
          let '(mkNode e v t _ ty s) := funky_node in
          mkNode e v t [c1; c2] ty s in
        ByParts_forward rest (node.append_child n funky_node)
  end.

End Transforms.

(** * The earlier engine: [transforms.py]

    The file imports its expressions and helpers from a module [main] that
    is not part of the sources, so the expression type, [simplify],
    [nesting], the answer of the table and what each transform computes are
    parameters.  The tree, its properties and the scheduler are the file's.
    A node is addressed by its path from the root; [parent] is the path
    without its last step, and the root has none. *)

Module Engine.

Inductive TransformClass : Type :=
| T_PullConstant | T_PolynomialDivision | T_Expand | T_Additivity
| T_B_Tan | T_A | T_C_Sin | T_C_Tan.

Definition SAFE_TRANSFORMS : list TransformClass :=
  [T_Additivity; T_PullConstant; T_Expand; T_PolynomialDivision].

Definition HEURISTICS : list TransformClass :=
  [T_B_Tan; T_A; T_C_Sin; T_C_Tan].

Definition Path : Type := list nat.

(** The two assignments to [node.type] a [forward] makes: ["AND"] in
    [Additivity], ["OR"] in [A]. *)
Inductive SetType : Type := SetAND | SetOR.

Definition NodeType_of (t : SetType) : NodeType :=
  match t with SetAND => AND | SetOR => OR end.

(** What [_cycle] returns: the string ["SOLVED"], a node, or [None]. *)
Inductive Answer : Type :=
| SOLVED
| Next (node : option Path).

Section Engine.

Variable X : Type.

Inductive ONode : Type :=
| mk (expr : X) (var : string) (transform : option TransformClass)
     (children : list ONode) (type : NodeType) (solution : option X).

Definition expr (n : ONode) : X := let '(mk e _ _ _ _ _) := n in e.
Definition var (n : ONode) : string := let '(mk _ v _ _ _ _) := n in v.
Definition transform (n : ONode) : option TransformClass :=
  let '(mk _ _ t _ _ _) := n in t.
Definition children (n : ONode) : list ONode :=
  let '(mk _ _ _ c _ _) := n in c.
Definition type (n : ONode) : NodeType := let '(mk _ _ _ _ t _) := n in t.
Definition solution (n : ONode) : option X :=
  let '(mk _ _ _ _ _ s) := n in s.

Definition set_children (n : ONode) (cs : list ONode) : ONode :=
  let '(mk e v t _ ty s) := n in mk e v t cs ty s.
Definition set_type (n : ONode) (ty : NodeType) : ONode :=
  let '(mk e v t cs _ s) := n in mk e v t cs ty s.
Definition set_solution (n : ONode) (s : option X) : ONode :=
  let '(mk e v t cs ty _) := n in mk e v t cs ty s.

(** [simplify0]: [expr.simplify()], run by [Node.__post_init__].
    [nesting0]: [nesting(expr, var)].
    [table_answer]: the [answer] of [_check_if_solvable], [None] when the
    integrand is not in the table.
    [check_forward c n]: [None] when [c().check(n)] is false; otherwise the
    expressions and variables of the nodes [forward] assigns to
    [n.children] (every [forward] of the file assigns at least one, hence
    a first one and the rest), and the type it sets on [n], if any.
    [backward_solution c parent i]: the solution [c().backward] stores in
    the parent of its [i]-th child, [None] when it returns without
    storing one. *)
Variable simplify0 : X -> Res X.
Variable nesting0 : X -> string -> nat.
Variable table_answer : X -> string -> option X.
Variable check_forward :
  TransformClass -> ONode ->
  Res (option ((X * string) * list (X * string) * option SetType)).
Variable backward_solution :
  TransformClass -> ONode -> nat -> Res (option X).

(** [Node(expr, var, transform, parent)] *)
Definition Node_new (e : X) (v : string) (t : option TransformClass)
    : Res ONode :=
  e' <- simplify0 e ;; Ok (mk e' v t [] UNSET None).

(** [Node.is_solved], [Node.is_failed], [Node.is_finished] *)
Fixpoint is_solved (n : ONode) : bool :=
  let '(mk _ _ _ children type _) := n in
  match type with
  | SOLUTION => true
  | _ =>
      match children with
      | [] => false
      | _ =>
          match type with
          | AND | UNSET => forallb is_solved children
          | OR => existsb is_solved children
          | _ => false
          end
      end
  end.

Fixpoint is_failed (n : ONode) : bool :=
  let '(mk _ _ _ children type _) := n in
  match type with
  | FAILURE => true
  | _ =>
      match children with
      | [] => false
      | _ =>
          match type with
          | OR => forallb is_failed children
          | _ => existsb is_failed children
          end
      end
  end.

Definition is_finished (n : ONode) : bool := is_solved n || is_failed n.

Fixpoint subtree (n : ONode) (p : Path) : option ONode :=
  match p with
  | [] => Some n
  | i :: q =>
      match nth_error (children n) i with
      | Some c => subtree c q
      | None => None
      end
  end.

Fixpoint replace_nth {A : Type} (l : list A) (i : nat) (a : A) : list A :=
  match l, i with
  | [], _ => []
  | _ :: r, O => a :: r
  | x :: r, S j => x :: replace_nth r j a
  end.

(** The tree with the node at [p] replaced by [m]. *)
Fixpoint update (n : ONode) (p : Path) (m : ONode) : ONode :=
  match p with
  | [] => m
  | i :: q =>
      match nth_error (children n) i with
      | Some c => set_children n (replace_nth (children n) i (update c q m))
      | None => n
      end
  end.

(** [Node.leaves], as paths below [n]. *)
Fixpoint leaves (n : ONode) : list Path :=
  let '(mk _ _ _ children _ _) := n in
  let fix go (i : nat) (cs : list ONode) : list Path :=
    match cs with
    | [] => []
    | c :: r => (map (cons i) (leaves c) ++ go (S i) r)%list
    end in
  match children with
  | [] => [[]]
  | _ => go 0%nat children
  end.

Definition finished_at (n : ONode) (p : Path) : bool :=
  match subtree n p with
  | Some m => is_finished m
  | None => true
  end.

(** [Node.unfinished_leaves] *)
Definition unfinished_leaves (n : ONode) : list Path :=
  filter (fun p => negb (finished_at n p)) (leaves n).

(** [Node.unsolved_children], with their positions. *)
Definition unsolved_children (n : ONode) : list (nat * ONode) :=
  filter (fun ic => negb (is_solved (snd ic)))
    (combine (seq 0 (length (children n))) (children n)).

(** [tr = transform(); if tr.check(node): tr.forward(node)] *)
Definition apply_transform (c : TransformClass) (n : ONode)
    : Res (option ONode) :=
  r <- check_forward c n ;;
  match r with
  | None => Ok None
  | Some (first, rest, ty) =>
      cs <- mapM (fun ev => Node_new (fst ev) (snd ev) (Some c))
              (first :: rest) ;;
      let n := set_children n cs in
      Ok (Some (match ty with
                | Some t => set_type n (NodeType_of t)
                | None => n
                end))
  end.

(** [_integrate_safely] *)
Fixpoint _integrate_safely (fuel : nat) (n : ONode) : Res ONode :=
  match fuel with
  | O => OutOfFuel
  | S fuel' =>
      let fix loop (ts : list TransformClass) (n : ONode) : Res ONode :=
        match ts with
        | [] => Ok n
        | c :: r =>
            a <- apply_transform c n ;;
            match a with
            | None => loop r n
            | Some n' =>
                cs <- mapM (_integrate_safely fuel') (children n') ;;
                loop r (set_children n' cs)
            end
        end in
      loop SAFE_TRANSFORMS n
  end.

(** [_check_if_solvable(leaf)] *)
Definition _check_if_solvable (n : ONode) : ONode :=
  match table_answer (expr n) (var n) with
  | None => n
  | Some answer => set_solution (set_type n SOLUTION) (Some answer)
  end.

(** [_integrate_heuristically] *)
Definition _integrate_heuristically (n : ONode) : Res ONode :=
  let fix loop (ts : list TransformClass) (n : ONode) : Res ONode :=
    match ts with
    | [] => Ok n
    | c :: r =>
        a <- apply_transform c n ;;
        match a with
        | None => loop r n
        | Some n' => loop r n'
        end
    end in
  n <- loop HEURISTICS n ;;
  match children n with
  | [] => Ok (set_type n FAILURE)
  | [_] => Ok n
  | _ => Ok (set_type n OR)
  end.

(** [_get_node_with_best_nesting(nodes, fn)]: the first node whose
    nesting is the least ([fn = min]) or the greatest ([fn = max]). *)
Definition _get_node_with_best_nesting (nodes : list (Path * ONode))
    (use_min : bool) : Res Path :=
  let results := map (fun pn => nesting0 (expr (snd pn)) (var (snd pn)))
                   nodes in
  match results with
  | [] => Raise ValueError
  | r0 :: rs =>
      let best := fold_left (if use_min then Nat.min else Nat.max) rs r0 in
      match find (fun pn => Nat.eqb (nesting0 (expr (snd pn)) (var (snd pn)))
                              best) nodes with
      | Some pn => Ok (fst pn)
      | None => Raise ValueError
      end
  end.

(** [_nesting_node]: the path, below [n], of the node chosen. *)
Fixpoint _nesting_node (n : ONode) : Res Path :=
  let '(mk _ _ _ children type _) := n in
  let fix bests (i : nat) (cs : list ONode) : Res (list (Path * ONode)) :=
    match cs with
    | [] => Ok []
    | c :: r =>
        if is_solved c then bests (S i) r
        else
          p <- _nesting_node c ;;
          rs <- bests (S i) r ;;
          match subtree c p with
          | Some m => Ok ((i :: p, m) :: rs)
          | None => Raise IndexError
          end
    end in
  let fix only (i : nat) (cs : list ONode) : Res Path :=
    match cs with
    | [] => Raise IndexError
    | c :: r =>
        if is_solved c then only (S i) r
        else p <- _nesting_node c ;; Ok (i :: p)
    end in
  let unsolved := unsolved_children n in
  match unsolved with
  | [] => Ok []
  | [_] => only 0%nat children
  | _ =>
      let is_2nd_lowest_parent :=
        forallb (fun ic => match unsolved_children (snd ic) with
                           | [] => true | _ => false end) unsolved in
      let use_min := NodeType_eqb type OR in
      if is_2nd_lowest_parent then
        _get_node_with_best_nesting
          (map (fun ic => ([fst ic], snd ic)) unsolved) use_min
      else
        childrens_best_nodes <- bests 0%nat children ;;
        _get_node_with_best_nesting childrens_best_nodes use_min
  end.

(** [_get_next_node_post_heuristic]; [fuel] bounds the walk to the root. *)
Fixpoint _get_next_node_post_heuristic (fuel : nat) (root : ONode)
    (p : Path) : Res (option Path) :=
  match fuel with
  | O => OutOfFuel
  | S fuel' =>
      match subtree root p with
      | None => Raise AttributeError
      | Some n =>
          match unfinished_leaves n with
          | [] =>
              if is_failed n then
                (* [parent = node.parent], then the [while] loop *)
                let fix walk (k : nat) (parent : option Path)
                    : Res (option Path) :=
                  match k with
                  | O => OutOfFuel
                  | S k' =>
                      match parent with
                      | None => Raise AttributeError
                      | Some q =>
                          match subtree root q with
                          | None => Raise AttributeError
                          | Some pn =>
                              if (length (children pn) =? 1)%nat
                                 || NodeType_eqb (type pn) AND
                              then
                                match q with
                                | [] => Ok None
                                | _ => walk k' (Some (removelast q))
                                end
                              else
                                _get_next_node_post_heuristic fuel' root q
                          end
                      end
                  end in
                walk (S (length p))
                  (match p with [] => None | _ => Some (removelast p) end)
              else Raise NotImplementedError
          | [l] => Ok (Some (p ++ l)%list)
          | _ => q <- _nesting_node n ;; Ok (Some (p ++ q)%list)
          end
      end
  end.

(** [_cycle(node)] on the tree [root]; [node = None] is what the loop of
    [integrate] passes on after [_cycle] returned [None]. *)
Definition _cycle (fuel : nat) (root : ONode) (node : option Path)
    : Res (ONode * Answer) :=
  match node with
  | None => Raise AttributeError
  | Some p =>
      match subtree root p with
      | None => Raise AttributeError
      | Some n =>
          n <- _integrate_safely fuel n ;;
          let n := fold_left
                     (fun n l => match subtree n l with
                                 | Some leaf =>
                                     update n l (_check_if_solvable leaf)
                                 | None => n
                                 end) (unfinished_leaves n) n in
          match unfinished_leaves n with
          | [] => Ok (update root p n, SOLVED)
          | l :: _ =>
              match subtree n l with
              | None => Raise IndexError
              | Some next_node =>
                  next_node <- _integrate_heuristically next_node ;;
                  let root := update root p (update n l next_node) in
                  next_next_node <-
                    _get_next_node_post_heuristic
                      (S (length (p ++ l))) root (p ++ l)%list ;;
                  Ok (root, Next next_next_node)
              end
          end
      end
  end.

(** The [while True] loop of [Integration.integrate]. *)
Fixpoint integrate_loop (fuel : nat) (root : ONode)
    (curr_node : option Path) : Res ONode :=
  match fuel with
  | O => OutOfFuel
  | S fuel' =>
      '(root, answer) <- _cycle fuel' root curr_node ;;
      if is_finished root then Ok root
      else
        match answer with
        | SOLVED =>
            curr_node <- _get_next_node_post_heuristic 1 root [] ;;
            integrate_loop fuel' root curr_node
        | Next curr_node => integrate_loop fuel' root curr_node
        end
  end.

(** One solved leaf of the second loop: [l.transform.backward(l)] and
    [l = l.parent], until [ValueError]. *)
Fixpoint backward_from (fuel : nat) (root : ONode) (l : Path) : Res ONode :=
  match fuel with
  | O => OutOfFuel
  | S fuel' =>
      match subtree root l with
      | None => Raise AttributeError
      | Some n =>
          match transform n with
          | None => Raise AttributeError
          | Some c =>
              match solution n with
              | None => Ok root          (* [ValueError], caught: [break] *)
              | Some _ =>
                  let q := removelast l in
                  match subtree root q with
                  | None => Raise AttributeError
                  | Some parent =>
                      match backward_solution c parent (last l 0%nat) with
                      | Raise ValueError => Ok root     (* caught: [break] *)
                      | r =>
                          s <- r ;;
                          let root :=
                            match s with
                            | Some s =>
                                update root q (set_solution parent (Some s))
                            | None => root
                            end in
                          backward_from fuel' root q
                      end
                  end
              end
          end
      end
  end.

Fixpoint backward_all (root : ONode) (ls : list Path) : Res ONode :=
  match ls with
  | [] => Ok root
  | l :: r =>
      root <- backward_from (S (length l)) root l ;; backward_all root r
  end.

(** [Integration.integrate(integrand, var)] *)
Definition integrate (fuel : nat) (integrand : X) (v : string) : Res X :=
  root <- Node_new integrand v None ;;
  root <- integrate_loop fuel root (Some []) ;;
  if is_failed root then Raise NotImplementedError
  else
    let solved_leaves :=
      filter (fun l => match subtree root l with
                       | Some n => is_solved n
                       | None => false
                       end) (leaves root) in
    root <- backward_all root solved_leaves ;;
    match solution root with
    | None => Raise ValueError
    | Some s => Ok s
    end.

End Engine.

End Engine.

(** * The value of an expression on the reals

    Integer exponents are repeated multiplication, other exponents are
    [exp (x * ln b)], which is the power on a positive base. *)
Fixpoint Rvalue (env : string -> R) (e : Expr) {struct e} : R :=
  let fix sum (l : list Expr) : R :=
    match l with
    | [] => 0%R
    | x :: r => (Rvalue env x + sum r)%R
    end in
  let fix product (l : list Expr) : R :=
    match l with
    | [] => 1%R
    | x :: r => (Rvalue env x * product r)%R
    end in
  match e with
  | Const q => Q2R q
  | Pi => PI
  | E => exp 1
  | Symbol s => env s
  | Sum ts => sum ts
  | Prod ts => product ts
  | Power b (Const q) =>
      if Qis_int q then powerRZ (Rvalue env b) (Qnum (Qred q))
      else Rpower (Rvalue env b) (Q2R q)
  | Power b x => Rpower (Rvalue env b) (Rvalue env x)
  | Log i => ln (Rvalue env i)
  | Trig c i =>
      let v := Rvalue env i in
      match c with
      | SinC => Rtrigo_def.sin v
      | CosC => Rtrigo_def.cos v
      | TanC => Rtrigo1.tan v
      | CscC => (/ Rtrigo_def.sin v)%R
      | SecC => (/ Rtrigo_def.cos v)%R
      | CotC => (/ Rtrigo1.tan v)%R
      | ArcSinC => asin v
      | ArcCosC => acos v
      | ArcTanC => atan v
      end
  end.

(** The constants of an expression are stored as [Fraction]s in lowest
    terms. *)
Definition Qnormal (q : Q) : bool :=
  Z.eqb (Qnum (Qred q)) (Qnum q) && Pos.eqb (Qden (Qred q)) (Qden q).

Fixpoint normalized (e : Expr) {struct e} : bool :=
  let fix all (l : list Expr) : bool :=
    match l with
    | [] => true
    | x :: r => normalized x && all r
    end in
  match e with
  | Const q => Qnormal q
  | Pi | E | Symbol _ => true
  | Sum ts | Prod ts => all ts
  | Power b x => normalized b && normalized x
  | Log i | Trig _ i => normalized i
  end.

(** * Further parts of the code *)

(** ** The tree of a [Node]: [src/simpy/transforms.py] *)

(** [Node.leaves] *)
Fixpoint leaves (n : Node) : list Node :=
  let '(mkNode _ _ _ children _ _) := n in
  match children with
  | [] => [n]
  | _ => flat_map leaves children
  end.

(** [Node.unfinished_leaves] *)
Definition unfinished_leaves (n : Node) : list Node :=
  filter (fun leaf => negb (is_finished leaf)) (leaves n).

(** [Node.unfinished_children] *)
Definition unfinished_children (n : Node) : list Node :=
  match node.children n with
  | [] => []
  | children => filter (fun child => negb (is_finished child)) children
  end.

(** [Node.child] *)
Definition child (n : Node) : option Node := hd_error (node.children n).

(** Every [SOLUTION] node of the tree is a leaf: [_check_if_solveable]
    answers, and the solution children of [ByParts.forward] are, nodes
    without children. *)
Fixpoint solutions_are_leaves (n : Node) : bool :=
  let '(mkNode _ _ _ children type _) := n in
  match type, children with
  | SOLUTION, _ :: _ => false
  | _, _ => forallb solutions_are_leaves children
  end.

(** ** Further functions of [src/simpy/expr.py] *)

(** [count(expr, query)] *)
Fixpoint count (expr query : Expr) {struct expr} : nat :=
  let fix total (l : list Expr) : nat :=
    match l with
    | [] => 0%nat
    | e :: r => (count e query + total r)%nat
    end in
  if expr_eqb expr query then 1%nat
  else
    match expr with
    | Const _ | Pi | E | Symbol _ => 0%nat
    | Sum ts | Prod ts => total ts
    | Power b x => (count b query + count x query)%nat
    | Log i | Trig _ i => count i query
    end.

(** [max(nesting(sub_expr, var) for sub_expr in terms)], the loop inside
    [nesting]. *)
Fixpoint nesting_max (var : option string) (l : list Expr) : Res nat :=
  match l with
  | [] => Ok 0%nat
  | x :: r =>
      n <- nesting var x ;; m <- nesting_max var r ;; Ok (Nat.max n m)
  end.

(** The sum and the product of the values of a list of terms. *)
Definition Rsum (env : string -> R) (l : list Expr) : R :=
  fold_right (fun t r => (Rvalue env t + r)%R) 0%R l.
Definition Rprod (env : string -> R) (l : list Expr) : R :=
  fold_right (fun t r => (Rvalue env t * r)%R) 1%R l.

(** The class test of [Associative._flatten]: [isinstance(t, Sum)] for a
    sum, [isinstance(t, Prod)] for a product. *)
Definition is_cls (sum : bool) (t : Expr) : bool :=
  if sum then isSum t else isProd t.

(** ** Further transforms of [src/simpy/transforms.py] *)

(** A [Sin] or [Cos] object: the class ([true] for [Sin]) and [inner]. *)
Definition SinCos : Type := (bool * Expr)%type.

Definition sincos (a : SinCos) : Expr :=
  if fst a then Sin (snd a) else Cos (snd a).

(** [isinstance(term, (Sin, Cos))], with the object taken apart. *)
Definition as_sincos (term : Expr) : option SinCos :=
  match term with
  | Trig SinC inner => Some (true, inner)
  | Trig CosC inner => Some (false, inner)
  | _ => None
  end.

(** [ProductToSum.check]: the [(_a, _b)] it stores, [None] when it returns
    [False]. *)
Definition ProductToSum_check (n : Node) : option (SinCos * SinCos) :=
  match node.expr n with
  | Prod [t1; t2] =>
      match as_sincos t1, as_sincos t2 with
      | Some a, Some b => Some (a, b)
      | _, _ => None
      end
  | Power base exponent =>
      match as_sincos base with
      | Some a => if expr_eqb exponent (Const 2) then Some (a, a) else None
      | None => None
      end
  | _ => None
  end.

(** [new_integrand] of [ProductToSum.forward]. *)
Definition ProductToSum_integrand (C : Calls) (a b : SinCos) : Res Expr :=
  let '(sa, a_inner) := a in
  let '(sb, b_inner) := b in
  temp <-
    match sa, sb with
    | true, false =>
        s <- add C a_inner b_inner ;; d <- sub C a_inner b_inner ;;
        add C (Sin s) (Sin d)
    | false, true =>
        s <- add C a_inner b_inner ;; d <- sub C a_inner b_inner ;;
        sub C (Sin s) (Sin d)
    | false, false =>
        s <- add C a_inner b_inner ;; d <- sub C a_inner b_inner ;;
        add C (Cos s) (Cos d)
    | true, true =>
        d <- sub C a_inner b_inner ;; s <- add C a_inner b_inner ;;
        sub C (Cos d) (Cos s)
    end ;;
  div C temp (Const 2).

(** [ProductToSum.forward], on the pair its [check] stored. *)
Definition ProductToSum_forward (fp : Q -> Q -> option Q) (fuel : nat)
    (a b : SinCos) (n : Node) : Res Node :=
  new_integrand <- ProductToSum_integrand (calls fp fuel) a b ;;
  c <- Node_new fp fuel new_integrand (node.var n) (Some ProductToSum)
         UNSET None ;;
  Ok (node.append_child n c).

(** The [condition] of [CompoundAngle]: a [Sin] or [Cos] of a sum of two
    terms, taken apart. *)
Definition compound_angle (e : Expr) : option (bool * Expr * Expr) :=
  match e with
  | Trig SinC (Sum [a; b]) => Some (true, a, b)
  | Trig CosC (Sum [a; b]) => Some (false, a, b)
  | _ => None
  end.

(** [_check] of [CompoundAngle.check] *)
Fixpoint CompoundAngle_check_expr (e : Expr) {struct e} : bool :=
  let fix any (l : list Expr) : bool :=
    match l with
    | [] => false
    | c :: r => CompoundAngle_check_expr c || any r
    end in
  match compound_angle e with
  | Some _ => true
  | None =>
      match e with
      | Const _ | Pi | E | Symbol _ => false
      | Sum ts | Prod ts => any ts
      | Power b x => CompoundAngle_check_expr b || CompoundAngle_check_expr x
      | Log i | Trig _ i => CompoundAngle_check_expr i
      end
  end.

Definition CompoundAngle_check (n : Node) : bool :=
  CompoundAngle_check_expr (node.expr n).

(** [_perform] of [CompoundAngle.forward], on an expression that meets the
    condition. *)
Definition CompoundAngle_perform (C : Calls) (sin : bool) (a b : Expr)
    : Res Expr :=
  if sin then
    p <- mul C (Sin a) (Cos b) ;; q <- mul C (Cos a) (Sin b) ;; add C p q
  else
    p <- mul C (Cos a) (Cos b) ;; q <- mul C (Sin a) (Sin b) ;; sub C p q.

(** [var not in term.symbols()]: membership in the list compares names. *)
Definition not_in_symbols (var : string) (term : Expr) : bool :=
  negb (existsb (String.eqb var) (symbols term)).

(** The loop of [PullConstant.check] over [enumerate(expr.terms)]:
    [before] holds [expr.terms[:i]]. *)
Fixpoint PullConstant_loop (C : Calls) (var : string)
    (before after : list Expr) : Res (option (Expr * Expr)) :=
  match after with
  | [] => Ok None
  | term :: rest =>
      if not_in_symbols var term then
        p <- mkProd C (before ++ rest)%list ;;
        _non_constant_part <- c_simplify C p ;;
        Ok (Some (term, _non_constant_part))
      else PullConstant_loop C var (before ++ [term])%list rest
  end.

(** [PullConstant.check]: [(_constant, _non_constant_part)], [None] when it
    returns [False]. *)
Definition PullConstant_check (C : Calls) (n : Node)
    : Res (option (Expr * Expr)) :=
  match node.expr n with
  | Prod terms => PullConstant_loop C (node.var n) [] terms
  | _ => Ok None
  end.

(** [PullConstant.forward]: the child list is replaced by the one new
    node. *)
Definition PullConstant_forward (fp : Q -> Q -> option Q) (fuel : nat)
    (_non_constant_part : Expr) (n : Node) : Res Node :=
  c <- Node_new fp fuel _non_constant_part (node.var n) (Some PullConstant)
         UNSET None ;;
  let '(mkNode e v t _ ty s) := n in Ok (mkNode e v t [c] ty s).

(** [Additivity.check] *)
Definition Additivity_check (n : Node) : bool := isSum (node.expr n).

(** [Additivity.forward]; an expression that is not a sum has no
    [terms]. *)
Definition Additivity_forward (fp : Q -> Q -> option Q) (fuel : nat)
    (n : Node) : Res Node :=
  let '(mkNode e v t _ _ s) := n in
  match e with
  | Sum terms =>
      cs <- mapM (fun e' => Node_new fp fuel e' v (Some Additivity) UNSET None)
              terms ;;
      Ok (mkNode e v t cs AND s)
  | _ => Raise AttributeError
  end.

(** ** The root of the earlier engine's tree *)

(** The fields of a node that only the table and [backward] write. *)
Definition same_head {X : Type} (a b : Engine.ONode X) : Prop :=
  Engine.transform X a = Engine.transform X b /\
  Engine.solution X a = Engine.solution X b.

(** A node that no transform led to and that holds no solution: the root
    when [integrate] creates it. *)
Definition unanswered {X : Type} (n : Engine.ONode X) : Prop :=
  Engine.transform X n = None /\ Engine.solution X n = None.

(** The root after the search: it holds a solution only as a leaf that the
    table answered. *)
Definition searched_root {X : Type} (n : Engine.ONode X) : Prop :=
  Engine.transform X n = None /\
  (Engine.solution X n = None \/
   (Engine.type X n = SOLUTION /\ Engine.children X n = [])).

(** [isinstance(result, Expr)] for the result of a call: it returned. *)
Definition returns {A : Type} (r : Res A) : bool :=
  match r with Ok _ => true | _ => false end.

(** * Inputs and auxiliary definitions of the properties *)

Definition x : Expr := Symbol "x".

(** [Sin(3*pi/2)]: the product is flattened and sorted to [3, pi, 2^-1]. *)
Definition sin_3pi_2 : Expr :=
  Sin (Prod [Const 3; Pi; Power (Const 2) (Const (-1))]).

(** [Sin(2*pi/3)] *)
Definition sin_2pi_3 : Expr :=
  Sin (Prod [Const 2; Pi; Power (Const 3) (Const (-1))]).

(** [1/sqrt(2)], the entry of [Sin._special_values] under ["2/3"]. *)
Definition one_over_sqrt2 : Expr :=
  Prod [Const 1; Power (Power (Const 2) (Const (1 # 2))) (Const (-1))].

(** [1/x] as the division builds it, and [x**-1]. *)
Definition one_over_x : Expr := Prod [Const 1; Power x (Const (-1))].
Definition x_inverse : Expr := Power x (Const (-1)).

(** The characterisation in the words of the claim. *)
Definition claimed_is_solved (n : Node) : bool :=
  NodeType_eqb (node.type n) SOLUTION
  || NodeType_eqb (node.type n) AND && forallb is_solved (node.children n)
  || NodeType_eqb (node.type n) OR && existsb is_solved (node.children n).

Definition claimed_is_failed (n : Node) : bool :=
  NodeType_eqb (node.type n) FAILURE
  || NodeType_eqb (node.type n) AND && existsb is_failed (node.children n)
  || NodeType_eqb (node.type n) OR && forallb is_failed (node.children n).

(** A node left [UNSET] by a safe transform, with its one child solved. *)
Definition unset_over_solution : Node :=
  mkNode (Prod [Const 2; x]) "x" None
    [mkNode x "x" (Some PullConstant) [] SOLUTION
       (Some (Prod [Const (1 # 2); Power x (Const 2)]))]
    UNSET None.

Definition unset_over_failure : Node :=
  mkNode (Prod [Const 2; x]) "x" None
    [mkNode x "x" (Some PullConstant) [] FAILURE None] UNSET None.

(** [x*cos(x)], [ln(x)/x] and the unsimplified [1/x * 1] as root nodes. *)
Definition node_x_cos_x : Node :=
  mkNode (Prod [x; Cos x]) "x" None [] UNSET None.
Definition node_ln_x_over_x : Node :=
  mkNode (Prod [Power x (Const (-1)); Log x]) "x" None [] UNSET None.
Definition node_k_is_1 : Node :=
  mkNode (Prod [Power x (Const (-1)); Const 1]) "x" None [] UNSET None.

(** [log(sec(x) + tan(x))] and what [simplify] leaves of its derivative. *)
Definition log_sec_tan : Expr := Log (Sum [Sec x; Tan x]).






(** The table of the earlier engine, as far as it decides whether there
    is an answer: a power of the variable with a constant exponent, a power
    of another symbol, a symbol or a constant. *)
Definition old_table_answer (e : Expr) (var : string) : option Expr :=
  match e with
  | Power base (Const n) =>
      if expr_eqb base (Symbol var) then
        if negb (Qeqb n (-1))
        then Some (Prod [Prod [Const 1; Power (Sum [Const n; Const 1])
                                          (Const (-1))];
                         Power (Symbol var) (Sum [Const n; Const 1])])
        else Some (Log base)
      else
        match base with
        | Symbol _ => Some (Prod [e; Symbol var])
        | _ => None
        end
  | Power (Symbol b) _ =>
      if negb (String.eqb b var) then Some (Prod [e; Symbol var]) else None
  | Symbol s =>
      if String.eqb s var
      then Some (Prod [Const (1 # 2); Power (Symbol var) (Const 2)])
      else Some (Prod [e; Symbol var])
  | Const _ => Some (Prod [e; Symbol var])
  | _ => None
  end.

(** The derivative of [sec(x) + tan(x)] as [diff] builds it. *)
Definition d_sec_plus_tan : Expr :=
  Sum [Prod [Const 1; Sec x; Tan x]; Prod [Const 1; Power (Sec x) (Const 2)]].

(** [sec(x)/ln(sec(x) + tan(x))] as a root node, and the choice
    [u = 1/ln(sec(x) + tan(x))], [dv = sec(x)], for which [-u'v] is the
    integrand itself ([k = 1]). *)
Definition node_k_1 : Node :=
  mkNode (Prod [Sec x; Power log_sec_tan (Const (-1))]) "x" None []
    UNSET None.
Definition stuff_k_1 : Stuff :=
  (Power log_sec_tan (Const (-1)),
   Prod [Const (-1); Power (Sum [Sec x; Tan x]) (Const (-1)); d_sec_plus_tan;
         Power log_sec_tan (Sum [Prod [Const (-1); Const 1]; Const (-1)])],
   log_sec_tan, Sec x).
Definition pending_k_1 : Expr :=
  Prod [Power (Sum [Sec x; Tan x]) (Const (-1));
        Sum [Prod [Sec x; Tan x]; Power (Sec x) (Const 2)];
        Power log_sec_tan (Const (-1))].

(** [sec(x)*ln(sec(x) + tan(x))] as a root node, and the choice
    [u = ln(sec(x) + tan(x))], [dv = sec(x)], for which [-u'v] is minus the
    integrand ([k = -1]). *)
Definition node_k_minus_1 : Node :=
  mkNode (Prod [Sec x; log_sec_tan]) "x" None [] UNSET None.
Definition stuff_k_minus_1 : Stuff :=
  (log_sec_tan,
   Prod [Power (Sum [Sec x; Tan x]) (Const (-1)); d_sec_plus_tan],
   log_sec_tan, Sec x).
Definition pending_k_minus_1 : Expr :=
  Prod [Const (-1); Power (Sum [Sec x; Tan x]) (Const (-1));
        log_sec_tan;
        Sum [Prod [Sec x; Tan x]; Power (Sec x) (Const 2)]].

(** * Properties *)

(** ** Inputs used below, as Python builds them *)

Lemma sin_3pi_2_built : forall fp,
  (a <- mul (calls fp 3) (Const 3) Pi ;;
   b <- div (calls fp 3) a (Const 2) ;; Ok (Sin b)) = Ok sin_3pi_2.
Proof. intros fp. vm_compute. reflexivity. Qed.

Lemma sin_2pi_3_built : forall fp,
  (a <- mul (calls fp 3) (Const 2) Pi ;;
   b <- div (calls fp 3) a (Const 3) ;; Ok (Sin b)) = Ok sin_2pi_3.
Proof. intros fp. vm_compute. reflexivity. Qed.

(** ** Induction on expressions *)

Lemma Expr_ind_list (P : Expr -> Prop) :
  (forall v, P (Const v)) -> P Pi -> P E -> (forall s, P (Symbol s)) ->
  (forall l, Forall P l -> P (Sum l)) ->
  (forall l, Forall P l -> P (Prod l)) ->
  (forall b e, P b -> P e -> P (Power b e)) ->
  (forall i, P i -> P (Log i)) ->
  (forall c i, P i -> P (Trig c i)) ->
  forall e, P e.
Proof.
  intros HC HPi HE HS HSum HProd HPow HLog HTrig.
  fix IH 1.
  intros [v| | |s|l|l|b e|i|c i].
  - apply HC.
  - apply HPi.
  - apply HE.
  - apply HS.
  - apply HSum. induction l as [|a l IHl]; constructor; [apply IH | exact IHl].
  - apply HProd. induction l as [|a l IHl]; constructor; [apply IH | exact IHl].
  - apply HPow; apply IH.
  - apply HLog; apply IH.
  - apply HTrig; apply IH.
Qed.

Lemma Qnormal_eq (v w : Q) :
  Qnormal v = true -> Qnormal w = true -> Qeqb v w = true -> v = w.
Proof.
  unfold Qnormal, Qeqb. intros Hv Hw H.
  apply andb_prop in Hv as [Hv1 Hv2]. apply andb_prop in Hw as [Hw1 Hw2].
  apply Z.eqb_eq in Hv1, Hw1. apply Pos.eqb_eq in Hv2, Hw2.
  apply Qeq_bool_iff in H. apply Qred_complete in H.
  assert (Ev : Qred v = v).
  { destruct (Qred v) as [a b], v as [vn vd]. simpl in *. congruence. }
  assert (Ew : Qred w = w).
  { destruct (Qred w) as [a b], w as [wn wd]. simpl in *. congruence. }
  congruence.
Qed.

Lemma TrigClass_eqb_eq (c d : TrigClass) : TrigClass_eqb c d = true -> c = d.
Proof. destruct c, d; simpl; intros H; try reflexivity; discriminate. Qed.

Lemma expr_eqb_Sum (l m : list Expr) :
  expr_eqb (Sum l) (Sum m) = list_expr_eqb l m.
Proof.
  revert m. induction l as [|a l IH]; intros [|b m]; reflexivity.
Qed.

Lemma expr_eqb_Prod (l m : list Expr) :
  expr_eqb (Prod l) (Prod m) = list_expr_eqb l m.
Proof.
  revert m. induction l as [|a l IH]; intros [|b m]; reflexivity.
Qed.

Lemma normalized_Sum (l : list Expr) :
  normalized (Sum l) = forallb normalized l.
Proof. induction l as [|a l IH]; [reflexivity|]. simpl. simpl in IH. rewrite IH. reflexivity. Qed.

Lemma normalized_Prod (l : list Expr) :
  normalized (Prod l) = forallb normalized l.
Proof. induction l as [|a l IH]; [reflexivity|]. simpl. simpl in IH. rewrite IH. reflexivity. Qed.

Lemma list_expr_eqb_eq (l : list Expr) :
  Forall (fun a => forall b, normalized a = true -> normalized b = true ->
                             expr_eqb a b = true -> a = b) l ->
  forall m, forallb normalized l = true -> forallb normalized m = true ->
            list_expr_eqb l m = true -> l = m.
Proof.
  induction 1 as [|a l Ha Hl IH]; intros [|b m] Nl Nm H; simpl in *;
    try reflexivity; try discriminate.
  apply andb_prop in Nl as [Na Nl]. apply andb_prop in Nm as [Nb Nm].
  apply andb_prop in H as [Hab H].
  f_equal; [apply Ha; assumption | apply IH; assumption].
Qed.

(** On expressions whose constants are in lowest terms, [==] is equality. *)
Lemma expr_eqb_eq (a : Expr) : forall b,
  normalized a = true -> normalized b = true -> expr_eqb a b = true -> a = b.
Proof.
  induction a as [v| | |s|l IH|l IH|b1 e1 IHb IHe|i IH|c i IH]
    using Expr_ind_list; intros b Na Nb H.
  - destruct b; try discriminate. simpl in *. f_equal.
    apply Qnormal_eq; assumption.
  - destruct b; try discriminate. reflexivity.
  - destruct b; try discriminate. reflexivity.
  - destruct b; try discriminate. simpl in H. apply String.eqb_eq in H.
    subst. reflexivity.
  - destruct b as [| | | |m| | | |]; try discriminate.
    rewrite expr_eqb_Sum in H. rewrite normalized_Sum in Na, Nb.
    f_equal. eapply list_expr_eqb_eq; eassumption.
  - destruct b as [| | | | |m| | |]; try discriminate.
    rewrite expr_eqb_Prod in H. rewrite normalized_Prod in Na, Nb.
    f_equal. eapply list_expr_eqb_eq; eassumption.
  - destruct b as [| | | | | |b2 e2| |]; try discriminate. simpl in *.
    apply andb_prop in Na as [Na1 Na2]. apply andb_prop in Nb as [Nb1 Nb2].
    apply andb_prop in H as [H1 H2].
    f_equal; [apply IHb | apply IHe]; assumption.
  - destruct b; try discriminate. simpl in *. f_equal. apply IH; assumption.
  - destruct b as [| | | | | | | |d j]; try discriminate. simpl in *.
    apply andb_prop in H as [H1 H2]. apply TrigClass_eqb_eq in H1. subst.
    f_equal. apply IH; assumption.
Qed.

(** ** C1: idempotence of [simplify] *)

(** C1 (the code departs from the claim).  [simplify] is not idempotent:
    [Sin(3*pi/2)] simplifies to the table entry [-Const(1)], the product
    [[-1, 1]], which [simplify] maps on to [Const(-1)]; the two differ
    under [==].  The result does not depend on the floating-point power. *)
Theorem simplify_not_idempotent_at_sin_3pi_2 : forall fp,
  simplify fp 12 sin_3pi_2 = Ok (Prod [Const (-1); Const 1]) /\
  simplify fp 12 (Prod [Const (-1); Const 1]) = Ok (Const (-1)) /\
  expr_eqb (Const (-1)) (Prod [Const (-1); Const 1]) = false.
Proof.
  intros fp. repeat split; vm_compute; reflexivity.
Qed.

(** ** C2: the special values of [Sin] *)

Lemma Rvalue_one_over_sqrt2 (env : string -> R) :
  Rvalue env one_over_sqrt2 = (/ R_sqrt.sqrt 2)%R.
Proof.
  unfold one_over_sqrt2. simpl. unfold Q2R. simpl.
  replace (2 * / 1)%R with 2%R by field.
  replace (1 * / 2)%R with (/ 2)%R by field.
  rewrite Rpower_sqrt by lra.
  assert (H2 : (0 < R_sqrt.sqrt 2)%R) by (apply sqrt_lt_R0; lra).
  field. lra.
Qed.

Lemma sin_2PI3 : Rtrigo_def.sin (2 * PI / 3) = (R_sqrt.sqrt 3 / 2)%R.
Proof.
  replace (2 * PI / 3)%R with (PI - PI / 3)%R by field.
  rewrite sin_PI_x. apply sin_PI3.
Qed.

Lemma one_over_sqrt2_lt_sqrt3_over_2 :
  (/ R_sqrt.sqrt 2 < R_sqrt.sqrt 3 / 2)%R.
Proof.
  assert (H2 : (0 < R_sqrt.sqrt 2)%R) by (apply sqrt_lt_R0; lra).
  assert (H3 : (0 < R_sqrt.sqrt 3)%R) by (apply sqrt_lt_R0; lra).
  assert (S2 : (R_sqrt.sqrt 2 * R_sqrt.sqrt 2 = 2)%R) by (apply sqrt_sqrt; lra).
  assert (S3 : (R_sqrt.sqrt 3 * R_sqrt.sqrt 3 = 3)%R) by (apply sqrt_sqrt; lra).
  apply Rmult_lt_reg_r with (R_sqrt.sqrt 2); [exact H2|].
  rewrite Rinv_l by lra.
  assert (2 < R_sqrt.sqrt 3 * R_sqrt.sqrt 2)%R.
  { destruct (Rlt_or_le 2 (R_sqrt.sqrt 3 * R_sqrt.sqrt 2)) as [H|H];
      [assumption|].
    exfalso.
    assert ((R_sqrt.sqrt 3 * R_sqrt.sqrt 2) * (R_sqrt.sqrt 3 * R_sqrt.sqrt 2)
            <= 2 * 2)%R by (apply Rmult_le_compat; nra).
    nra. }
  lra.
Qed.

(** C2 (the code departs from the claim).  At the key [2/3] the table of
    [Sin] holds [1/sqrt(2)]: [simplify(Sin(2*pi/3))] returns it, its value
    is [1/sqrt 2], and [sin(2*pi/3)] is [sqrt 3 / 2], which is larger. *)
Theorem Sin_special_value_wrong_at_2pi_3 : forall fp env,
  simplify fp 12 sin_2pi_3 = Ok one_over_sqrt2 /\
  Rvalue env one_over_sqrt2 = (/ R_sqrt.sqrt 2)%R /\
  Rvalue env sin_2pi_3 = (R_sqrt.sqrt 3 / 2)%R /\
  (/ R_sqrt.sqrt 2 < R_sqrt.sqrt 3 / 2)%R.
Proof.
  intros fp env. split; [vm_compute; reflexivity|].
  split; [apply Rvalue_one_over_sqrt2|].
  split; [|apply one_over_sqrt2_lt_sqrt3_over_2].
  unfold sin_2pi_3. simpl.
  match goal with
  | |- Rtrigo_def.sin ?a = _ => replace a with (2 * PI / 3)%R
  end.
  - apply sin_2PI3.
  - unfold Q2R; simpl. field.
Qed.

(** ** C4: [==] and the canonical text *)

Lemma one_over_x_built : forall fp,
  div (calls fp 3) (Const 1) x = Ok one_over_x.
Proof. intros fp. vm_compute. reflexivity. Qed.

(** C4, as stated, fails: [1/x] and [x**-1] are both printed ["1/x"] and
    are not [==]; so are the constant [pi] and a symbol named ["pi"]. *)
Lemma equal_repr_not_equal_expr :
  (forall fp, repr fp 5 one_over_x = Ok "1/x" /\
              repr fp 5 x_inverse = Ok "1/x") /\
  expr_eqb one_over_x x_inverse = false /\
  (forall fp, repr fp 1 Pi = Ok "pi" /\ repr fp 1 (Symbol "pi") = Ok "pi") /\
  expr_eqb Pi (Symbol "pi") = false.
Proof.
  repeat split; try (intros fp; vm_compute; reflexivity);
    vm_compute; reflexivity.
Qed.

(** C4, amended: two expressions (constants in lowest terms, as Python's
    [Fraction] keeps them) that are [==] have the same canonical text, at
    every recursion depth. *)
Theorem eq_implies_equal_repr (fp : Q -> Q -> option Q) (fuel : nat)
    (a b : Expr) :
  normalized a = true -> normalized b = true ->
  expr_eqb a b = true -> repr fp fuel a = repr fp fuel b.
Proof.
  intros Na Nb H. rewrite (expr_eqb_eq a b Na Nb H). reflexivity.
Qed.

Lemma eq_implies_equal_repr_witness :
  repr (fun _ _ => None) 5 one_over_x = repr (fun _ _ => None) 5 one_over_x.
Proof.
  apply (eq_implies_equal_repr (fun _ _ => None) 5 one_over_x one_over_x);
    vm_compute; reflexivity.
Defined.

(** ** C6: [Power.diff] *)

(** C6.  With the variable in base and exponent [Power.diff] raises
    ([NotImplementedError] is the class the source raises); with the
    exponent free of the variable the result is
    [exponent * base ** (exponent - 1) * base.diff(var)]; with only the base
    free of it, [Log(base) * self * exponent.diff(var)]. *)
Theorem Power_diff_cases (fp : Q -> Q -> option Q) (n : nat)
    (base exponent : Expr) (var : string) :
  let C := calls fp n in
  (contains base var = true -> contains exponent var = true ->
   expr_diff fp (S n) (Power base exponent) var = Raise NotImplementedError)
  /\
  (contains exponent var = false ->
   expr_diff fp (S n) (Power base exponent) var =
     (x1 <- sub C exponent (Const 1) ;;
      p <- mul C exponent (Power base x1) ;;
      d <- c_diff C base var ;;
      mul C p d))
  /\
  (contains base var = false -> contains exponent var = true ->
   expr_diff fp (S n) (Power base exponent) var =
     (p <- mul C (Log base) (Power base exponent) ;;
      d <- c_diff C exponent var ;;
      mul C p d)).
Proof.
  intros C. unfold expr_diff. simpl. unfold Power_diff, diff. fold C.
  repeat split.
  - intros Hb He. rewrite Hb, He. reflexivity.
  - intros He. rewrite He. reflexivity.
  - intros Hb He. rewrite Hb, He. reflexivity.
Qed.

(** [x^x] raises; [d/dx x^3] simplifies to [3*x^2] and [d/dx 2^x] to
    [ln(2)*2^x]. *)
Lemma Power_diff_cases_witness :
  expr_diff (fun _ _ => None) 1 (Power x x) "x" = Raise NotImplementedError
  /\
  (d <- expr_diff (fun _ _ => None) 8 (Power x (Const 3)) "x" ;;
   s <- simplify (fun _ _ => None) 12 d ;; repr (fun _ _ => None) 8 s)
  = Ok "3*x^2"
  /\
  (d <- expr_diff (fun _ _ => None) 8 (Power (Const 2) x) "x" ;;
   s <- simplify (fun _ _ => None) 12 d ;; repr (fun _ _ => None) 8 s)
  = Ok "ln(2)*2^x".
Proof.
  split.
  - apply (proj1 (Power_diff_cases (fun _ _ => None) 0 x x "x"));
      reflexivity.
  - split.
    + rewrite (proj1 (proj2 (Power_diff_cases (fun _ _ => None) 7 x
                               (Const 3) "x")) eq_refl).
      vm_compute. reflexivity.
    + rewrite (proj2 (proj2 (Power_diff_cases (fun _ _ => None) 7 (Const 2)
                               x "x")) eq_refl eq_refl).
      vm_compute. reflexivity.
Defined.

(** ** C9: solved and failed nodes *)

(** C9, as stated, fails: an [UNSET] node over a solved child is solved,
    over a failed child it is failed; an [AND] or [OR] node without
    children is neither. *)
Lemma is_solved_differs_from_claim :
  is_solved unset_over_solution = true /\
  claimed_is_solved unset_over_solution = false /\
  is_failed unset_over_failure = true /\
  claimed_is_failed unset_over_failure = false /\
  is_solved (mkNode x "x" None [] AND None) = false /\
  claimed_is_solved (mkNode x "x" None [] AND None) = true /\
  is_failed (mkNode x "x" None [] OR None) = false /\
  claimed_is_failed (mkNode x "x" None [] OR None) = true.
Proof. repeat split; reflexivity. Qed.

Lemma forallb_Forall {A : Type} (f : A -> bool) (l : list A) :
  forallb f l = true <-> Forall (fun a => f a = true) l.
Proof. rewrite forallb_forall, Forall_forall. reflexivity. Qed.

Lemma existsb_Exists {A : Type} (f : A -> bool) (l : list A) :
  existsb f l = true <-> Exists (fun a => f a = true) l.
Proof.
  rewrite existsb_exists, Exists_exists. reflexivity.
Qed.

Lemma Exists_not_nil {A : Type} (P : A -> Prop) (l : list A) :
  Exists P l -> l <> [].
Proof. intros H. inversion H; discriminate. Qed.

Lemma is_solved_unfold (n : Node) :
  is_solved n =
  match node.type n with
  | SOLUTION => true
  | AND | UNSET =>
      match node.children n with
      | [] => false
      | _ => forallb is_solved (node.children n)
      end
  | OR => existsb is_solved (node.children n)
  | FAILURE => false
  end.
Proof. destruct n as [e v t [|c cs] [] s]; reflexivity. Qed.

Lemma is_failed_unfold (n : Node) :
  is_failed n =
  match node.type n with
  | FAILURE => true
  | OR =>
      match node.children n with
      | [] => false
      | _ => forallb is_failed (node.children n)
      end
  | _ => existsb is_failed (node.children n)
  end.
Proof. destruct n as [e v t [|c cs] [] s]; reflexivity. Qed.

(** C9, amended: a node is solved iff it is a [SOLUTION] node, or it has a
    child and is an [AND] or [UNSET] node all of whose children are solved,
    or an [OR] node some child of which is solved; it is failed iff it is
    a [FAILURE] node, or it has a child and is an [OR] node all of whose
    children are failed, or a node of another type some child of which is
    failed. *)
Theorem is_solved_is_failed_spec (n : Node) :
  (is_solved n = true <->
     node.type n = SOLUTION \/
     (node.children n <> [] /\
      ((node.type n = AND \/ node.type n = UNSET) /\
       Forall (fun c => is_solved c = true) (node.children n) \/
       node.type n = OR /\
       Exists (fun c => is_solved c = true) (node.children n))))
  /\
  (is_failed n = true <->
     node.type n = FAILURE \/
     (node.children n <> [] /\
      (node.type n = OR /\
       Forall (fun c => is_failed c = true) (node.children n) \/
       node.type n <> OR /\
       Exists (fun c => is_failed c = true) (node.children n)))).
Proof.
  rewrite is_solved_unfold, is_failed_unfold.
  destruct n as [e v t cs ty s]. simpl.
  pose proof (forallb_Forall is_solved cs) as FS.
  pose proof (existsb_Exists is_solved cs) as ES.
  pose proof (forallb_Forall is_failed cs) as FF.
  pose proof (existsb_Exists is_failed cs) as EF.
  pose proof (Exists_not_nil (fun c => is_solved c = true) cs) as NS.
  pose proof (Exists_not_nil (fun c => is_failed c = true) cs) as NF.
  split.
  - destruct ty; destruct cs as [|c cs];
      try (rewrite FS); try (rewrite ES);
      split; intros H;
      try (intuition (try discriminate; try congruence); fail).
  - destruct ty; destruct cs as [|c cs];
      try (rewrite FF); try (rewrite EF);
      split; intros H;
      try (intuition (try discriminate; try congruence); fail).
Qed.

(** ** C10: the expression stored in a node *)

Lemma Node_new_stores_simplify (fp : Q -> Q -> option Q) (fuel : nat)
    (e : Expr) (v : string) (t : option Transform) (ty : NodeType)
    (s : option Expr) :
  Node_new fp fuel e v t ty s =
  (e' <- simplify fp fuel e ;; Ok (mkNode e' v t [] ty s)).
Proof. reflexivity. Qed.

(** C10 (the code departs from the claim).  A node stores
    [expr.simplify()], but the stored expression need not be a fixed point
    of [simplify]: the root built for [Sin(3*pi/2)] holds the product
    [[-1, 1]], which [simplify] maps to [Const(-1)]. *)
Theorem Node_expr_not_fixed_point : forall fp,
  Node_new fp 12 sin_3pi_2 "x" None UNSET None =
    Ok (mkNode (Prod [Const (-1); Const 1]) "x" None [] UNSET None) /\
  simplify fp 12 (Prod [Const (-1); Const 1]) = Ok (Const (-1)) /\
  expr_eqb (Const (-1)) (Prod [Const (-1); Const 1]) = false.
Proof.
  intros fp. repeat split; vm_compute; reflexivity.
Qed.

(** ** C8: integration by parts *)

Lemma Rvalue_Sum (env : string -> R) (l : list Expr) :
  Rvalue env (Sum l) = Rsum env l.
Proof. induction l as [|a l IH]; simpl; [reflexivity|]. simpl in IH. rewrite IH. reflexivity. Qed.

Lemma Rvalue_Prod (env : string -> R) (l : list Expr) :
  Rvalue env (Prod l) = Rprod env l.
Proof. induction l as [|a l IH]; simpl; [reflexivity|]. simpl in IH. rewrite IH. reflexivity. Qed.

Lemma Rvalue_inverse (env : string -> R) (b : Expr) :
  Rvalue env (Power b (Const (-1))) = (/ Rvalue env b)%R.
Proof.
  change (Rvalue env (Power b (Const (-1))))
    with (powerRZ (Rvalue env b) (-1)).
  simpl. rewrite Rmult_1_r. reflexivity.
Qed.


Lemma bind_Ok_inv {A B : Type} (c : Res A) (k : A -> Res B) (b : B) :
  bind c k = Ok b -> exists a, c = Ok a /\ k a = Ok b.
Proof.
  destruct c as [a| | |]; simpl; intros H; try discriminate.
  exists a. split; [reflexivity | exact H].
Qed.

Ltac bind_inv H :=
  let a := fresh "a" in
  let Ha := fresh "Ha" in
  apply bind_Ok_inv in H; destruct H as [a [Ha H]].



(** For a choice [(u, dv)] whose [v] the table gives, [check] stashes
    [(u, du, v, dv)] unless the factor [k = -u'v / integrand] simplifies to
    1.  For a stashed choice [forward] appends: when [k] (taken after
    simplifying [-u'v]) is free of the variable, a [SOLUTION] child with
    solution [uv / (1 - k)]; otherwise an [AND] node over a [SOLUTION]
    child carrying [uv] and a pending child for [-u'v]. *)
Lemma ByParts_check_forward_spec (fp : Q -> Q -> option Q) (fuel : nat)
    (n : Node) (u du v dv : Expr) :
  let C := calls fp fuel in
  let expr := node.expr n in
  let var := node.var n in
  let tr := ByParts [(u, du, v, dv)] in
  (forall factor0,
     c_diff C u var = Ok du ->
     _check_if_solveable fp fuel dv var = Ok (Some v) ->
     (duv <- mul C du v ;; i2 <- mul C duv (Const (-1)) ;;
      q <- div C i2 expr ;; c_simplify C q) = Ok factor0 ->
     ByParts_check_choice fp fuel n u dv =
       Ok (if expr_eqb factor0 (Const 1) then None else Some (u, du, v, dv)))
  /\
  (forall child1 integrand2 factor e',
     (uv <- mul C u v ;; c_simplify C uv) = Ok child1 ->
     (duv <- mul C du v ;; i2 <- mul C duv (Const (-1)) ;;
      c_simplify C i2) = Ok integrand2 ->
     (q <- div C integrand2 expr ;; c_simplify C q) = Ok factor ->
     c_simplify C expr = Ok e' ->
     (contains factor var = false ->
      forall solution,
        (d <- sub C (Const 1) factor ;; div C child1 d) = Ok solution ->
        ByParts_forward fp fuel [(u, du, v, dv)] n =
          Ok (node.append_child n
                (mkNode e' var (Some tr) [] SOLUTION (Some solution))))
     /\
     (contains factor var = true ->
      forall integrand2',
        c_simplify C integrand2 = Ok integrand2' ->
        ByParts_forward fp fuel [(u, du, v, dv)] n =
          Ok (node.append_child n
                (mkNode e' var (Some tr)
                   [mkNode e' var (Some Additivity) [] SOLUTION (Some child1);
                    mkNode integrand2' var (Some Additivity) [] UNSET None]
                   AND None)))).
Proof.
  intros C expr var tr. split.
  - intros factor0 Hdu Hv Hf.
    unfold ByParts_check_choice. fold C expr var.
    rewrite Hdu. simpl. rewrite Hv. simpl.
    bind_inv Hf. bind_inv Hf. bind_inv Hf.
    rewrite Ha. simpl. rewrite Ha0. simpl. rewrite Ha1. simpl.
    rewrite Hf. simpl. destruct (expr_eqb factor0 (Const 1)); reflexivity.
  - intros child1 integrand2 factor e' H1 H2 H3 He.
    bind_inv H1. bind_inv H2. bind_inv H2. bind_inv H3.
    split.
    + intros Hc solution Hs. bind_inv Hs.
      unfold ByParts_forward. fold C expr var.
      rewrite Ha. simpl. rewrite H1. simpl. rewrite Ha0. simpl.
      rewrite Ha1. simpl. rewrite H2. simpl. rewrite Ha2. simpl.
      rewrite H3. simpl. rewrite Hc. simpl.
      rewrite Ha3. simpl. rewrite Hs. simpl.
      unfold Node_new. fold C. rewrite He. reflexivity.
    + intros Hc integrand2' Hi.
      unfold ByParts_forward. fold C expr var.
      rewrite Ha. simpl. rewrite H1. simpl. rewrite Ha0. simpl.
      rewrite Ha1. simpl. rewrite H2. simpl. rewrite Ha2. simpl.
      rewrite H3. simpl. rewrite Hc. simpl.
      unfold Node_new. fold C. rewrite He. simpl. rewrite Hi. reflexivity.
Qed.

(** Discharges the premises of [T] that hold by computation. *)
Ltac feed_computed T :=
  repeat match type of T with
         | ?A -> _ =>
             let H := fresh "H" in
             assert (H : A) by (vm_compute; reflexivity);
             specialize (T H); clear H
         end.

(** [x*cos(x)]: [u = x], [dv = cos(x)] gives the [AND] node over
    [x*sin(x)] and the pending [-sin(x)].  [ln(x)/x]: [u = ln(x)],
    [dv = 1/x] has [k = -1] and gives the solution [ln(x)*ln(x)/(1 - -1)]
    directly.  With [u = 1/x], [dv = 1] the factor is 1 and the choice is
    rejected. *)
Lemma ByParts_check_forward_spec_witness :
  let fp : Q -> Q -> option Q := fun _ _ => None in
  ByParts_check_choice fp 20 node_x_cos_x x (Cos x)
    = Ok (Some (x, Const 1, Sin x, Cos x)) /\
  ByParts_forward fp 20 [(x, Const 1, Sin x, Cos x)] node_x_cos_x
    = Ok (node.append_child node_x_cos_x
            (mkNode (Prod [x; Cos x]) "x"
               (Some (ByParts [(x, Const 1, Sin x, Cos x)]))
               [mkNode (Prod [x; Cos x]) "x" (Some Additivity) [] SOLUTION
                  (Some (Prod [x; Sin x]));
                mkNode (Prod [Const (-1); Sin x]) "x" (Some Additivity) []
                  UNSET None]
               AND None)) /\
  ByParts_forward fp 20
    [(Log x, Prod [Const 1; Power x (Const (-1))], Log x,
      Power x (Const (-1)))] node_ln_x_over_x
    = Ok (node.append_child node_ln_x_over_x
            (mkNode (Prod [Power x (Const (-1)); Log x]) "x"
               (Some (ByParts
                        [(Log x, Prod [Const 1; Power x (Const (-1))], Log x,
                          Power x (Const (-1)))]))
               [] SOLUTION
               (Some (Prod [Power (Sum [Prod [Const (-1); Const (-1)]; Const 1])
                              (Const (-1));
                            Power (Log x) (Const 2)])))) /\
  ByParts_check_choice fp 20 node_k_is_1 (Power x (Const (-1))) (Const 1)
    = Ok None.
Proof.
  intros fp. split; [|split; [|split]].
  - pose proof (proj1 (ByParts_check_forward_spec fp 20 node_x_cos_x x
                         (Const 1) (Sin x) (Cos x))
                  (Prod [Const (-1); Power x (Const (-1)); Sin x;
                         Power (Cos x) (Const (-1))])) as T.
    cbv zeta in T. feed_computed T. exact T.
  - pose proof (proj2 (ByParts_check_forward_spec fp 20 node_x_cos_x x
                         (Const 1) (Sin x) (Cos x))
                  (Prod [x; Sin x]) (Prod [Const (-1); Sin x])
                  (Prod [Const (-1); Power x (Const (-1)); Sin x;
                         Power (Cos x) (Const (-1))])
                  (Prod [x; Cos x])) as T.
    cbv zeta in T. feed_computed T. destruct T as [_ T].
    specialize (T eq_refl (Prod [Const (-1); Sin x])).
    feed_computed T. exact T.
  - pose proof (proj2 (ByParts_check_forward_spec fp 20 node_ln_x_over_x
                         (Log x) (Prod [Const 1; Power x (Const (-1))])
                         (Log x) (Power x (Const (-1))))
                  (Power (Log x) (Const 2))
                  (Prod [Const (-1); Power x (Const (-1)); Log x])
                  (Const (-1))
                  (Prod [Power x (Const (-1)); Log x])) as T.
    cbv zeta in T. feed_computed T. destruct T as [T _].
    specialize (T eq_refl
                  (Prod [Power (Sum [Prod [Const (-1); Const (-1)]; Const 1])
                           (Const (-1));
                         Power (Log x) (Const 2)])).
    feed_computed T. exact T.
  - pose proof (proj1 (ByParts_check_forward_spec fp 20 node_k_is_1
                         (Power x (Const (-1)))
                         (Prod [Const (-1); Const 1;
                                Power x (Sum [Prod [Const (-1); Const 1];
                                              Const (-1)])])
                         x (Const 1))
                  (Const 1)) as T.
    cbv zeta in T. feed_computed T. exact T.
Defined.

(** C8, as stated, fails: the code decides by what [simplify] makes of the
    quotient, not by proportionality.  For [sec(x)/ln(sec(x) + tan(x))]
    with [u = 1/ln(sec(x) + tan(x))], [dv = sec(x)] the pending integrand
    [-u'v] has the value of the integrand wherever [sec(x) + tan(x)] is not
    zero ([k = 1]), yet [check] accepts the choice and [forward] builds the
    [AND] node.  For [sec(x)*ln(sec(x) + tan(x))] with
    [u = ln(sec(x) + tan(x))], [dv = sec(x)] it has minus the value of the
    integrand ([k = -1]), yet [forward] builds the [AND] node and no
    [SOLUTION] child with [uv/2]. *)
Lemma ByParts_not_by_proportionality :
  (forall fp,
     Node_new fp 20 (Prod [Sec x; Power log_sec_tan (Const (-1))]) "x"
       None UNSET None = Ok node_k_1 /\
     ByParts_check fp 20 [] node_k_1 = Ok (true, [stuff_k_1]) /\
     ByParts_forward fp 20 [stuff_k_1] node_k_1
       = Ok (node.append_child node_k_1
               (mkNode (node.expr node_k_1) "x" (Some (ByParts [stuff_k_1]))
                  [mkNode (node.expr node_k_1) "x" (Some Additivity) []
                     SOLUTION (Some (Const 1));
                   mkNode pending_k_1 "x" (Some Additivity) [] UNSET None]
                  AND None)) /\
     Node_new fp 20 (Prod [Sec x; log_sec_tan]) "x" None UNSET None
       = Ok node_k_minus_1 /\
     ByParts_check fp 20 [] node_k_minus_1 = Ok (true, [stuff_k_minus_1]) /\
     ByParts_forward fp 20 [stuff_k_minus_1] node_k_minus_1
       = Ok (node.append_child node_k_minus_1
               (mkNode (node.expr node_k_minus_1) "x"
                  (Some (ByParts [stuff_k_minus_1]))
                  [mkNode (node.expr node_k_minus_1) "x" (Some Additivity) []
                     SOLUTION (Some (Power log_sec_tan (Const 2)));
                   mkNode pending_k_minus_1 "x" (Some Additivity) [] UNSET
                     None]
                  AND None))) /\
  (forall env,
     Rvalue env (Sum [Sec x; Tan x]) <> 0%R ->
     Rvalue env pending_k_1 = (1 * Rvalue env (node.expr node_k_1))%R /\
     Rvalue env pending_k_minus_1
       = (-1 * Rvalue env (node.expr node_k_minus_1))%R) /\
  Rvalue (fun _ => 0%R) (Sum [Sec x; Tan x]) = 1%R.
Proof.
  split; [|split].
  - intros fp. repeat split; vm_compute; reflexivity.
  - intros env H.
    unfold pending_k_1, pending_k_minus_1, node_k_1, node_k_minus_1,
      log_sec_tan in *.
    cbn [node.expr].
    do 3 (rewrite ?Rvalue_Prod, ?Rvalue_Sum, ?Rvalue_inverse in *;
          unfold Rprod, Rsum in *; cbn [fold_right] in *).
    change (Rvalue env (Power (Sec x) (Const 2)))
      with (powerRZ (Rvalue env (Sec x)) 2).
    change (Rvalue env (Const (-1))) with (Q2R (-1)).
    replace (Q2R (-1)) with (-1)%R by (unfold Q2R; simpl; field).
    set (s := Rvalue env (Sec x)) in *. set (t := Rvalue env (Tan x)) in *.
    set (l := Rvalue env (Log (Sum [Sec x; Tan x]))).
    set (il := (/ l)%R). simpl powerRZ.
    split; field; intros E; apply H; lra.
  - cbn. rewrite cos_0, tan_0. field.
Qed.

(** C8, amended.  [check] answers for a product of exactly two factors
    [a*b] by trying [u = a, dv = b] and then [u = b, dv = a] and stashes
    the first choice accepted; for a bare logarithm or inverse
    trigonometric function of the variable it stashes [u] = the integrand,
    [v] = the variable; for every other integrand it answers [False].  It
    stashes at most one choice.  A choice [(u, dv)] whose [v] the table
    gives is stashed unless the quotient [-u'v / integrand] simplifies to
    the constant 1.  For a stashed choice [forward] appends, when the
    simplified quotient of the simplified [-u'v] by the integrand is free
    of the variable, a [SOLUTION] child with solution [uv / (1 - k)], [k]
    that quotient; otherwise an [AND] node over a [SOLUTION] child carrying
    [uv] and a pending child for [-u'v]. *)
Theorem ByParts_check_then_forward (fp : Q -> Q -> option Q) (fuel : nat)
    (n : Node) :
  let C := calls fp fuel in
  let expr := node.expr n in
  let var := node.var n in
  (forall a b _stuff, expr = Prod [a; b] ->
     (forall st, ByParts_check_choice fp fuel n a b = Ok (Some st) ->
        ByParts_check fp fuel _stuff n = Ok (true, (_stuff ++ [st])%list)) /\
     (forall st, ByParts_check_choice fp fuel n a b = Ok None ->
        ByParts_check_choice fp fuel n b a = Ok (Some st) ->
        ByParts_check fp fuel _stuff n = Ok (true, (_stuff ++ [st])%list)) /\
     (ByParts_check_choice fp fuel n a b = Ok None ->
      ByParts_check_choice fp fuel n b a = Ok None ->
      ByParts_check fp fuel _stuff n = Ok (false, _stuff)))
  /\
  (forall terms _stuff, expr = Prod terms -> length terms <> 2%nat ->
     ByParts_check fp fuel _stuff n = Ok (false, _stuff))
  /\
  (forall _stuff du,
     expr = Log (Symbol var) \/
     (exists cls, is_inverse cls = true /\ expr = Trig cls (Symbol var)) ->
     c_diff C expr var = Ok du ->
     ByParts_check fp fuel _stuff n
       = Ok (true, (_stuff ++ [(expr, du, Symbol var, Const 1)])%list))
  /\
  (forall _stuff,
     isProd expr = false ->
     (forall inner, expr = Log inner -> expr_eqb inner (Symbol var) = false) ->
     (forall cls inner, expr = Trig cls inner ->
        is_inverse cls && expr_eqb inner (Symbol var) = false) ->
     ByParts_check fp fuel _stuff n = Ok (false, _stuff))
  /\
  (forall verdict st,
     ByParts_check fp fuel [] n = Ok (verdict, st) ->
     length st = (if verdict then 1%nat else 0%nat))
  /\
  (forall u du v dv factor0,
     c_diff C u var = Ok du ->
     _check_if_solveable fp fuel dv var = Ok (Some v) ->
     (duv <- mul C du v ;; i2 <- mul C duv (Const (-1)) ;;
      q <- div C i2 expr ;; c_simplify C q) = Ok factor0 ->
     ByParts_check_choice fp fuel n u dv =
       Ok (if expr_eqb factor0 (Const 1) then None else Some (u, du, v, dv)))
  /\
  (forall u du dv,
     c_diff C u var = Ok du ->
     _check_if_solveable fp fuel dv var = Ok None ->
     ByParts_check_choice fp fuel n u dv = Ok None)
  /\
  (forall u du v dv child1 integrand2 factor e',
     (uv <- mul C u v ;; c_simplify C uv) = Ok child1 ->
     (duv <- mul C du v ;; i2 <- mul C duv (Const (-1)) ;;
      c_simplify C i2) = Ok integrand2 ->
     (q <- div C integrand2 expr ;; c_simplify C q) = Ok factor ->
     c_simplify C expr = Ok e' ->
     (contains factor var = false ->
      forall solution,
        (d <- sub C (Const 1) factor ;; div C child1 d) = Ok solution ->
        ByParts_forward fp fuel [(u, du, v, dv)] n =
          Ok (node.append_child n
                (mkNode e' var (Some (ByParts [(u, du, v, dv)])) [] SOLUTION
                   (Some solution))))
     /\
     (contains factor var = true ->
      forall integrand2',
        c_simplify C integrand2 = Ok integrand2' ->
        ByParts_forward fp fuel [(u, du, v, dv)] n =
          Ok (node.append_child n
                (mkNode e' var (Some (ByParts [(u, du, v, dv)]))
                   [mkNode e' var (Some Additivity) [] SOLUTION (Some child1);
                    mkNode integrand2' var (Some Additivity) [] UNSET None]
                   AND None)))).
Proof.
  intros C expr var.
  split; [|split; [|split; [|split; [|split; [|split; [|split]]]]]].
  - intros a b _stuff He. unfold ByParts_check. fold expr. rewrite He.
    repeat split.
    + intros st H. rewrite H. reflexivity.
    + intros st H1 H2. rewrite H1. cbn [bind]. rewrite H2. reflexivity.
    + intros H1 H2. rewrite H1. cbn [bind]. rewrite H2. reflexivity.
  - intros terms _stuff He Hlen. unfold ByParts_check. fold expr. rewrite He.
    destruct terms as [|a [|b [|c l]]]; try reflexivity.
    exfalso. apply Hlen. reflexivity.
  - intros _stuff du Hs Hd. unfold ByParts_check. fold expr var C.
    destruct Hs as [He|[cls [Hi He]]]; rewrite He in *; cbn [expr_eqb];
      rewrite String.eqb_refl, ?Hi; cbn [andb]; rewrite Hd; reflexivity.
  - intros _stuff Hp Hl Ht. unfold ByParts_check. fold expr var C.
    destruct expr as [q| | |s|ts|ts|b e|i|cls i]; try reflexivity;
      try discriminate Hp.
    + rewrite (Hl i eq_refl). reflexivity.
    + rewrite (Ht cls i eq_refl). reflexivity.
  - intros verdict st H. unfold ByParts_check in H. fold expr var C in H.
    destruct expr as [q| | |s|ts|ts|b e|i|cls i];
      try (inversion H; reflexivity).
    + destruct ts as [|a [|b [|c l]]]; try (inversion H; reflexivity).
      bind_inv H. destruct a0 as [st0|]; [inversion H; reflexivity|].
      bind_inv H. destruct a0 as [st0|]; inversion H; reflexivity.
    + destruct (expr_eqb i (Symbol var)); [|inversion H; reflexivity].
      bind_inv H. inversion H. reflexivity.
    + destruct (is_inverse cls && expr_eqb i (Symbol var));
        [|inversion H; reflexivity].
      bind_inv H. inversion H. reflexivity.
  - intros u du v dv factor0.
    apply (proj1 (ByParts_check_forward_spec fp fuel n u du v dv)).
  - intros u du dv Hd Hv. unfold ByParts_check_choice. fold C expr var.
    rewrite Hd. cbn [bind]. rewrite Hv. reflexivity.
  - intros u du v dv.
    apply (proj2 (ByParts_check_forward_spec fp fuel n u du v dv)).
Qed.

(** [check] on [x*cos(x)]: [u = x], [dv = cos(x)] is the first choice and
    is accepted. *)
Lemma ByParts_check_then_forward_witness :
  ByParts_check (fun _ _ => None) 20 [] node_x_cos_x
    = Ok (true, [(x, Const 1, Sin x, Cos x)]).
Proof.
  pose proof (ByParts_check_then_forward (fun _ _ => None) 20 node_x_cos_x)
    as T.
  cbv zeta in T. destruct T as [T _].
  destruct (T x (Cos x) [] eq_refl) as [T1 _].
  apply (T1 (x, Const 1, Sin x, Cos x)). vm_compute. reflexivity.
Defined.

(** ** C3: the elementary table *)




(** ** C5: the Pythagorean rewrites of [Sum.simplify] *)








(** ** C7: failure of the search in the earlier engine *)

Section EngineProperties.

Variable X : Type.
Variable simplify0 : X -> Res X.
Variable nesting0 : X -> string -> nat.
Variable table_answer : X -> string -> option X.
Variable check_forward :
  Engine.TransformClass -> Engine.ONode X ->
  Res (option ((X * string) * list (X * string) * option Engine.SetType)).
Variable backward_solution :
  Engine.TransformClass -> Engine.ONode X -> nat -> Res (option X).

Let integrate :=
  Engine.integrate X simplify0 nesting0 table_answer check_forward
    backward_solution.
Let _integrate_heuristically :=
  Engine._integrate_heuristically X simplify0 check_forward.
Let _integrate_safely := Engine._integrate_safely X simplify0 check_forward.
Let apply_transform := Engine.apply_transform X simplify0 check_forward.

Lemma apply_transform_none (c : Engine.TransformClass) (n : Engine.ONode X) :
  check_forward c n = Ok None -> apply_transform c n = Ok None.
Proof.
  intros H. unfold apply_transform, Engine.apply_transform. rewrite H.
  reflexivity.
Qed.

(** A transform that applies leaves the node with at least one child. *)
Lemma apply_transform_children (c : Engine.TransformClass)
    (n n' : Engine.ONode X) :
  apply_transform c n = Ok (Some n') -> Engine.children X n' <> [].
Proof.
  unfold apply_transform, Engine.apply_transform. intros H.
  bind_inv H. destruct a as [[[first rest] ty]|]; [|discriminate].
  bind_inv H. simpl in Ha0. bind_inv Ha0. bind_inv Ha0.
  inversion Ha0; subst. inversion H; subst.
  destruct n as [e v t cs ty0 s]. destruct ty as [[]|]; simpl; discriminate.
Qed.

(** The heuristic pass marks a leaf [FAILURE] when no heuristic applies. *)
Lemma _integrate_heuristically_no_check (n : Engine.ONode X) :
  Engine.children X n = [] ->
  (forall c, In c Engine.HEURISTICS -> check_forward c n = Ok None) ->
  _integrate_heuristically n = Ok (Engine.set_type X n FAILURE).
Proof.
  intros Hc H. unfold _integrate_heuristically, Engine._integrate_heuristically.
  unfold Engine.HEURISTICS in *. unfold Engine.apply_transform.
  rewrite !H by (simpl; tauto). simpl. rewrite Hc. reflexivity.
Qed.

(** The safe pass leaves a node alone when no safe transform applies. *)
Lemma _integrate_safely_no_check (fuel : nat) (n : Engine.ONode X) :
  (forall c, In c Engine.SAFE_TRANSFORMS -> check_forward c n = Ok None) ->
  _integrate_safely (S fuel) n = Ok n.
Proof.
  intros H. unfold _integrate_safely. simpl.
  unfold Engine.SAFE_TRANSFORMS in *. unfold Engine.apply_transform.
  rewrite !H by (simpl; tauto). reflexivity.
Qed.

(** C7 (the code departs from the claim).  When no transform applies to the
    root and the table does not hold its integrand, the heuristic pass marks
    the root [FAILURE], so the root is failed; [integrate] then does not
    reach its [raise NotImplementedError("Failed to integrate ...")]:
    [_get_next_node_post_heuristic] reads [parent.children] of the root's
    parent [None] and the call ends in [AttributeError]. *)
Theorem integrate_failed_root_AttributeError (fuel : nat) (integrand e : X)
    (v : string) :
  simplify0 integrand = Ok e ->
  (forall c, check_forward c (Engine.mk X e v None [] UNSET None) = Ok None) ->
  table_answer e v = None ->
  _integrate_heuristically (Engine.mk X e v None [] UNSET None)
    = Ok (Engine.mk X e v None [] FAILURE None) /\
  Engine.is_failed X (Engine.mk X e v None [] FAILURE None) = true /\
  integrate (S (S fuel)) integrand v = Raise AttributeError.
Proof.
  intros He Hc Ht. split; [|split].
  - rewrite _integrate_heuristically_no_check; auto.
  - reflexivity.
  - unfold integrate, Engine.integrate, Engine.Node_new. rewrite He. simpl.
    unfold Engine.SAFE_TRANSFORMS, Engine.apply_transform.
    rewrite !Hc. simpl.
    unfold Engine.unfinished_leaves, Engine.finished_at. simpl.
    unfold Engine._check_if_solvable. simpl. rewrite Ht. simpl.
    unfold Engine._integrate_heuristically, Engine.HEURISTICS,
      Engine.apply_transform.
    rewrite !Hc. simpl. reflexivity.
Qed.

End EngineProperties.

(** [Integration.integrate(Log(x), x)]: no transform of the file applies to
    a bare logarithm and the table does not hold it. *)
Lemma integrate_failed_root_AttributeError_witness :
  Engine.integrate Expr (fun e => Ok e) (fun _ _ => 0%nat) old_table_answer
    (fun _ _ => Ok None) (fun _ _ _ => Ok None) 2 (Log x) "x"
  = Raise AttributeError.
Proof.
  apply (integrate_failed_root_AttributeError Expr (fun e => Ok e)
           (fun _ _ => 0%nat) old_table_answer (fun _ _ => Ok None)
           (fun _ _ _ => Ok None) 0 (Log x) (Log x) "x");
    reflexivity.
Defined.

(** * Properties of the further parts *)

(** ** The tree of a [Node] *)

Lemma Node_ind_list (P : Node -> Prop) :
  (forall e v t cs ty s, Forall P cs -> P (mkNode e v t cs ty s)) ->
  forall n, P n.
Proof.
  intros H. fix IH 1. intros [e v t cs ty s]. apply H.
  induction cs as [|c cs IHcs]; constructor; [apply IH | exact IHcs].
Qed.

Lemma leaves_unfold (n : Node) :
  leaves n = match node.children n with
             | [] => [n]
             | _ => flat_map leaves (node.children n)
             end.
Proof. destruct n as [e v t [|c cs] ty s]; reflexivity. Qed.

Lemma leaves_not_nil (n : Node) : leaves n <> [].
Proof.
  induction n as [e v t cs ty s IH] using Node_ind_list.
  rewrite leaves_unfold. simpl. destruct cs as [|c cs]; [discriminate|].
  inversion IH as [|? ? Hc _]; subst. simpl.
  destruct (leaves c); [contradiction|discriminate].
Qed.

(** X1.  [leaves] is never empty, and every node it returns has no
    children. *)
Theorem leaves_are_childless (n : Node) :
  leaves n <> [] /\ Forall (fun l => node.children l = []) (leaves n).
Proof.
  split; [apply leaves_not_nil|].
  induction n as [e v t cs ty s IH] using Node_ind_list.
  rewrite leaves_unfold. simpl. destruct cs as [|c cs].
  - constructor; [reflexivity|constructor].
  - remember (c :: cs) as l eqn:El. clear El.
    induction IH as [|a l Ha Hl IHl]; simpl; [constructor|].
    apply Forall_app. split; assumption.
Qed.

Lemma is_finished_leaf (n : Node) :
  node.children n = [] ->
  is_finished n = match node.type n with
                  | SOLUTION | FAILURE => true
                  | _ => false
                  end.
Proof.
  destruct n as [e v t cs ty s]. simpl. intros ->.
  destruct ty; reflexivity.
Qed.

Lemma filter_flat_map_nil {A B : Type} (f : B -> bool) (g : A -> list B)
    (l : list A) :
  filter f (flat_map g l) = [] -> Forall (fun a => filter f (g a) = []) l.
Proof.
  induction l as [|a l IH]; simpl; intros H; [constructor|].
  rewrite filter_app in H. apply app_eq_nil in H as [H1 H2].
  constructor; [exact H1 | apply IH; exact H2].
Qed.

Lemma finished_all_or_any (l : list Node) :
  Forall (fun c => is_finished c = true) l ->
  forallb is_solved l || existsb is_failed l = true /\
  existsb is_solved l || forallb is_failed l = true.
Proof.
  induction 1 as [|a l Ha Hl [IH1 IH2]]; simpl; [split; reflexivity|].
  unfold is_finished in Ha.
  destruct (is_solved a), (is_failed a); simpl in *; try discriminate;
    split; rewrite ?orb_true_r; auto.
Qed.

Lemma finished_children_finished (n : Node) :
  node.children n <> [] ->
  Forall (fun c => is_finished c = true) (node.children n) ->
  is_finished n = true.
Proof.
  destruct n as [e v t [|c cs] ty s]; simpl node.children;
    [contradiction|].
  intros _ Hall. apply finished_all_or_any in Hall as [H1 H2].
  unfold is_finished. destruct ty; try reflexivity; assumption.
Qed.

(** X2.  A node none of whose leaves is unfinished is finished. *)
Theorem no_unfinished_leaves_finished (n : Node) :
  unfinished_leaves n = [] -> is_finished n = true.
Proof.
  unfold unfinished_leaves.
  induction n as [e v t cs ty s IH] using Node_ind_list.
  rewrite leaves_unfold. simpl node.children. destruct cs as [|c cs].
  - simpl filter.
    destruct (is_finished (mkNode e v t [] ty s)); [reflexivity|discriminate].
  - intros H. apply filter_flat_map_nil in H.
    apply finished_children_finished; [discriminate|]. simpl node.children.
    rewrite Forall_forall in *. intros a Ha. apply (IH a Ha), (H a Ha).
Qed.

(** An [AND] node over two solved leaves has no unfinished leaf. *)
Lemma no_unfinished_leaves_finished_witness :
  is_finished
    (mkNode (Sum [x; Sin x]) "x" None
       [mkNode x "x" (Some Additivity) [] SOLUTION
          (Some (Prod [Const (1 # 2); Power x (Const 2)]));
        mkNode (Sin x) "x" (Some Additivity) [] SOLUTION
          (Some (Prod [Const (-1); Cos x]))]
       AND None) = true.
Proof. apply no_unfinished_leaves_finished. reflexivity. Defined.

Lemma filter_nil_Forall {A : Type} (f : A -> bool) (l : list A) :
  filter f l = [] -> Forall (fun a => f a = false) l.
Proof.
  induction l as [|a l IH]; simpl; [constructor|].
  destruct (f a) eqn:Ha; [discriminate|]. intros H.
  constructor; [exact Ha | apply IH; exact H].
Qed.

(** X3.  An unfinished node that has children has an unfinished child. *)
Theorem unfinished_node_has_unfinished_child (n : Node) :
  is_finished n = false -> node.children n <> [] ->
  unfinished_children n <> [].
Proof.
  intros Hn Hc Hu. unfold unfinished_children in Hu.
  assert (Hall : Forall (fun c => is_finished c = true) (node.children n)).
  { destruct (node.children n) as [|c cs] eqn:Ec; [constructor|].
    apply filter_nil_Forall in Hu. rewrite Forall_forall in *.
    intros a Ha. specialize (Hu a Ha). apply negb_false_iff in Hu.
    exact Hu. }
  rewrite (finished_children_finished n Hc Hall) in Hn. discriminate.
Qed.

(** An [OR] node over a failed and a pending child. *)
Lemma unfinished_node_has_unfinished_child_witness :
  unfinished_children
    (mkNode (Sin x) "x" None
       [mkNode (Sin x) "x" (Some RewriteTrig) [] FAILURE None;
        mkNode (Sin x) "x" (Some LinearUSub) [] UNSET None]
       OR None) <> [].
Proof.
  apply unfinished_node_has_unfinished_child;
    [reflexivity | discriminate].
Defined.

(** X4.  In a tree whose [SOLUTION] nodes are leaves no node is both solved
    and failed. *)
Theorem solved_not_failed (n : Node) :
  solutions_are_leaves n = true -> is_solved n = true -> is_failed n = false.
Proof.
  induction n as [e v t cs ty s IH] using Node_ind_list.
  intros Hw Hs.
  assert (Hcs : forallb solutions_are_leaves cs = true).
  { simpl in Hw. destruct ty, cs; try discriminate; exact Hw. }
  assert (Hex : forall a, In a cs -> is_solved a = true ->
                          is_failed a = false).
  { intros a Ha. rewrite Forall_forall in IH. apply (IH a Ha).
    rewrite forallb_forall in Hcs. apply (Hcs a Ha). }
  destruct cs as [|c cs].
  { destruct ty; try reflexivity; discriminate Hs. }
  remember (c :: cs) as l eqn:El.
  destruct ty; rewrite is_solved_unfold in Hs; rewrite is_failed_unfold;
    simpl node.type in *; simpl node.children in *; subst l;
    try discriminate.
  - (* AND *)
    apply not_true_is_false. intros Hf.
    apply existsb_exists in Hf as [a [Ha Hfa]].
    rewrite forallb_forall in Hs. rewrite (Hex a Ha (Hs a Ha)) in Hfa.
    discriminate.
  - (* OR *)
    apply not_true_is_false. intros Hf.
    apply existsb_exists in Hs as [a [Ha Hsa]].
    rewrite forallb_forall in Hf. specialize (Hf a Ha).
    rewrite (Hex a Ha Hsa) in Hf. discriminate.
  - (* UNSET *)
    apply not_true_is_false. intros Hf.
    apply existsb_exists in Hf as [a [Ha Hfa]].
    rewrite forallb_forall in Hs. rewrite (Hex a Ha (Hs a Ha)) in Hfa.
    discriminate.
Qed.

Lemma solved_not_failed_witness :
  is_failed
    (mkNode (Sum [x; Sin x]) "x" None
       [mkNode x "x" (Some Additivity) [] SOLUTION
          (Some (Prod [Const (1 # 2); Power x (Const 2)]));
        mkNode (Sin x) "x" (Some Additivity) [] SOLUTION
          (Some (Prod [Const (-1); Cos x]))]
       AND None) = false.
Proof. apply solved_not_failed; reflexivity. Defined.

(** ** [contains], [symbols], [count] and [nesting] *)

Lemma contains_Sum (l : list Expr) (v : string) :
  contains (Sum l) v = existsb (fun t => contains t v) l.
Proof. simpl. induction l as [|a l IH]; simpl; congruence. Qed.

Lemma contains_Prod (l : list Expr) (v : string) :
  contains (Prod l) v = existsb (fun t => contains t v) l.
Proof. simpl. induction l as [|a l IH]; simpl; congruence. Qed.

Lemma symbols_Sum (l : list Expr) :
  symbols (Sum l) = nodup string_dec (flat_map symbols l).
Proof.
  simpl; f_equal; induction l as [|a l IH]; simpl; congruence.
Qed.

Lemma symbols_Prod (l : list Expr) :
  symbols (Prod l) = nodup string_dec (flat_map symbols l).
Proof.
  simpl; f_equal; induction l as [|a l IH]; simpl; congruence.
Qed.

Lemma contains_symbols_list (l : list Expr) (v : string) :
  Forall (fun e => contains e v = true <-> In v (symbols e)) l ->
  existsb (fun t => contains t v) l = true <-> In v (flat_map symbols l).
Proof.
  induction 1 as [|a l Ha Hl IH]; simpl.
  - split; [discriminate | contradiction].
  - rewrite orb_true_iff, in_app_iff, Ha, IH. reflexivity.
Qed.

Lemma contains_In_symbols (e : Expr) (v : string) :
  contains e v = true <-> In v (symbols e).
Proof.
  induction e as [q| | |s|l IH|l IH|b x IHb IHx|i IH|c i IH]
    using Expr_ind_list.
  - simpl. split; [discriminate | contradiction].
  - simpl. split; [discriminate | contradiction].
  - simpl. split; [discriminate | contradiction].
  - simpl. rewrite String.eqb_eq. split; [intros ->; left; reflexivity|].
    intros [H|[]]; exact H.
  - rewrite contains_Sum, symbols_Sum, nodup_In.
    apply contains_symbols_list, IH.
  - rewrite contains_Prod, symbols_Prod, nodup_In.
    apply contains_symbols_list, IH.
  - change (symbols (Power b x))
      with (nodup string_dec (symbols b ++ symbols x)%list).
    change (contains (Power b x) v) with (contains b v || contains x v).
    rewrite nodup_In, in_app_iff, orb_true_iff, IHb, IHx. reflexivity.
  - change (symbols (Log i)) with (nodup string_dec (symbols i)).
    change (contains (Log i) v) with (contains i v).
    rewrite nodup_In. exact IH.
  - change (symbols (Trig c i)) with (nodup string_dec (symbols i)).
    change (contains (Trig c i) v) with (contains i v).
    rewrite nodup_In. exact IH.
Qed.

(** X5.  [expr.contains(var)] holds exactly when [var] is among
    [expr.symbols()]. *)
Theorem contains_iff_in_symbols (e : Expr) (v : string) :
  contains e v = true <-> In v (symbols e).
Proof. apply contains_In_symbols. Qed.

Lemma count_Sum (l : list Expr) (q : Expr) :
  count (Sum l) q =
    if expr_eqb (Sum l) q then 1%nat
    else fold_right (fun t n => (count t q + n)%nat) 0%nat l.
Proof.
  destruct (expr_eqb (Sum l) q) eqn:H; cbn [count]; rewrite H;
    [reflexivity|].
  clear H. induction l as [|a l IH]; simpl; congruence.
Qed.

Lemma count_Prod (l : list Expr) (q : Expr) :
  count (Prod l) q =
    if expr_eqb (Prod l) q then 1%nat
    else fold_right (fun t n => (count t q + n)%nat) 0%nat l.
Proof.
  destruct (expr_eqb (Prod l) q) eqn:H; cbn [count]; rewrite H;
    [reflexivity|].
  clear H. induction l as [|a l IH]; simpl; congruence.
Qed.

Lemma count_symbol_list (l : list Expr) (v : string) :
  Forall (fun e => (1 <= count e (Symbol v))%nat <-> contains e v = true) l ->
  (1 <= fold_right (fun t n => (count t (Symbol v) + n)%nat) 0%nat l)%nat <->
  existsb (fun t => contains t v) l = true.
Proof.
  induction 1 as [|a l Ha Hl IH]; simpl.
  - split; [lia | discriminate].
  - rewrite orb_true_iff, <- Ha, <- IH. lia.
Qed.

(** X6.  [count(expr, var)] is at least one exactly when [expr] contains
    [var]: the first test of [LinearUSub.check] is a test of
    [contains]. *)
Theorem count_symbol_iff_contains (e : Expr) (v : string) :
  (1 <= count e (Symbol v))%nat <-> contains e v = true.
Proof.
  induction e as [q| | |s|l IH|l IH|b x IHb IHx|i IH|c i IH]
    using Expr_ind_list.
  - simpl. split; [lia | discriminate].
  - simpl. split; [lia | discriminate].
  - simpl. split; [lia | discriminate].
  - simpl. destruct (String.eqb s v); split; try reflexivity; try lia;
      discriminate.
  - rewrite count_Sum, contains_Sum. simpl expr_eqb.
    apply count_symbol_list, IH.
  - rewrite count_Prod, contains_Prod. simpl expr_eqb.
    apply count_symbol_list, IH.
  - change (count (Power b x) (Symbol v))
      with (count b (Symbol v) + count x (Symbol v))%nat.
    change (contains (Power b x) v) with (contains b v || contains x v).
    rewrite orb_true_iff, <- IHb, <- IHx. lia.
  - exact IH.
  - exact IH.
Qed.

Lemma nesting_Sum (var : option string) (l : list Expr) :
  nesting var (Sum l) =
    if negb match var with
            | Some v => contains (Sum l) v
            | None => true
            end
    then Ok 0%nat
    else match l with
         | [] => Ok 0%nat
         | _ => n <- nesting_max var l ;; Ok (S n)
         end.
Proof.
  cbn [nesting].
  destruct (negb match var with
                 | Some v => contains (Sum l) v
                 | None => true
                 end); [reflexivity|].
  assert (H : forall l0,
             (fix maxi (l1 : list Expr) : Res nat :=
                match l1 with
                | [] => Ok 0%nat
                | x :: r =>
                    n <- nesting var x ;; m <- maxi r ;; Ok (Nat.max n m)
                end) l0 = nesting_max var l0).
  { induction l0 as [|a l0 IH]; cbn [nesting_max]; [reflexivity|].
    rewrite IH. reflexivity. }
  destruct l as [|a l]; [reflexivity|]. rewrite H. reflexivity.
Qed.

Lemma nesting_Prod (var : option string) (l : list Expr) :
  nesting var (Prod l) =
    if negb match var with
            | Some v => contains (Prod l) v
            | None => true
            end
    then Ok 0%nat
    else match l with
         | [] => Raise IndexError
         | [Const c; t] =>
             if Qeqb c (-1) then nesting var t
             else m <- nesting var t ;; Ok (S m)
         | _ => n <- nesting_max var l ;; Ok (S n)
         end.
Proof.
  cbn [nesting].
  destruct (negb match var with
                 | Some v => contains (Prod l) v
                 | None => true
                 end); [reflexivity|].
  assert (H : forall l0,
             (fix maxi (l1 : list Expr) : Res nat :=
                match l1 with
                | [] => Ok 0%nat
                | x :: r =>
                    n <- nesting var x ;; m <- maxi r ;; Ok (Nat.max n m)
                end) l0 = nesting_max var l0).
  { induction l0 as [|a l0 IH]; cbn [nesting_max]; [reflexivity|].
    rewrite IH. reflexivity. }
  destruct l as [|a [|b [|c l]]]; try reflexivity;
    destruct a; try reflexivity; rewrite ?H; reflexivity.
Qed.

Lemma nesting_max_total (v : string) (l : list Expr) :
  Forall (fun e => exists n, nesting (Some v) e = Ok n /\
                             (n = 0%nat <-> contains e v = false)) l ->
  exists m, nesting_max (Some v) l = Ok m.
Proof.
  induction 1 as [|a l [n [Hn _]] _ [m Hm]]; cbn [nesting_max].
  - exists 0%nat. reflexivity.
  - rewrite Hn, Hm. eexists. reflexivity.
Qed.

(** X7.  With a variable given, [nesting] raises nothing, and it is zero
    exactly on the expressions that do not contain the variable. *)
Theorem nesting_var_zero_iff (e : Expr) (v : string) :
  exists n, nesting (Some v) e = Ok n /\
            (n = 0%nat <-> contains e v = false).
Proof.
  induction e as [q| | |s|l IH|l IH|b x IHb IHx|i IH|c i IH]
    using Expr_ind_list.
  - exists 0%nat. split; [reflexivity | split; reflexivity].
  - exists 0%nat. split; [reflexivity | split; reflexivity].
  - exists 0%nat. split; [reflexivity | split; reflexivity].
  - cbn [nesting contains]. destruct (String.eqb s v); cbn [negb].
    + exists 1%nat. split; [reflexivity | split; discriminate].
    + exists 0%nat. split; [reflexivity | split; reflexivity].
  - rewrite nesting_Sum. destruct (contains (Sum l) v) eqn:Hc; cbn [negb].
    + destruct (nesting_max_total v l IH) as [m Hm].
      destruct l as [|a l]; [discriminate Hc|]. rewrite Hm.
      exists (S m). split; [reflexivity | split; discriminate].
    + exists 0%nat. split; [reflexivity | split; reflexivity].
  - rewrite nesting_Prod. destruct (contains (Prod l) v) eqn:Hc; cbn [negb].
    + destruct (nesting_max_total v l IH) as [m Hm].
      assert (Hgen : exists n, (n0 <- nesting_max (Some v) l ;; Ok (S n0))
                                 = Ok n /\
                               (n = 0%nat <-> true = false)).
      { rewrite Hm. exists (S m). split; [reflexivity | split; discriminate]. }
      destruct l as [|a [|b [|d l]]];
        [discriminate Hc | destruct a; exact Hgen | |
         destruct a; exact Hgen].
      destruct a as [q| | | | | | | |]; try exact Hgen.
      inversion IH as [|? ? _ IH']; subst.
      inversion IH' as [|? ? [n [Hn Hz]] _]; subst.
      assert (Hb : contains b v = true).
      { rewrite contains_Prod in Hc. simpl in Hc.
        rewrite orb_false_r in Hc. exact Hc. }
      assert (Hn0 : n <> 0%nat).
      { intros H0. apply Hz in H0. congruence. }
      rewrite Hn. destruct (Qeqb q (-1)).
      * exists n. split; [reflexivity | split; [contradiction|discriminate]].
      * exists (S n). split; [reflexivity | split; discriminate].
    + exists 0%nat. split; [reflexivity | split; reflexivity].
  - cbn [nesting]. destruct (contains (Power b x) v) eqn:Hc; cbn [negb].
    + destruct IHb as [n [Hn _]]. destruct IHx as [m [Hm _]].
      rewrite Hn, Hm. exists (S (Nat.max n m)).
      split; [reflexivity | split; discriminate].
    + exists 0%nat. split; [reflexivity | split; reflexivity].
  - cbn [nesting]. destruct (contains (Log i) v) eqn:Hc; cbn [negb].
    + destruct IH as [n [Hn _]]. rewrite Hn. exists (S n).
      split; [reflexivity | split; discriminate].
    + exists 0%nat. split; [reflexivity | split; reflexivity].
  - cbn [nesting]. destruct (contains (Trig c i) v) eqn:Hc; cbn [negb].
    + destruct IH as [n [Hn _]]. rewrite Hn. exists (S n).
      split; [reflexivity | split; discriminate].
    + exists 0%nat. split; [reflexivity | split; reflexivity].
Qed.

Lemma nesting_max_le (v : string) (l : list Expr) :
  Forall (fun e => forall n m, nesting (Some v) e = Ok n ->
                               nesting None e = Ok m -> (n <= m)%nat) l ->
  forall a b, nesting_max (Some v) l = Ok a -> nesting_max None l = Ok b ->
              (a <= b)%nat.
Proof.
  induction 1 as [|e l He Hl IH]; cbn [nesting_max]; intros a b Ha Hb.
  - inversion Ha; inversion Hb; lia.
  - bind_inv Ha. bind_inv Ha. bind_inv Hb. bind_inv Hb.
    inversion Ha; inversion Hb; subst.
    specialize (He _ _ Ha0 Ha2). specialize (IH _ _ Ha1 Ha3). lia.
Qed.

(** X8.  The nesting of an expression with respect to a variable is at
    most its nesting. *)
Theorem nesting_var_le_nesting (e : Expr) (v : string) :
  forall n m, nesting (Some v) e = Ok n -> nesting None e = Ok m ->
              (n <= m)%nat.
Proof.
  induction e as [q| | |s|l IH|l IH|b x IHb IHx|i IH|c i IH]
    using Expr_ind_list; intros n m Hn Hm.
  - inversion Hn; lia.
  - inversion Hn; lia.
  - inversion Hn; lia.
  - cbn in Hn, Hm. inversion Hm; subst.
    destruct (String.eqb s v); cbn in Hn; inversion Hn; lia.
  - rewrite nesting_Sum in Hn, Hm. cbn [negb] in Hm.
    destruct (negb (contains (Sum l) v)); [inversion Hn; lia|].
    destruct l as [|a l]; [inversion Hn; lia|].
    bind_inv Hn. bind_inv Hm. inversion Hn; inversion Hm; subst.
    pose proof (nesting_max_le v _ IH _ _ Ha Ha0). lia.
  - rewrite nesting_Prod in Hn, Hm. cbn [negb] in Hm.
    destruct (negb (contains (Prod l) v)); [inversion Hn; lia|].
    assert (Hgen : (n0 <- nesting_max (Some v) l ;; Ok (S n0)) = Ok n ->
                   (n0 <- nesting_max None l ;; Ok (S n0)) = Ok m ->
                   (n <= m)%nat).
    { intros Hn' Hm'. bind_inv Hn'. bind_inv Hm'.
      inversion Hn'; inversion Hm'; subst.
      pose proof (nesting_max_le v _ IH _ _ Ha Ha0). lia. }
    destruct l as [|a [|b [|d l]]];
      [discriminate Hn | destruct a; exact (Hgen Hn Hm) | |
       destruct a; exact (Hgen Hn Hm)].
    destruct a as [q| | | | | | | |]; try exact (Hgen Hn Hm).
    inversion IH as [|? ? _ IH']; subst.
    inversion IH' as [|? ? Hb _]; subst.
    destruct (Qeqb q (-1)); [exact (Hb _ _ Hn Hm)|].
    bind_inv Hn. bind_inv Hm. inversion Hn; inversion Hm; subst.
    specialize (Hb _ _ Ha Ha0). lia.
  - cbn [nesting negb] in Hn, Hm.
    destruct (negb (contains (Power b x) v)); [inversion Hn; lia|].
    bind_inv Hn. bind_inv Hn. bind_inv Hm. bind_inv Hm.
    inversion Hn; inversion Hm; subst.
    specialize (IHb _ _ Ha Ha1). specialize (IHx _ _ Ha0 Ha2). lia.
  - cbn [nesting negb] in Hn, Hm.
    destruct (negb (contains (Log i) v)); [inversion Hn; lia|].
    bind_inv Hn. bind_inv Hm. inversion Hn; inversion Hm; subst.
    specialize (IH _ _ Ha Ha0). lia.
  - cbn [nesting negb] in Hn, Hm.
    destruct (negb (contains (Trig c i) v)); [inversion Hn; lia|].
    bind_inv Hn. bind_inv Hm. inversion Hn; inversion Hm; subst.
    specialize (IH _ _ Ha Ha0). lia.
Qed.

(** [nesting(x * y**2, x)] is 2, [nesting(x * y**2)] is 3. *)
Lemma nesting_var_le_nesting_witness :
  nesting (Some "x") (Prod [x; Power (Symbol "y") (Const 2)]) = Ok 2%nat /\
  nesting None (Prod [x; Power (Symbol "y") (Const 2)]) = Ok 3%nat /\
  (2 <= 3)%nat.
Proof.
  split; [reflexivity | split; [reflexivity|]].
  apply (nesting_var_le_nesting (Prod [x; Power (Symbol "y") (Const 2)]) "x");
    reflexivity.
Defined.

(** ** [==] *)

Lemma list_expr_eqb_refl (l : list Expr) :
  Forall (fun a => expr_eqb a a = true) l -> list_expr_eqb l l = true.
Proof.
  induction 1 as [|a l Ha _ IH]; simpl; [reflexivity|].
  rewrite Ha, IH. reflexivity.
Qed.

Lemma list_expr_eqb_sym (l : list Expr) :
  Forall (fun a => forall b, expr_eqb a b = expr_eqb b a) l ->
  forall m, list_expr_eqb l m = list_expr_eqb m l.
Proof.
  induction 1 as [|a l Ha _ IH]; intros [|b m]; simpl; try reflexivity.
  rewrite Ha, IH. reflexivity.
Qed.

Lemma list_expr_eqb_trans (l : list Expr) :
  Forall (fun a => forall b c, expr_eqb a b = true -> expr_eqb b c = true ->
                               expr_eqb a c = true) l ->
  forall m k, list_expr_eqb l m = true -> list_expr_eqb m k = true ->
              list_expr_eqb l k = true.
Proof.
  induction 1 as [|a l Ha _ IH]; intros [|b m] [|c k]; simpl;
    try reflexivity; try discriminate.
  intros H1 H2. apply andb_prop in H1 as [H1 H1'].
  apply andb_prop in H2 as [H2 H2'].
  rewrite (Ha _ _ H1 H2), (IH _ _ H1' H2'). reflexivity.
Qed.

Lemma TrigClass_eqb_refl (c : TrigClass) : TrigClass_eqb c c = true.
Proof. destruct c; reflexivity. Qed.

Lemma TrigClass_eqb_sym (c d : TrigClass) :
  TrigClass_eqb c d = TrigClass_eqb d c.
Proof. destruct c, d; reflexivity. Qed.

Lemma Qeqb_sym (a b : Q) : Qeqb a b = Qeqb b a.
Proof.
  unfold Qeqb. destruct (Qeq_bool a b) eqn:H1, (Qeq_bool b a) eqn:H2;
    try reflexivity.
  - apply Qeq_bool_iff in H1. symmetry in H1. apply Qeq_bool_iff in H1.
    congruence.
  - apply Qeq_bool_iff in H2. symmetry in H2. apply Qeq_bool_iff in H2.
    congruence.
Qed.

(** X9.  [==] on expressions is reflexive, symmetric and transitive. *)
Theorem expr_eqb_equivalence :
  (forall a, expr_eqb a a = true) /\
  (forall a b, expr_eqb a b = expr_eqb b a) /\
  (forall a b c, expr_eqb a b = true -> expr_eqb b c = true ->
                 expr_eqb a c = true).
Proof.
  split; [|split].
  - induction a as [q| | |s|l IH|l IH|b x IHb IHx|i IH|c i IH]
      using Expr_ind_list.
    + apply Qeq_bool_iff. reflexivity.
    + reflexivity.
    + reflexivity.
    + apply String.eqb_refl.
    + rewrite expr_eqb_Sum. apply list_expr_eqb_refl, IH.
    + rewrite expr_eqb_Prod. apply list_expr_eqb_refl, IH.
    + simpl. rewrite IHb, IHx. reflexivity.
    + exact IH.
    + simpl. rewrite TrigClass_eqb_refl. exact IH.
  - induction a as [q| | |s|l IH|l IH|b x IHb IHx|i IH|c i IH]
      using Expr_ind_list; intros [q'| | |s'|l'|l'|b' x'|i'|c' i'];
      try reflexivity.
    + apply Qeqb_sym.
    + apply String.eqb_sym.
    + rewrite !expr_eqb_Sum. apply list_expr_eqb_sym, IH.
    + rewrite !expr_eqb_Prod. apply list_expr_eqb_sym, IH.
    + simpl. rewrite IHb, IHx. reflexivity.
    + simpl. apply IH.
    + simpl. rewrite TrigClass_eqb_sym, IH. reflexivity.
  - induction a as [q| | |s|l IH|l IH|b x IHb IHx|i IH|c i IH]
      using Expr_ind_list;
      intros [q'| | |s'|l'|l'|b' x'|i'|c' i'] [q''| | |s''|l''|l''|b'' x''|i''|c'' i''];
      try discriminate; try reflexivity.
    + unfold expr_eqb, Qeqb. intros H1 H2.
      apply Qeq_bool_iff in H1, H2. apply Qeq_bool_iff.
      rewrite H1. exact H2.
    + simpl. intros H1 H2. apply String.eqb_eq in H1, H2.
      apply String.eqb_eq. congruence.
    + rewrite !expr_eqb_Sum. apply list_expr_eqb_trans, IH.
    + rewrite !expr_eqb_Prod. apply list_expr_eqb_trans, IH.
    + simpl. intros H1 H2. apply andb_prop in H1 as [H1 H1'].
      apply andb_prop in H2 as [H2 H2'].
      rewrite (IHb _ _ H1 H2), (IHx _ _ H1' H2'). reflexivity.
    + simpl. apply IH.
    + simpl. intros H1 H2. apply andb_prop in H1 as [H1 H1'].
      apply andb_prop in H2 as [H2 H2'].
      rewrite (IH _ _ H1' H2').
      destruct c, c', c''; try discriminate; reflexivity.
Qed.

(** ** [Associative.__post_init__]: flattening and sorting *)

Lemma insert_sorted_Permutation (lt : Expr -> Expr -> Res bool) (x : Expr)
    (l l' : list Expr) :
  insert_sorted lt x l = Ok l' -> Permutation (x :: l) l'.
Proof.
  revert l'. induction l as [|y r IH]; simpl; intros l' H.
  - inversion H. apply Permutation_refl.
  - bind_inv H. destruct a.
    + inversion H. apply Permutation_refl.
    + bind_inv H. inversion H. subst.
      eapply Permutation_trans; [apply perm_swap|].
      apply perm_skip. apply IH. exact Ha0.
Qed.

Lemma sorted_from_Permutation (lt : Expr -> Expr -> Res bool)
    (l acc l' : list Expr) :
  sorted_from lt acc l = Ok l' -> Permutation (acc ++ l) l'.
Proof.
  revert acc l'. induction l as [|x r IH]; simpl; intros acc l' H.
  - inversion H. rewrite app_nil_r. apply Permutation_refl.
  - bind_inv H. apply IH in H. apply insert_sorted_Permutation in Ha.
    eapply Permutation_trans; [|exact H].
    eapply Permutation_trans; [apply Permutation_sym, Permutation_middle|].
    apply (Permutation_app_tail r Ha).
Qed.

Lemma _sort_Permutation (C : Calls) (l l' : list Expr) :
  _sort C l = Ok l' -> Permutation l l'.
Proof. apply (sorted_from_Permutation (_compare_lt C) l []). Qed.

(** X10.  Sorting the terms of a sum or product neither loses nor
    duplicates a term: what [_sort_inplace] stores is a permutation of the
    terms it was given, whatever the comparison answers. *)
Theorem _sort_is_permutation (C : Calls) (terms sorted : list Expr) :
  _sort C terms = Ok sorted ->
  Permutation terms sorted /\ length sorted = length terms.
Proof.
  intros H. apply _sort_Permutation in H.
  split; [exact H | symmetry; apply Permutation_length, H].
Qed.

Lemma _sort_is_permutation_witness :
  Permutation [Sin x; x; Const 2] [Const 2; x; Sin x] /\
  length [Const 2; x; Sin x] = length [Sin x; x; Const 2].
Proof.
  apply (_sort_is_permutation (calls (fun _ _ => None) 20)).
  vm_compute. reflexivity.
Defined.

Lemma _flatten_terms_eq (C : Calls) (sum : bool) (t : Expr) :
  _flatten_terms C sum t =
    match t, sum with
    | Sum ts, true => new_terms <- _flatten_inplace C sum ts ;; _sort C new_terms
    | Prod ts, false =>
        new_terms <- _flatten_inplace C sum ts ;; _sort C new_terms
    | _, _ => Ok [t]
    end.
Proof.
  assert (H : forall l,
             (fix go (l : list Expr) : Res (list Expr) :=
                match l with
                | [] => Ok []
                | x :: r =>
                    xs <- _flatten_terms C sum x ;;
                    rs <- go r ;; Ok (xs ++ rs)%list
                end) l = _flatten_inplace C sum l).
  { induction l as [|a l IH]; cbn [_flatten_inplace]; [reflexivity|].
    rewrite IH. reflexivity. }
  destruct t, sum; try reflexivity; cbn [_flatten_terms]; rewrite H;
    reflexivity.
Qed.

Lemma _flatten_inplace_Forall (C : Calls) (sum : bool) (P : Expr -> Prop)
    (ts : list Expr) :
  Forall (fun t => forall l, _flatten_terms C sum t = Ok l -> Forall P l) ts ->
  forall l, _flatten_inplace C sum ts = Ok l -> Forall P l.
Proof.
  induction 1 as [|t ts Ht _ IH]; cbn [_flatten_inplace]; intros l H.
  - inversion H. constructor.
  - bind_inv H. bind_inv H. inversion H. subst.
    apply Forall_app. split; [apply Ht, Ha | apply IH, Ha0].
Qed.

Lemma _flatten_terms_flat (C : Calls) (sum : bool) (t : Expr) :
  forall l, _flatten_terms C sum t = Ok l ->
            Forall (fun x => is_cls sum x = false) l.
Proof.
  induction t as [q| | |s|ts IH|ts IH|b x IHb IHx|i IH|c i IH]
    using Expr_ind_list; intros l H; rewrite _flatten_terms_eq in H;
    destruct sum; try (inversion H; subst; repeat constructor; fail).
  - bind_inv H. apply _sort_Permutation in H.
    eapply Permutation_Forall; [exact H|].
    eapply _flatten_inplace_Forall; [exact IH | exact Ha].
  - bind_inv H. apply _sort_Permutation in H.
    eapply Permutation_Forall; [exact H|].
    eapply _flatten_inplace_Forall; [exact IH | exact Ha].
Qed.

(** X11.  A sum never holds a sum among its terms, and a product never a
    product: [__post_init__] flattens every level. *)
Theorem constructed_terms_are_flat (C : Calls) (terms : list Expr) (e : Expr) :
  (mkSum C terms = Ok e ->
   exists l, e = Sum l /\ Forall (fun t => isSum t = false) l) /\
  (mkProd C terms = Ok e ->
   exists l, e = Prod l /\ Forall (fun t => isProd t = false) l).
Proof.
  split; intros H; unfold mkSum, mkProd in H; bind_inv H; bind_inv H;
    inversion H; subst; eexists; (split; [reflexivity|]);
    apply _sort_Permutation in Ha0;
    (eapply Permutation_Forall; [exact Ha0|]);
    (eapply _flatten_inplace_Forall; [|exact Ha]);
    apply Forall_forall; intros t _ l Hl.
  - apply (_flatten_terms_flat C true t l Hl).
  - apply (_flatten_terms_flat C false t l Hl).
Qed.

(** ** The value of a constructed sum or product *)

Lemma Rsum_app (env : string -> R) (l m : list Expr) :
  Rsum env (l ++ m) = (Rsum env l + Rsum env m)%R.
Proof.
  induction l as [|a l IH]; simpl; [lra|]. fold (Rsum env (l ++ m)).
  fold (Rsum env l). rewrite IH. lra.
Qed.

Lemma Rprod_app (env : string -> R) (l m : list Expr) :
  Rprod env (l ++ m) = (Rprod env l * Rprod env m)%R.
Proof.
  induction l as [|a l IH]; simpl; [lra|]. fold (Rprod env (l ++ m)).
  fold (Rprod env l). rewrite IH. ring.
Qed.

Lemma Rsum_Permutation (env : string -> R) (l m : list Expr) :
  Permutation l m -> Rsum env l = Rsum env m.
Proof.
  induction 1; unfold Rsum in *; simpl; try lra; congruence.
Qed.

Lemma Rprod_Permutation (env : string -> R) (l m : list Expr) :
  Permutation l m -> Rprod env l = Rprod env m.
Proof.
  induction 1; unfold Rprod in *; simpl; try ring; congruence.
Qed.

Lemma _flatten_inplace_value (C : Calls) (sum : bool) (env : string -> R)
    (ts : list Expr) :
  Forall (fun t => forall l, _flatten_terms C sum t = Ok l ->
                             (if sum then Rsum env l else Rprod env l)
                             = Rvalue env t) ts ->
  forall l, _flatten_inplace C sum ts = Ok l ->
            (if sum then Rsum env l else Rprod env l)
            = (if sum then Rsum env ts else Rprod env ts).
Proof.
  induction 1 as [|t ts Ht _ IH]; cbn [_flatten_inplace]; intros l H.
  - inversion H. reflexivity.
  - bind_inv H. bind_inv H. inversion H. subst.
    specialize (Ht _ Ha). specialize (IH _ Ha0). destruct sum.
    + rewrite Rsum_app, Ht, IH. reflexivity.
    + rewrite Rprod_app, Ht, IH. reflexivity.
Qed.

Lemma _flatten_terms_value (C : Calls) (sum : bool) (env : string -> R)
    (t : Expr) :
  forall l, _flatten_terms C sum t = Ok l ->
            (if sum then Rsum env l else Rprod env l) = Rvalue env t.
Proof.
  induction t as [q| | |s|ts IH|ts IH|b x IHb IHx|i IH|c i IH]
    using Expr_ind_list; intros l H; rewrite _flatten_terms_eq in H;
    destruct sum;
    try (inversion H; subst; unfold Rsum, Rprod; simpl; ring; fail).
  - bind_inv H. apply _sort_Permutation in H.
    rewrite <- (Rsum_Permutation env _ _ H), Rvalue_Sum.
    apply (_flatten_inplace_value C true env ts IH a Ha).
  - bind_inv H. apply _sort_Permutation in H.
    rewrite <- (Rprod_Permutation env _ _ H), Rvalue_Prod.
    apply (_flatten_inplace_value C false env ts IH a Ha).
Qed.

Lemma mkSum_value (C : Calls) (env : string -> R) (terms : list Expr)
    (e : Expr) :
  mkSum C terms = Ok e -> Rvalue env e = Rsum env terms.
Proof.
  intros H. unfold mkSum in H. bind_inv H. bind_inv H. inversion H. subst.
  apply _sort_Permutation in Ha0.
  rewrite Rvalue_Sum, <- (Rsum_Permutation env _ _ Ha0).
  apply (_flatten_inplace_value C true env terms); [|exact Ha].
  apply Forall_forall. intros t _ l Hl.
  apply (_flatten_terms_value C true env t l Hl).
Qed.

Lemma mkProd_value (C : Calls) (env : string -> R) (terms : list Expr)
    (e : Expr) :
  mkProd C terms = Ok e -> Rvalue env e = Rprod env terms.
Proof.
  intros H. unfold mkProd in H. bind_inv H. bind_inv H. inversion H. subst.
  apply _sort_Permutation in Ha0.
  rewrite Rvalue_Prod, <- (Rprod_Permutation env _ _ Ha0).
  apply (_flatten_inplace_value C false env terms); [|exact Ha].
  apply Forall_forall. intros t _ l Hl.
  apply (_flatten_terms_value C false env t l Hl).
Qed.

(** X12.  Building a sum or a product ([__post_init__]: flatten, then
    sort) does not change its value: the object stored has the value of
    the sum, or product, of the terms given. *)
Theorem construction_preserves_value (C : Calls) (env : string -> R)
    (terms : list Expr) (e : Expr) :
  (mkSum C terms = Ok e -> Rvalue env e = Rvalue env (Sum terms)) /\
  (mkProd C terms = Ok e -> Rvalue env e = Rvalue env (Prod terms)).
Proof.
  split; intros H.
  - rewrite Rvalue_Sum. apply (mkSum_value C env terms e H).
  - rewrite Rvalue_Prod. apply (mkProd_value C env terms e H).
Qed.

Lemma add_value (C : Calls) (env : string -> R) (a b e : Expr) :
  add C a b = Ok e -> Rvalue env e = (Rvalue env a + Rvalue env b)%R.
Proof.
  intros H. rewrite (mkSum_value C env _ _ H). unfold Rsum. simpl. ring.
Qed.

Lemma mul_value (C : Calls) (env : string -> R) (a b e : Expr) :
  mul C a b = Ok e -> Rvalue env e = (Rvalue env a * Rvalue env b)%R.
Proof.
  intros H. rewrite (mkProd_value C env _ _ H). unfold Rprod. simpl. ring.
Qed.

Lemma neg_value (C : Calls) (env : string -> R) (a e : Expr) :
  neg C a = Ok e -> Rvalue env e = (- Rvalue env a)%R.
Proof.
  intros H. rewrite (mkProd_value C env _ _ H). unfold Rprod. simpl.
  unfold Q2R. simpl. field.
Qed.

Lemma sub_value (C : Calls) (env : string -> R) (a b e : Expr) :
  sub C a b = Ok e -> Rvalue env e = (Rvalue env a - Rvalue env b)%R.
Proof.
  intros H. unfold sub in H. bind_inv H.
  rewrite (mkSum_value C env _ _ H). unfold Rsum.
  cbn [fold_right]. rewrite (neg_value C env b a0 Ha). ring.
Qed.

Lemma div_value (C : Calls) (env : string -> R) (a b e : Expr) :
  div C a b = Ok e -> Rvalue env e = (Rvalue env a / Rvalue env b)%R.
Proof.
  intros H. rewrite (mkProd_value C env _ _ H). unfold Rprod.
  cbn [fold_right]. rewrite Rvalue_inverse. unfold Rdiv. ring.
Qed.

(** X13.  The operators of [Expr] mean what they say: the objects built by
    [a + b], [a - b], [a * b], [a / b] and [-a] have the sum, difference,
    product, quotient and opposite of the values of their operands. *)
Theorem operators_value (C : Calls) (env : string -> R) (a b e : Expr) :
  (add C a b = Ok e -> Rvalue env e = (Rvalue env a + Rvalue env b)%R) /\
  (sub C a b = Ok e -> Rvalue env e = (Rvalue env a - Rvalue env b)%R) /\
  (mul C a b = Ok e -> Rvalue env e = (Rvalue env a * Rvalue env b)%R) /\
  (div C a b = Ok e -> Rvalue env e = (Rvalue env a / Rvalue env b)%R) /\
  (neg C a = Ok e -> Rvalue env e = (- Rvalue env a)%R).
Proof.
  repeat split.
  - apply add_value.
  - apply sub_value.
  - apply mul_value.
  - apply div_value.
  - apply neg_value.
Qed.

(** ** [ProductToSum] and [CompoundAngle] *)

Lemma Rvalue_square (env : string -> R) (b x : Expr) :
  expr_eqb x (Const 2) = true ->
  Rvalue env (Power b x) = (Rvalue env b * Rvalue env b)%R.
Proof.
  destruct x as [q| | | | | | | |]; try discriminate. intros H.
  apply Qeq_bool_iff in H. apply Qred_complete in H.
  cbn [Rvalue]. unfold Qis_int. rewrite H. simpl. ring.
Qed.

Lemma as_sincos_eq (t : Expr) (a : SinCos) :
  as_sincos t = Some a -> t = sincos a.
Proof.
  destruct t as [| | | | | | | |c i]; try discriminate.
  destruct c; try discriminate; intros H; inversion H; reflexivity.
Qed.

(** X14.  When [ProductToSum.check] passes, the integrand that [forward]
    builds has, at every point, the value of the integrand of the node:
    the four product-to-sum identities are the right ones. *)
Theorem ProductToSum_preserves_value (C : Calls) (env : string -> R)
    (n : Node) (a b : SinCos) (new_integrand : Expr) :
  ProductToSum_check n = Some (a, b) ->
  ProductToSum_integrand C a b = Ok new_integrand ->
  Rvalue env new_integrand = Rvalue env (node.expr n).
Proof.
  intros Hc Hf.
  assert (Hn : Rvalue env (node.expr n)
               = (Rvalue env (sincos a) * Rvalue env (sincos b))%R).
  { unfold ProductToSum_check in Hc. destruct (node.expr n) as
        [| | | | |[|t1 [|t2 [|t3 l]]]|base x| |]; try discriminate.
    - destruct (as_sincos t1) as [a'|] eqn:H1; [|discriminate].
      destruct (as_sincos t2) as [b'|] eqn:H2; [|discriminate].
      inversion Hc; subst. apply as_sincos_eq in H1, H2. subst.
      rewrite Rvalue_Prod. unfold Rprod. simpl fold_right. ring.
    - destruct (as_sincos base) as [a'|] eqn:H1; [|discriminate].
      destruct (expr_eqb x (Const 2)) eqn:H2; [|discriminate].
      inversion Hc; subst. apply as_sincos_eq in H1. subst.
      apply Rvalue_square, H2. }
  rewrite Hn. clear Hn Hc. destruct a as [sa ai], b as [sb bi].
  unfold ProductToSum_integrand in Hf. bind_inv Hf.
  rewrite (div_value C env _ _ _ Hf).
  change (Rvalue env (Const 2)) with (Q2R 2).
  replace (Q2R 2) with 2%R by (unfold Q2R; simpl; field).
  destruct sa, sb; bind_inv Ha; bind_inv Ha; unfold sincos; simpl fst;
    simpl snd; cbn [Rvalue].
  - rewrite (sub_value C env _ _ _ Ha). cbn [Rvalue].
    rewrite (sub_value C env _ _ _ Ha0), (add_value C env _ _ _ Ha1).
    rewrite cos_minus, cos_plus. field.
  - rewrite (add_value C env _ _ _ Ha). cbn [Rvalue].
    rewrite (add_value C env _ _ _ Ha0), (sub_value C env _ _ _ Ha1).
    rewrite sin_plus, sin_minus. field.
  - rewrite (sub_value C env _ _ _ Ha). cbn [Rvalue].
    rewrite (add_value C env _ _ _ Ha0), (sub_value C env _ _ _ Ha1).
    rewrite sin_plus, sin_minus. field.
  - rewrite (add_value C env _ _ _ Ha). cbn [Rvalue].
    rewrite (add_value C env _ _ _ Ha0), (sub_value C env _ _ _ Ha1).
    rewrite cos_plus, cos_minus. field.
Qed.

(** [cos(x)*sin(x)] becomes [(sin(x + x) - sin(x - x))/2]. *)
Lemma ProductToSum_preserves_value_witness :
  Rvalue (fun _ => 1%R)
    (Prod [Power (Const 2) (Const (-1));
           Sum [Prod [Const (-1); Sin (Sum [Prod [Const (-1); x]; x])];
                Sin (Sum [x; x])]])
  = Rvalue (fun _ => 1%R) (Prod [Cos x; Sin x]).
Proof.
  apply (ProductToSum_preserves_value (calls (fun _ _ => None) 20)
           (fun _ => 1%R)
           (mkNode (Prod [Cos x; Sin x]) "x" None [] UNSET None)
           (false, x) (true, x)).
  - reflexivity.
  - vm_compute. reflexivity.
Defined.

(** X15.  The rewriting step of [CompoundAngle] keeps the value: what
    [_perform] builds from [sin(a + b)] or [cos(a + b)] has the value of
    that expression at every point. *)
Theorem CompoundAngle_perform_preserves_value (C : Calls)
    (env : string -> R) (e : Expr) (sin : bool) (a b new : Expr) :
  compound_angle e = Some (sin, a, b) ->
  CompoundAngle_perform C sin a b = Ok new ->
  Rvalue env new = Rvalue env e.
Proof.
  intros He Hp.
  assert (e = sincos (sin, Sum [a; b])) as ->.
  { destruct e as [| | | | | | | |c i]; try discriminate.
    destruct c; try discriminate;
      destruct i as [| | | |[|t1 [|t2 [|t3 l]]]| | | |]; try discriminate;
      inversion He; reflexivity. }
  unfold CompoundAngle_perform in Hp. unfold sincos. simpl fst. simpl snd.
  destruct sin; bind_inv Hp; bind_inv Hp.
  - rewrite (add_value C env _ _ _ Hp), (mul_value C env _ _ _ Ha),
      (mul_value C env _ _ _ Ha0).
    change (Rvalue env (Sin (Sum [a; b])))
      with (Rtrigo_def.sin (Rvalue env (Sum [a; b]))).
    rewrite Rvalue_Sum. unfold Rsum. cbn [fold_right Rvalue].
    rewrite Rplus_0_r, sin_plus. reflexivity.
  - rewrite (sub_value C env _ _ _ Hp), (mul_value C env _ _ _ Ha),
      (mul_value C env _ _ _ Ha0).
    change (Rvalue env (Cos (Sum [a; b])))
      with (Rtrigo_def.cos (Rvalue env (Sum [a; b]))).
    rewrite Rvalue_Sum. unfold Rsum. cbn [fold_right Rvalue].
    rewrite Rplus_0_r, cos_plus. reflexivity.
Qed.

(** [sin(x + y)] becomes [sin(x)*cos(y) + cos(x)*sin(y)]. *)
Lemma CompoundAngle_perform_preserves_value_witness :
  exists new,
    CompoundAngle_perform (calls (fun _ _ => None) 20) true x (Symbol "y")
      = Ok new /\
    Rvalue (fun _ => 1%R) new
      = Rvalue (fun _ => 1%R) (Sin (Sum [x; Symbol "y"])).
Proof.
  eexists. split.
  - vm_compute. reflexivity.
  - apply (CompoundAngle_perform_preserves_value
             (calls (fun _ _ => None) 20) (fun _ => 1%R)
             (Sin (Sum [x; Symbol "y"])) true x (Symbol "y"));
      [reflexivity | vm_compute; reflexivity].
Defined.

(** ** [PullConstant] and [Additivity] *)

Lemma not_in_symbols_contains (var : string) (term : Expr) :
  not_in_symbols var term = negb (contains term var).
Proof.
  unfold not_in_symbols. f_equal.
  destruct (contains term var) eqn:Hc.
  - apply contains_In_symbols in Hc. apply existsb_exists.
    exists var. split; [exact Hc | apply String.eqb_refl].
  - apply not_true_is_false. intros H. apply existsb_exists in H.
    destruct H as [s [Hs He]]. apply String.eqb_eq in He. subst s.
    apply contains_In_symbols in Hs. congruence.
Qed.

Lemma PullConstant_loop_spec (C : Calls) (var : string) (after : list Expr) :
  forall before,
    (forall c rest,
       PullConstant_loop C var before after = Ok (Some (c, rest)) ->
       exists pre post,
         after = (pre ++ c :: post)%list /\
         contains c var = false /\
         Forall (fun t => contains t var = true) pre /\
         (p <- mkProd C (before ++ pre ++ post)%list ;; c_simplify C p)
           = Ok rest) /\
    (PullConstant_loop C var before after = Ok None ->
     Forall (fun t => contains t var = true) after).
Proof.
  induction after as [|term after IH]; intros before; cbn [PullConstant_loop].
  - split; [discriminate | constructor].
  - rewrite not_in_symbols_contains.
    destruct (contains term var) eqn:Hc; cbn [negb].
    + destruct (IH (before ++ [term])%list) as [IH1 IH2]. split.
      * intros c rest H. destruct (IH1 c rest H) as (pre & post & E & F & G & K).
        exists (term :: pre), post. subst after.
        split; [reflexivity|]. split; [exact F|].
        split; [constructor; assumption|].
        rewrite <- app_assoc in K. exact K.
      * intros H. constructor; [exact Hc | apply IH2, H].
    + split.
      * intros c rest H. bind_inv H. bind_inv H. inversion H. subst.
        exists [], after. split; [reflexivity|]. split; [exact Hc|].
        split; [constructor|]. simpl. rewrite Ha. simpl. exact Ha0.
      * intros H. bind_inv H. bind_inv H. discriminate.
Qed.

(** X16.  [PullConstant.check] pulls the first factor that is free of the
    variable: the factors before it all contain the variable, and the
    non-constant part is the simplified product of the other factors, in
    their order.  It answers [False] only if the integrand is no product or
    every factor contains the variable. *)
Theorem PullConstant_check_spec (C : Calls) (n : Node) :
  (forall c rest,
     PullConstant_check C n = Ok (Some (c, rest)) ->
     exists pre post,
       node.expr n = Prod (pre ++ c :: post) /\
       contains c (node.var n) = false /\
       Forall (fun t => contains t (node.var n) = true) pre /\
       (p <- mkProd C (pre ++ post)%list ;; c_simplify C p) = Ok rest) /\
  (PullConstant_check C n = Ok None ->
   forall terms, node.expr n = Prod terms ->
                 Forall (fun t => contains t (node.var n) = true) terms).
Proof.
  unfold PullConstant_check. split.
  - intros c rest H.
    destruct (node.expr n) as [| | | | |terms| | |]; try discriminate.
    destruct (proj1 (PullConstant_loop_spec C (node.var n) terms []) c rest H)
      as (pre & post & E & F & G & K).
    exists pre, post. subst terms. repeat split; assumption.
  - intros H terms E. rewrite E in H.
    apply (proj2 (PullConstant_loop_spec C (node.var n) terms []) H).
Qed.

Lemma mapM_Forall2 {A B : Type} (f : A -> Res B) (l : list A) :
  forall r, mapM f l = Ok r -> Forall2 (fun a b => f a = Ok b) l r.
Proof.
  induction l as [|a l IH]; simpl; intros r H.
  - inversion H. constructor.
  - bind_inv H. bind_inv H. inversion H. subst.
    constructor; [exact Ha | apply IH, Ha0].
Qed.

Lemma fresh_children (fp : Q -> Q -> option Q) (fuel : nat) (v : string)
    (t : option Transform) (terms : list Expr) (cs : list Node) :
  Forall2 (fun e c => Node_new fp fuel e v t UNSET None = Ok c) terms cs ->
  Forall (fun c => node.children c = [] /\ node.type c = UNSET /\
                   node.transform c = t /\ node.var c = v) cs.
Proof.
  induction 1 as [|e c terms cs H _ IH]; constructor; [|exact IH].
  unfold Node_new in H. bind_inv H. inversion H. repeat split.
Qed.

Lemma pending_leaves (cs : list Node) :
  Forall (fun c => node.children c = [] /\ node.type c = UNSET) cs ->
  forallb is_solved cs = (match cs with [] => true | _ => false end) /\
  existsb is_failed cs = false /\
  filter (fun leaf => negb (is_finished leaf)) (flat_map leaves cs) = cs.
Proof.
  induction 1 as [|c cs [Hc Ht] _ (IH1 & IH2 & IH3)];
    [repeat split|].
  destruct c as [e v t ch ty s]. simpl in Hc, Ht. subst ch ty.
  simpl. rewrite IH2, IH3. repeat split.
Qed.

(** X17.  After [Additivity.forward] the node is an [AND] node with one
    child per term of the sum, each a pending leaf reached by
    [Additivity] and integrated by the same variable; the node is not
    finished, and its unfinished leaves are exactly these children. *)
Theorem Additivity_forward_spec (fp : Q -> Q -> option Q) (fuel : nat)
    (n n' : Node) (terms : list Expr) :
  node.expr n = Sum terms ->
  Additivity_forward fp fuel n = Ok n' ->
  node.type n' = AND /\
  length (node.children n') = length terms /\
  Forall (fun c => node.children c = [] /\ node.type c = UNSET /\
                   node.transform c = Some Additivity /\
                   node.var c = node.var n) (node.children n') /\
  is_finished n' = false /\
  (terms <> [] -> unfinished_leaves n' = node.children n').
Proof.
  intros He H. destruct n as [e v t ch ty s]. simpl in He. subst e.
  unfold Additivity_forward in H. bind_inv H. inversion H. subst n'.
  clear H. apply mapM_Forall2 in Ha.
  pose proof (Forall2_length Ha) as Hlen.
  pose proof (fresh_children fp fuel v _ terms a Ha) as Hf.
  assert (Hp : Forall (fun c => node.children c = [] /\ node.type c = UNSET)
                 a).
  { eapply Forall_impl; [|exact Hf]. intros c (H1 & H2 & _). split; assumption. }
  destruct (pending_leaves a Hp) as (P1 & P2 & P3).
  simpl node.type. simpl node.children. simpl node.var.
  split; [reflexivity|]. split; [symmetry; exact Hlen|].
  split; [exact Hf|]. split.
  - unfold is_finished. destruct a as [|c a]; [reflexivity|].
    cbn [is_solved is_failed]. rewrite P1, P2. reflexivity.
  - intros Hne. destruct a as [|c a].
    + destruct terms; [contradiction | discriminate Hlen].
    + unfold unfinished_leaves. cbn [leaves]. exact P3.
Qed.

Lemma Additivity_forward_spec_witness :
  exists n',
    Additivity_forward (fun _ _ => None) 20
      (mkNode (Sum [x; Sin x]) "x" None [] UNSET None) = Ok n' /\
    node.type n' = AND /\ length (node.children n') = 2%nat.
Proof.
  eexists. split; [vm_compute; reflexivity|].
  destruct (Additivity_forward_spec (fun _ _ => None) 20
              (mkNode (Sum [x; Sin x]) "x" None [] UNSET None)
              (mkNode (Sum [x; Sin x]) "x" None
                 [mkNode x "x" (Some Additivity) [] UNSET None;
                  mkNode (Sin x) "x" (Some Additivity) [] UNSET None]
                 AND None)
              [x; Sin x] eq_refl) as (H1 & H2 & _).
  - vm_compute. reflexivity.
  - split; [exact H1 | exact H2].
Defined.

Lemma PullConstant_check_spec_witness :
  exists pre post,
    Prod [Const 3; x] = Prod (pre ++ Const 3 :: post) /\
    contains (Const 3) "x" = false.
Proof.
  destruct (proj1 (PullConstant_check_spec (calls (fun _ _ => None) 20)
                     (mkNode (Prod [Const 3; x]) "x" None [] UNSET None))
              (Const 3) x) as (pre & post & E & F & _).
  - vm_compute. reflexivity.
  - exists pre, post. split; [exact E | exact F].
Defined.

(** ** The earlier engine never returns *)

Section EngineNeverReturns.

Variable X : Type.
Variable simplify0 : X -> Res X.
Variable nesting0 : X -> string -> nat.
Variable table_answer : X -> string -> option X.
Variable check_forward :
  Engine.TransformClass -> Engine.ONode X ->
  Res (option ((X * string) * list (X * string) * option Engine.SetType)).
Variable backward_solution :
  Engine.TransformClass -> Engine.ONode X -> nat -> Res (option X).

Local Notation ONode := (Engine.ONode X).
Local Notation transform := (Engine.transform X).
Local Notation solution := (Engine.solution X).
Local Notation children := (Engine.children X).
Local Notation type := (Engine.type X).
Local Notation update := (Engine.update X).
Local Notation subtree := (Engine.subtree X).

Lemma same_head_refl (a : ONode) : same_head a a.
Proof. split; reflexivity. Qed.

Lemma same_head_trans (a b c : ONode) :
  same_head a b -> same_head b c -> same_head a c.
Proof. intros [H1 H2] [H3 H4]. split; congruence. Qed.

Lemma same_head_set_children (n : ONode) (cs : list ONode) :
  same_head (Engine.set_children X n cs) n.
Proof. destruct n; split; reflexivity. Qed.

Lemma same_head_set_type (n : ONode) (ty : NodeType) :
  same_head (Engine.set_type X n ty) n.
Proof. destruct n; split; reflexivity. Qed.

Lemma update_cons (n m : ONode) (i : nat) (q : Engine.Path) :
  same_head (update n (i :: q) m) n /\
  type (update n (i :: q) m) = type n /\
  (children n = [] -> update n (i :: q) m = n).
Proof.
  simpl. destruct (nth_error (children n) i) eqn:E.
  - split; [apply same_head_set_children|]. split.
    + destruct n; reflexivity.
    + intros H. rewrite H in E. destruct i; discriminate.
  - split; [apply same_head_refl|]. split; reflexivity.
Qed.

Lemma apply_transform_head (c : Engine.TransformClass) (n n' : ONode) :
  Engine.apply_transform X simplify0 check_forward c n = Ok (Some n') ->
  same_head n' n.
Proof.
  unfold Engine.apply_transform. intros H. bind_inv H.
  destruct a as [[[first rest] ty]|]; [|discriminate].
  bind_inv H. inversion H. destruct ty.
  - eapply same_head_trans; [apply same_head_set_type|].
    apply same_head_set_children.
  - apply same_head_set_children.
Qed.

Lemma _integrate_safely_head (fuel : nat) (n n' : ONode) :
  Engine._integrate_safely X simplify0 check_forward fuel n = Ok n' ->
  same_head n' n.
Proof.
  destruct fuel as [|fuel]; [discriminate|]. cbn [Engine._integrate_safely].
  generalize Engine.SAFE_TRANSFORMS. intros ts. revert n.
  induction ts as [|c ts IH]; intros n H.
  - inversion H. apply same_head_refl.
  - bind_inv H. destruct a as [m|].
    + bind_inv H. apply IH in H. apply apply_transform_head in Ha.
      eapply same_head_trans; [exact H|].
      eapply same_head_trans; [apply same_head_set_children | exact Ha].
    + apply IH, H.
Qed.

Lemma _integrate_heuristically_head (n n' : ONode) :
  Engine._integrate_heuristically X simplify0 check_forward n = Ok n' ->
  same_head n' n.
Proof.
  unfold Engine._integrate_heuristically. intros H. bind_inv H.
  assert (Hl : same_head a n).
  { clear H. revert n Ha. generalize Engine.HEURISTICS. intros ts.
    induction ts as [|c ts IH]; intros n H.
    - inversion H. apply same_head_refl.
    - bind_inv H. destruct a0 as [m|].
      + apply IH in H. apply apply_transform_head in Ha.
        eapply same_head_trans; eassumption.
      + apply IH, H. }
  destruct (children a) as [|c1 [|c2 cs]]; inversion H; subst;
    try exact Hl;
    (eapply same_head_trans; [apply same_head_set_type | exact Hl]).
Qed.

Lemma _check_if_solvable_head (n : ONode) :
  transform (Engine._check_if_solvable X table_answer n) = transform n /\
  children (Engine._check_if_solvable X table_answer n) = children n /\
  (solution (Engine._check_if_solvable X table_answer n) = solution n \/
   type (Engine._check_if_solvable X table_answer n) = SOLUTION).
Proof.
  unfold Engine._check_if_solvable.
  destruct (table_answer (Engine.expr X n) (Engine.var X n)).
  - destruct n; repeat split. right. reflexivity.
  - repeat split. left. reflexivity.
Qed.

Lemma leaves_go_cons_paths (cs : list ONode) :
  forall i,
    Forall (fun p : Engine.Path => p <> [])
      ((fix go (i : nat) (cs : list ONode) : list Engine.Path :=
          match cs with
          | [] => []
          | c :: r => (map (cons i) (Engine.leaves X c) ++ go (S i) r)%list
          end) i cs).
Proof.
  induction cs as [|a l IH]; intros i; [constructor|].
  apply Forall_app. split; [|apply IH].
  apply Forall_forall. intros p Hin. apply in_map_iff in Hin.
  destruct Hin as [q [<- _]]. discriminate.
Qed.

Lemma leaves_cons_paths (n : ONode) :
  children n <> [] -> Forall (fun p => p <> []) (Engine.leaves X n).
Proof.
  destruct n as [e v t cs ty s]. simpl Engine.children. intros Hne.
  destruct cs as [|c cs]; [contradiction|].
  exact (leaves_go_cons_paths (c :: cs) 0%nat).
Qed.

Lemma fold_check_head (ls : list Engine.Path) :
  Forall (fun p => p <> []) ls ->
  forall n,
    same_head
      (fold_left
         (fun n l => match subtree n l with
                     | Some leaf =>
                         update n l
                           (Engine._check_if_solvable X table_answer leaf)
                     | None => n
                     end) ls n) n.
Proof.
  induction 1 as [|l ls Hl _ IH]; intros n; simpl fold_left.
  - apply same_head_refl.
  - eapply same_head_trans; [apply IH|].
    destruct l as [|i q]; [contradiction|].
    destruct (subtree n (i :: q)); [apply update_cons | apply same_head_refl].
Qed.

Lemma unanswered_same_head (a b : ONode) :
  same_head a b -> unanswered b -> unanswered a.
Proof. intros [H1 H2] [H3 H4]. split; congruence. Qed.

Lemma unanswered_searched (n : ONode) : unanswered n -> searched_root n.
Proof. intros [H1 H2]. split; [exact H1 | left; exact H2]. Qed.

Lemma searched_unfinished (n : ONode) :
  searched_root n -> Engine.is_finished X n = false -> unanswered n.
Proof.
  intros [H1 [H2|[H2 _]]] Hf; [split; assumption|].
  destruct n as [e v t cs ty s]. simpl in H2. subst ty.
  discriminate Hf.
Qed.

Lemma table_pass_searched (a : ONode) :
  unanswered a ->
  searched_root
    (fold_left
       (fun n l => match subtree n l with
                   | Some leaf =>
                       update n l
                         (Engine._check_if_solvable X table_answer leaf)
                   | None => n
                   end) (Engine.unfinished_leaves X a) a).
Proof.
  intros Ha. destruct (children a) as [|c cs] eqn:Ec.
  - assert (El : Engine.leaves X a = [[]]).
    { destruct a as [e v t ch ty s]. simpl in Ec. subst ch. reflexivity. }
    unfold Engine.unfinished_leaves. rewrite El. simpl filter.
    destruct (negb (Engine.finished_at X a [])); simpl fold_left;
      [|apply unanswered_searched, Ha].
    destruct (_check_if_solvable_head a) as (T & C & S).
    destruct Ha as [Ht Hs]. split; [congruence|].
    destruct S as [S|S]; [left; congruence | right].
    split; [exact S | congruence].
  - apply unanswered_searched. eapply unanswered_same_head; [|exact Ha].
    apply fold_check_head. unfold Engine.unfinished_leaves.
    apply Forall_forall. intros p Hp. apply filter_In in Hp as [Hp _].
    assert (Hne : children a <> []) by (rewrite Ec; discriminate).
    pose proof (leaves_cons_paths a Hne) as Hall.
    rewrite Forall_forall in Hall. apply Hall, Hp.
Qed.

Lemma searched_update_cons (n m : ONode) (i : nat) (q : Engine.Path) :
  searched_root n -> searched_root (update n (i :: q) m).
Proof.
  intros [Ht Hs]. destruct (update_cons n m i q) as ([H1 H2] & H3 & H4).
  destruct Hs as [Hs|[Hs Hc]].
  - split; [congruence | left; congruence].
  - rewrite (H4 Hc). split; [exact Ht | right; split; assumption].
Qed.

Lemma _cycle_searched (fuel : nat) (root root' : ONode)
    (node : option Engine.Path) (answer : Engine.Answer) :
  unanswered root ->
  Engine._cycle X simplify0 nesting0 table_answer check_forward fuel root node
    = Ok (root', answer) ->
  searched_root root'.
Proof.
  intros Hroot H. unfold Engine._cycle in H.
  destruct node as [p|]; [|discriminate].
  destruct (subtree root p) as [n|] eqn:Es; [|discriminate].
  bind_inv H. rename a into n1.
  set (n2 := fold_left
               (fun n l => match subtree n l with
                           | Some leaf =>
                               update n l
                                 (Engine._check_if_solvable X table_answer leaf)
                           | None => n
                           end) (Engine.unfinished_leaves X n1) n1) in H.
  destruct p as [|i q].
  - (* the cycle runs on the root *)
    simpl in Es. inversion Es. subst n. clear Es.
    assert (H1 : unanswered n1).
    { eapply unanswered_same_head; [|exact Hroot].
      eapply _integrate_safely_head, Ha. }
    assert (H2 : searched_root n2) by apply (table_pass_searched n1 H1).
    destruct (Engine.unfinished_leaves X n2) as [|l ls] eqn:El.
    + inversion H. subst. exact H2.
    + destruct (subtree n2 l) as [next_node|] eqn:En; [|discriminate].
      bind_inv H. bind_inv H. inversion H. subst. clear H.
      cbn [Engine.update]. destruct l as [|j r].
      * simpl in En. inversion En. subst next_node. cbn [Engine.update].
        apply unanswered_searched.
        eapply unanswered_same_head;
          [eapply _integrate_heuristically_head, Ha0|].
        apply searched_unfinished; [exact H2|].
        assert (Hin : In [] (Engine.unfinished_leaves X n2))
          by (rewrite El; left; reflexivity).
        unfold Engine.unfinished_leaves in Hin.
        apply filter_In in Hin as [_ Hin]. apply negb_true_iff in Hin.
        exact Hin.
      * apply searched_update_cons, H2.
  - (* the cycle runs below the root *)
    assert (Hup : forall m, searched_root (update root (i :: q) m)).
    { intros m. apply searched_update_cons, unanswered_searched, Hroot. }
    destruct (Engine.unfinished_leaves X n2) as [|l ls].
    + inversion H. subst. apply Hup.
    + destruct (subtree n2 l) as [next_node|]; [|discriminate].
      bind_inv H. bind_inv H. inversion H. subst. apply Hup.
Qed.

Lemma integrate_loop_searched (fuel : nat) :
  forall (root root' : ONode) (curr_node : option Engine.Path),
    unanswered root ->
    Engine.integrate_loop X simplify0 nesting0 table_answer check_forward
      fuel root curr_node = Ok root' ->
    searched_root root'.
Proof.
  induction fuel as [|fuel IH]; intros root root' curr_node Hroot H;
    [discriminate|].
  cbn [Engine.integrate_loop] in H. bind_inv H. destruct a as [r answer].
  pose proof (_cycle_searched _ _ _ _ _ Hroot Ha) as Hr.
  destruct (Engine.is_finished X r) eqn:Hf.
  - inversion H. subst. exact Hr.
  - pose proof (searched_unfinished r Hr Hf) as Hu.
    destruct answer as [|next].
    + bind_inv H. apply (IH _ _ _ Hu H).
    + apply (IH _ _ _ Hu H).
Qed.

Lemma backward_from_unanswered (fuel : nat) :
  forall (root root' : ONode) (l : Engine.Path),
    unanswered root ->
    Engine.backward_from X backward_solution fuel root l = Ok root' ->
    unanswered root'.
Proof.
  induction fuel as [|fuel IH]; intros root root' l Hroot H; [discriminate|].
  cbn [Engine.backward_from] in H.
  destruct (subtree root l) as [n|] eqn:En; [|discriminate].
  destruct (transform n) as [c|] eqn:Et; [|discriminate].
  destruct (solution n) as [s|]; [|inversion H; subst; exact Hroot].
  destruct (subtree root (removelast l)) as [parent|] eqn:Ep;
    [|discriminate].
  assert (Hl : exists i q, l = i :: q).
  { destruct l as [|i q]; [|eauto]. simpl in En. inversion En. subst n.
    destruct Hroot as [Hroot _]. congruence. }
  destruct Hl as (i & q & ->).
  assert (Hstep : forall s' : option X,
             Engine.backward_from X backward_solution fuel
               (match s' with
                | Some s0 =>
                    update root (removelast (i :: q))
                      (Engine.set_solution X parent (Some s0))
                | None => root
                end) (removelast (i :: q)) = Ok root' ->
             unanswered root').
  { intros s' Hs'. destruct (removelast (i :: q)) as [|j r] eqn:Er.
    - (* the parent is the root: the next step reads [None.backward] *)
      exfalso. simpl in Ep. inversion Ep. subst parent.
      destruct fuel as [|fuel']; [discriminate|].
      cbn [Engine.backward_from] in Hs'.
      destruct s' as [s0|]; cbn [Engine.update Engine.subtree] in Hs'.
      + destruct root as [e v t cs ty sl]. destruct Hroot as [Ht _].
        simpl in Ht. subst t. discriminate.
      + destruct Hroot as [Ht _]. rewrite Ht in Hs'. discriminate.
    - refine (IH _ _ _ _ Hs'). destruct s' as [s0|]; [|exact Hroot].
      eapply unanswered_same_head; [|exact Hroot]. apply update_cons. }
  destruct (backward_solution c parent (last (i :: q) 0%nat)) as [s'|ex| |]
    eqn:Eb; try discriminate.
  - apply (Hstep s' H).
  - destruct ex; try discriminate. inversion H. subst. exact Hroot.
Qed.

Lemma backward_all_unanswered (ls : list Engine.Path) :
  forall root root' : ONode,
    unanswered root ->
    Engine.backward_all X backward_solution root ls = Ok root' ->
    unanswered root'.
Proof.
  induction ls as [|l ls IH]; intros root root' Hroot H.
  - inversion H. subst. exact Hroot.
  - cbn [Engine.backward_all] in H. bind_inv H.
    apply (IH _ _ (backward_from_unanswered _ _ _ _ Hroot Ha) H).
Qed.

(** X18.  In the earlier engine [Integration.integrate] never returns,
    whatever the transforms and the table do: the root was led to by no
    transform, so the walk back from a solved leaf ends in
    [root.transform.backward], an [AttributeError], as soon as it reaches
    the root; and when no walk reaches it the root is left without
    solution, which is the final [ValueError]. *)
Theorem integrate_never_returns (fuel : nat) (integrand : X) (v : string) :
  returns (Engine.integrate X simplify0 nesting0 table_answer check_forward
             backward_solution fuel integrand v) = false.
Proof.
  destruct (Engine.integrate X simplify0 nesting0 table_answer check_forward
              backward_solution fuel integrand v) as [s| | |] eqn:H;
    try reflexivity.
  exfalso. unfold Engine.integrate in H. bind_inv H. bind_inv H.
  rename a into root0. rename a0 into root.
  assert (H0 : unanswered root0).
  { unfold Engine.Node_new in Ha. bind_inv Ha. inversion Ha. subst.
    split; reflexivity. }
  pose proof (integrate_loop_searched _ _ _ _ H0 Ha0) as [Ht Hs].
  destruct (Engine.is_failed X root); [discriminate|]. bind_inv H.
  destruct Hs as [Hs|[Hty Hc]].
  - assert (Hu : unanswered a)
      by (apply (backward_all_unanswered _ _ _ (conj Ht Hs) Ha1)).
    destruct Hu as [_ Hu]. rewrite Hu in H. discriminate.
  - destruct root as [e w t cs ty sl]. simpl in Ht, Hty, Hc. subst.
    discriminate Ha1.
Qed.

End EngineNeverReturns.

(** ** [replace] *)

Lemma replace_eq (fp : Q -> Q -> option Q) (fuel : nat) (e old new : Expr) :
  replace fp fuel e old new =
    if expr_eqb e old then Ok new
    else
      match e with
      | Sum terms =>
          ts <- mapM (fun t => replace fp fuel t old new) terms ;;
          mkSum (calls fp fuel) ts
      | Prod terms =>
          ts <- mapM (fun t => replace fp fuel t old new) terms ;;
          mkProd (calls fp fuel) ts
      | Power base exponent =>
          b <- replace fp fuel base old new ;;
          x <- replace fp fuel exponent old new ;;
          Ok (Power b x)
      | Log inner => i <- replace fp fuel inner old new ;; Ok (Log i)
      | Trig cls inner =>
          i <- replace fp fuel inner old new ;; Ok (Trig cls i)
      | Const _ | Pi | E | Symbol _ => Ok e
      end.
Proof.
  assert (H : forall l,
             (fix go (l : list Expr) : Res (list Expr) :=
                match l with
                | [] => Ok []
                | e0 :: r =>
                    e' <- replace fp fuel e0 old new ;;
                    r' <- go r ;; Ok (e' :: r')
                end) l = mapM (fun t => replace fp fuel t old new) l).
  { induction l as [|a l IH]; cbn [mapM]; [reflexivity|].
    rewrite IH. reflexivity. }
  destruct e; cbn [replace]; rewrite ?H; reflexivity.
Qed.

Lemma contains_Sum_false (l : list Expr) (v : string) :
  contains (Sum l) v = false <-> Forall (fun t => contains t v = false) l.
Proof.
  rewrite contains_Sum. induction l as [|a l IH]; simpl.
  - split; [constructor | reflexivity].
  - rewrite orb_false_iff, IH. split.
    + intros [H1 H2]. constructor; assumption.
    + intros H. inversion H. split; assumption.
Qed.

Lemma contains_Prod_false (l : list Expr) (v : string) :
  contains (Prod l) v = false <-> Forall (fun t => contains t v = false) l.
Proof.
  rewrite contains_Prod. induction l as [|a l IH]; simpl.
  - split; [constructor | reflexivity].
  - rewrite orb_false_iff, IH. split.
    + intros [H1 H2]. constructor; assumption.
    + intros H. inversion H. split; assumption.
Qed.

Lemma _flatten_terms_free (C : Calls) (sum : bool) (v : string) (t : Expr) :
  contains t v = false ->
  forall l, _flatten_terms C sum t = Ok l ->
            Forall (fun x => contains x v = false) l.
Proof.
  induction t as [q| | |s|ts IH|ts IH|b x IHb IHx|i IH|c i IH]
    using Expr_ind_list; intros Hc l H; rewrite _flatten_terms_eq in H;
    destruct sum;
    try (inversion H; subst; constructor; [exact Hc | constructor]; fail).
  - bind_inv H. apply _sort_Permutation in H.
    eapply Permutation_Forall; [exact H|].
    eapply _flatten_inplace_Forall; [|exact Ha].
    apply contains_Sum_false in Hc. rewrite Forall_forall in *.
    intros t Ht. apply (IH t Ht), (Hc t Ht).
  - bind_inv H. apply _sort_Permutation in H.
    eapply Permutation_Forall; [exact H|].
    eapply _flatten_inplace_Forall; [|exact Ha].
    apply contains_Prod_false in Hc. rewrite Forall_forall in *.
    intros t Ht. apply (IH t Ht), (Hc t Ht).
Qed.

Lemma mk_free (C : Calls) (v : string) (terms : list Expr) (e : Expr) :
  Forall (fun t => contains t v = false) terms ->
  mkSum C terms = Ok e \/ mkProd C terms = Ok e ->
  contains e v = false.
Proof.
  intros Hall [H|H]; unfold mkSum, mkProd in H; bind_inv H; bind_inv H;
    inversion H; subst; apply _sort_Permutation in Ha0.
  - apply contains_Sum_false. eapply Permutation_Forall; [exact Ha0|].
    eapply _flatten_inplace_Forall; [|exact Ha].
    rewrite Forall_forall in *. intros t Ht.
    apply (_flatten_terms_free C true v t (Hall t Ht)).
  - apply contains_Prod_false. eapply Permutation_Forall; [exact Ha0|].
    eapply _flatten_inplace_Forall; [|exact Ha].
    rewrite Forall_forall in *. intros t Ht.
    apply (_flatten_terms_free C false v t (Hall t Ht)).
Qed.

Lemma Forall2_Forall_r {A B : Type} (P : A -> Prop) (R : A -> B -> Prop)
    (Q : B -> Prop) (l : list A) (m : list B) :
  Forall P l -> Forall2 R l m ->
  (forall a b, P a -> R a b -> Q b) -> Forall Q m.
Proof.
  intros HP HR H. induction HR as [|a b l m Hab _ IH]; [constructor|].
  inversion HP; subst. constructor; [eapply H; eassumption | apply IH; assumption].
Qed.

(** X19.  Substituting an expression that is free of a variable for that
    variable eliminates it: the result of [replace(expr, var, new)] does
    not contain [var]. *)
Theorem replace_eliminates_var (fp : Q -> Q -> option Q) (fuel : nat)
    (v : string) (new : Expr) (e : Expr) :
  contains new v = false ->
  forall e', replace fp fuel e (Symbol v) new = Ok e' ->
             contains e' v = false.
Proof.
  intros Hnew.
  induction e as [q| | |s|ts IH|ts IH|b x IHb IHx|i IH|c i IH]
    using Expr_ind_list; intros e' H; rewrite replace_eq in H;
    cbn [expr_eqb] in H.
  - inversion H. reflexivity.
  - inversion H. reflexivity.
  - inversion H. reflexivity.
  - destruct (String.eqb s v) eqn:Es; inversion H; subst;
      [exact Hnew | exact Es].
  - bind_inv H. apply mapM_Forall2 in Ha.
    apply (mk_free (calls fp fuel) v a e'); [|left; exact H].
    apply (Forall2_Forall_r _ _ _ ts a IH Ha). intros t t' Ht Hr.
    apply (Ht t' Hr).
  - bind_inv H. apply mapM_Forall2 in Ha.
    apply (mk_free (calls fp fuel) v a e'); [|right; exact H].
    apply (Forall2_Forall_r _ _ _ ts a IH Ha). intros t t' Ht Hr.
    apply (Ht t' Hr).
  - bind_inv H. bind_inv H. inversion H. subst.
    change (contains (Power a a0) v) with (contains a v || contains a0 v).
    rewrite (IHb _ Ha), (IHx _ Ha0). reflexivity.
  - bind_inv H. inversion H. subst. apply (IH _ Ha).
  - bind_inv H. inversion H. subst. apply (IH _ Ha).
Qed.

(** [replace(x*sin(x), x, u)] is [u*sin(u)]. *)
Lemma replace_eliminates_var_witness :
  contains (Prod [Symbol "u"; Sin (Symbol "u")]) "x" = false.
Proof.
  apply (replace_eliminates_var (fun _ _ => None) 20 "x" (Symbol "u")
           (Prod [x; Sin x])).
  - reflexivity.
  - vm_compute. reflexivity.
Defined.

Lemma Rvalue_Power_general (env : string -> R) (b x : Expr) :
  isConst x = false ->
  Rvalue env (Power b x) = Rpower (Rvalue env b) (Rvalue env x).
Proof. destruct x; try reflexivity; discriminate. Qed.

Lemma replace_isConst (fp : Q -> Q -> option Q) (fuel : nat) (v : string)
    (new e e' : Expr) :
  isConst new = false ->
  replace fp fuel e (Symbol v) new = Ok e' ->
  (isConst e = true -> e' = e) /\ (isConst e = false -> isConst e' = false).
Proof.
  intros Hnew H. rewrite replace_eq in H.
  destruct e as [q| | |s|ts|ts|b x|i|c i]; cbn [expr_eqb] in H;
    cbn [isConst];
    try (inversion H; subst; split; [reflexivity | intros; reflexivity]; fail).
  - inversion H. subst. split; [reflexivity | discriminate].
  - split; [discriminate | intros _].
    destruct (String.eqb s v); inversion H; subst; [exact Hnew | reflexivity].
  - split; [discriminate | intros _]. bind_inv H. unfold mkSum in H.
    bind_inv H. bind_inv H. inversion H. reflexivity.
  - split; [discriminate | intros _]. bind_inv H. unfold mkProd in H.
    bind_inv H. bind_inv H. inversion H. reflexivity.
  - split; [discriminate | intros _]. bind_inv H. bind_inv H.
    inversion H. reflexivity.
  - split; [discriminate | intros _]. bind_inv H. inversion H. reflexivity.
  - split; [discriminate | intros _]. bind_inv H. inversion H. reflexivity.
Qed.

Lemma Rsum_Forall2 (env env' : string -> R) (ts a : list Expr) :
  Forall2 (fun t t' => Rvalue env t' = Rvalue env' t) ts a ->
  Rsum env a = Rsum env' ts /\ Rprod env a = Rprod env' ts.
Proof.
  induction 1 as [|t t' ts a Ht _ [IH1 IH2]]; [split; reflexivity|].
  unfold Rsum, Rprod in *. simpl. rewrite Ht, IH1, IH2. split; reflexivity.
Qed.

(** X20.  [replace(expr, var, new)] is substitution: for [new] not a
    constant, the value of the result is the value of [expr] where [var]
    stands for the value of [new].  (A constant is left out because an
    integer exponent is read as repeated multiplication.) *)
Theorem replace_is_substitution (fp : Q -> Q -> option Q) (fuel : nat)
    (env : string -> R) (v : string) (new : Expr) (e : Expr) :
  isConst new = false ->
  forall e', replace fp fuel e (Symbol v) new = Ok e' ->
             Rvalue env e'
             = Rvalue (fun s => if String.eqb s v then Rvalue env new
                                else env s) e.
Proof.
  intros Hnew.
  induction e as [q| | |s|ts IH|ts IH|b x IHb IHx|i IH|c i IH]
    using Expr_ind_list; intros e' H.
  - rewrite replace_eq in H. inversion H. reflexivity.
  - rewrite replace_eq in H. inversion H. reflexivity.
  - rewrite replace_eq in H. inversion H. reflexivity.
  - rewrite replace_eq in H. cbn [expr_eqb] in H. cbn [Rvalue].
    destruct (String.eqb s v); inversion H; reflexivity.
  - rewrite replace_eq in H. cbn [expr_eqb] in H. bind_inv H.
    apply mapM_Forall2 in Ha.
    rewrite (mkSum_value _ env _ _ H), Rvalue_Sum.
    apply Rsum_Forall2.
    clear H. induction Ha as [|t t' ts a Ht _ IHa]; [constructor|].
    inversion IH; subst. constructor; [auto | apply IHa; assumption].
  - rewrite replace_eq in H. cbn [expr_eqb] in H. bind_inv H.
    apply mapM_Forall2 in Ha.
    rewrite (mkProd_value _ env _ _ H), Rvalue_Prod.
    apply Rsum_Forall2.
    clear H. induction Ha as [|t t' ts a Ht _ IHa]; [constructor|].
    inversion IH; subst. constructor; [auto | apply IHa; assumption].
  - pose proof H as H'. rewrite replace_eq in H. cbn [expr_eqb] in H.
    bind_inv H. bind_inv H. inversion H. subst. clear H.
    destruct (replace_isConst fp fuel v new x a0 Hnew Ha0) as [Hc Hn].
    destruct (isConst x) eqn:Ex.
    + rewrite (Hc eq_refl). destruct x; try discriminate.
      cbn [Rvalue]. rewrite (IHb _ Ha). reflexivity.
    + rewrite (Rvalue_Power_general env a a0 (Hn eq_refl)).
      rewrite (Rvalue_Power_general _ b x Ex).
      rewrite (IHb _ Ha), (IHx _ Ha0). reflexivity.
  - rewrite replace_eq in H. cbn [expr_eqb] in H. bind_inv H.
    inversion H. subst. cbn [Rvalue]. rewrite (IH _ Ha). reflexivity.
  - rewrite replace_eq in H. cbn [expr_eqb] in H. bind_inv H.
    inversion H. subst. cbn [Rvalue]. rewrite (IH _ Ha). reflexivity.
Qed.

(** [replace(x*sin(x), x, u)] at [u = 1]. *)
Lemma replace_is_substitution_witness :
  Rvalue (fun _ => 1%R) (Prod [Symbol "u"; Sin (Symbol "u")])
  = Rvalue (fun s => if String.eqb s "x"
                     then Rvalue (fun _ => 1%R) (Symbol "u") else 1%R)
      (Prod [x; Sin x]).
Proof.
  apply (replace_is_substitution (fun _ _ => None) 20 (fun _ => 1%R) "x"
           (Symbol "u") (Prod [x; Sin x])).
  - reflexivity.
  - vm_compute. reflexivity.
Defined.
